(** * clockwork: the fake clock engine

    A shallow embedding of the virtual clock of package [clockwork]
    (the [FakeClock], its waiter queue, its blockers, and the fake timers
    and tickers that register themselves in it), followed by the properties
    of the engine that the specification states.

    Conventions of the embedding:
    - [time.Time] is an instant on the integer axis of nanoseconds and
      [time.Duration] a signed number of nanoseconds, both [Z];
      [a.Before(b)] is [a <? b], [a.After(b)] is [b <? a]. The engine
      adds on the integers: [t.Add(d)] is [t + d], which is what
      [Time.Add] gives as long as the sum is an instant that a
      [time.Time] holds. Module [Bounded], further down, has the
      operations with the saturating [Time.Add] of package [time]; what
      depends on an addition is stated there, inside the range.
    - [*fakeTimer] and [*fakeTicker] are pointers: the waiter queue holds
      addresses, the objects live in a heap, and two queue entries with the
      same address share one [exp] field, exactly as in Go.
    - a channel of capacity one is an [option]: [None] is the empty buffer.
    - [go f()] appends the callback to the list of spawned goroutines; the
      goroutine cannot touch the clock before the running operation ends,
      since the operation holds the write lock.
    - [mtx.RWMtx.With] runs its callback under the lock: every public
      operation below is one atomic state transformer.
    - [fired] is a ghost log: one entry per call of [expire].
    - a pointer that was never allocated reads as a zero timer; the queue
      of a reachable clock holds allocated objects only
      ([reachable_timers_once]).
    - the loops of [sort.Search] and [Advance] run on fuel that is
      computed from their arguments and shown to suffice
      ([search_loop_spec], [advance_loop_terminates]).

    The real clock and the waiting half of [BlockUntil] are outside the
    embedding: the first is the system clock, the other blocks a
    goroutine on a channel that the engine below closes. *)

From Stdlib Require Import ZArith List Lia Bool String Sorted Permutation.
From stdpp Require Import base gmap list.

Local Open Scope Z_scope.

(** ** Data model *)

Definition instant := Z.
Definition Duration := Z.
Definition ptr := nat.
Definition func := nat.

(** [fakeTimer] (timer.go); the back pointer [fc] is omitted, there is one
    clock. *)
Record fakeTimer := mkFakeTimer {
  tm_c : option instant;
  tm_exp : instant;
  tm_afterFunc : option func
}.

(** [fakeTicker] (ticker.go). *)
Record fakeTicker := mkFakeTicker {
  tk_c : option instant;
  tk_exp : instant;
  tk_d : Duration
}.

(** The two implementations of interface [expirer]. *)
Inductive expirer :=
| Timer (t : fakeTimer)
| Ticker (t : fakeTicker).

#[global] Instance expirer_inhabited : Inhabited expirer :=
  populate (Timer (mkFakeTimer None 0 None)).

(** [blocker]: [b_ch] names the channel made for it. *)
Record blocker := mkBlocker {
  b_count : Z;
  b_ch : nat
}.

(** [fakeClockInner], the value guarded by the lock. *)
Record fakeClockInner := mkInner {
  waiters : list ptr;
  blockers : list blocker;
  time : instant
}.

(** The clock together with the memory its operations read and write. *)
Record world := mkWorld {
  inner : fakeClockInner;
  heap : gmap ptr expirer;
  closed : list nat;
  nchan : nat;
  spawned : list func;
  fired : list (ptr * instant)
}.

Definition with_inner (i : fakeClockInner) (w : world) : world :=
  mkWorld i (heap w) (closed w) (nchan w) (spawned w) (fired w).

Definition with_heap (h : gmap ptr expirer) (w : world) : world :=
  mkWorld (inner w) h (closed w) (nchan w) (spawned w) (fired w).

Definition set_waiters (ws : list ptr) (w : world) : world :=
  with_inner (mkInner ws (blockers (inner w)) (time (inner w))) w.

Definition set_blockers (bs : list blocker) (w : world) : world :=
  with_inner (mkInner (waiters (inner w)) bs (time (inner w))) w.

Definition set_time (t : instant) (w : world) : world :=
  with_inner (mkInner (waiters (inner w)) (blockers (inner w)) t) w.

Definition log_fired (e : ptr) (now : instant) (w : world) : world :=
  mkWorld (inner w) (heap w) (closed w) (nchan w) (spawned w)
          (fired w ++ [(e, now)]).

Definition spawn (f : func) (w : world) : world :=
  mkWorld (inner w) (heap w) (closed w) (nchan w) (spawned w ++ [f])
          (fired w).

(** [NewFakeClockAt]. *)
Definition NewFakeClockAt (t : instant) : world :=
  mkWorld (mkInner [] [] t) ∅ [] 0%nat [] [].

(** ** The expirer interface *)

Definition deref (w : world) (e : ptr) : expirer := heap w !!! e.

(** [select { case c <- now: default: }] on a channel of capacity one. *)
Definition try_send (c : option instant) (now : instant) : option instant :=
  match c with
  | None => Some now
  | Some v => Some v
  end.

Definition expiration (w : world) (e : ptr) : instant :=
  match deref w e with
  | Timer t => tm_exp t
  | Ticker t => tk_exp t
  end.

Definition setExpiration (e : ptr) (t : instant) (w : world) : world :=
  match deref w e with
  | Timer o =>
      with_heap (<[e := Timer (mkFakeTimer (tm_c o) t (tm_afterFunc o))]> (heap w)) w
  | Ticker o =>
      with_heap (<[e := Ticker (mkFakeTicker (tk_c o) t (tk_d o))]> (heap w)) w
  end.

(** [fakeTimer.expire] and [fakeTicker.expire]; the result is the
    dereferenced [*time.Duration], [None] for [nil]. *)
Definition expire (e : ptr) (now : instant) (w : world)
  : option Duration * world :=
  let w := log_fired e now w in
  match deref w e with
  | Timer o =>
      match tm_afterFunc o with
      | Some f => (None, spawn f w)
      | None =>
          (None,
           with_heap (<[e := Timer (mkFakeTimer (try_send (tm_c o) now)
                                                (tm_exp o) None)]> (heap w)) w)
      end
  | Ticker o =>
      (Some (tk_d o),
       with_heap (<[e := Ticker (mkFakeTicker (try_send (tk_c o) now)
                                              (tk_exp o) (tk_d o))]> (heap w)) w)
  end.

(** The buffered value of the expirer's channel. *)
Definition chan (w : world) (e : ptr) : option instant :=
  match deref w e with
  | Timer t => tm_c t
  | Ticker t => tk_c t
  end.

(** ** Library functions used on the queue *)

(** [sort.Search(n, f)]: the binary search of package [sort], with the
    loop bounded by [fuel]. *)
Fixpoint search_loop (fuel : nat) (f : nat -> bool) (i j : nat) : nat :=
  match fuel with
  | O => i
  | S fuel' =>
      if (i <? j)%nat then
        let h := ((i + j) / 2)%nat in
        if f h then search_loop fuel' f i h
        else search_loop fuel' f (h + 1)%nat j
      else i
  end.

Definition sort_Search (n : nat) (f : nat -> bool) : nat :=
  search_loop n f 0%nat n.

(** [slices.Index]: [None] stands for -1. *)
Fixpoint slices_Index (s : list ptr) (e : ptr) : option nat :=
  match s with
  | [] => None
  | x :: s' =>
      if Nat.eqb x e then Some 0%nat
      else match slices_Index s' e with
           | Some i => Some (S i)
           | None => None
           end
  end.

(** [slices.Delete(s, idx, idx+1)]. *)
Definition slices_Delete1 (s : list ptr) (idx : nat) : list ptr :=
  take idx s ++ drop (S idx) s.

(** [slices.Insert(s, idx, e)] for [idx <= len(s)]. *)
Definition slices_Insert (s : list ptr) (idx : nat) (e : ptr) : list ptr :=
  take idx s ++ e :: drop idx s.

(** ** Queue operations of the clock *)

(** [stopExpirer]. *)
Definition stopExpirer (e : ptr) (w : world) : bool * world :=
  match slices_Index (waiters (inner w)) e with
  | Some idx => (true, set_waiters (slices_Delete1 (waiters (inner w)) idx) w)
  | None => (false, w)
  end.

(** The [slices.DeleteFunc] call of [setExpirer]: blockers whose count is
    reached have their channel closed and leave the registry. *)
Definition reached (n : nat) (b : blocker) : bool := b_count b <=? Z.of_nat n.

Definition notify_blockers (w : world) : world :=
  let n := length (waiters (inner w)) in
  let bs := blockers (inner w) in
  let w' := set_blockers (List.filter (fun b => negb (reached n b)) bs) w in
  mkWorld (inner w') (heap w')
          (closed w' ++ map b_ch (List.filter (reached n) bs))
          (nchan w') (spawned w') (fired w').

(** [setExpirer]. *)
Definition setExpirer (e : ptr) (d : Duration) (w : world) : world :=
  if d <=? 0 then snd (expire e (time (inner w)) w)
  else
    let w1 := setExpiration e (time (inner w) + d) w in
    let ws := waiters (inner w1) in
    let idx :=
      sort_Search (length ws)
        (fun i => expiration w1 e <? expiration w1 (nth i ws 0%nat)) in
    notify_blockers (set_waiters (slices_Insert ws idx e) w1).

(** ** Advance *)

(** One iteration of the loop of [Advance], entered with queue [e :: rest]. *)
Definition advance_step (e : ptr) (rest : list ptr) (w : world) : world :=
  let w1 := set_waiters rest w in
  let now := expiration w1 e in
  let w2 := set_time now w1 in
  let '(d, w3) := expire e now w2 in
  match d with
  | Some d => setExpirer e d w3
  | None => w3
  end.

(** The loop of [Advance]; [None] when [fuel] iterations were not enough. *)
Fixpoint advance_loop (fuel : nat) (end_ : instant) (w : world)
  : option world :=
  match waiters (inner w) with
  | [] => Some w
  | e :: rest =>
      if expiration w e <=? end_ then
        match fuel with
        | O => None
        | S fuel' => advance_loop fuel' end_ (advance_step e rest w)
        end
      else Some w
  end.

(** How far each queue entry is from passing [end_]; the sum bounds the
    number of iterations of the loop. *)
Definition slack (end_ : instant) (w : world) (e : ptr) : nat :=
  Z.to_nat (end_ - expiration w e + 1).

Definition advance_fuel (end_ : instant) (w : world) : nat :=
  list_sum (map (slack end_ w) (waiters (inner w))).

(** ** Public operations

    An operation returns a value and a new world, or panics. [Diverges]
    is the outcome of a loop that did not finish. *)

Inductive outcome (A : Type) :=
| Returns (a : A) (w : world)
| Panics (msg : string)
| Diverges.

Arguments Returns {A} a w.
Arguments Panics {A} msg.
Arguments Diverges {A}.

Definition M (A : Type) := world -> outcome A.

Definition ret {A} (a : A) : M A := fun w => Returns a w.

Definition bind {A B} (m : M A) (k : A -> M B) : M B :=
  fun w =>
    match m w with
    | Returns a w' => k a w'
    | Panics msg => Panics msg
    | Diverges => Diverges
    end.

Notation "x <~ m ;; k" := (bind m (fun x => k))
  (at level 100, m at next level, right associativity).

(** Run a script on a world and keep the final world. *)
Definition exec {A} (m : M A) (w : world) : option world :=
  match m w with
  | Returns _ w' => Some w'
  | _ => None
  end.

Definition newFakeTimer (afterfunc : option func) (w : world) : ptr * world :=
  let p := fresh (dom (heap w)) in
  (p, with_heap (<[p := Timer (mkFakeTimer None 0 afterfunc)]> (heap w)) w).

Definition newFakeTicker (d : Duration) (w : world) : ptr * world :=
  let p := fresh (dom (heap w)) in
  (p, with_heap (<[p := Ticker (mkFakeTicker None 0 d)]> (heap w)) w).

(** [FakeClock.newTimer], without the expiration it also returns. *)
Definition newTimer (d : Duration) (afterfunc : option func) : M ptr :=
  fun w =>
    let '(ft, w1) := newFakeTimer afterfunc w in
    Returns ft (setExpirer ft d w1).

Definition NewTimer (d : Duration) : M ptr := newTimer d None.

Definition AfterFunc (d : Duration) (f : option func) : M ptr := newTimer d f.

Definition NewTicker (d : Duration) : M ptr :=
  fun w =>
    if d <=? 0 then Panics "non-positive interval for NewTicker"
    else
      let '(ft, w1) := newFakeTicker d w in
      Returns ft (setExpirer ft d w1).

(** [FakeClock.stop]. *)
Definition stop (e : ptr) : M bool :=
  fun w => let '(stopped, w') := stopExpirer e w in Returns stopped w'.

Definition fakeTimer_Reset (f : ptr) (d : Duration) : M bool :=
  fun w =>
    let '(stopped, w1) := stopExpirer f w in
    Returns stopped (setExpirer f d w1).

Definition fakeTimer_Stop (f : ptr) : M bool := stop f.

(** The assignment [f.d = d] of [fakeTicker.Reset]. *)
Definition set_d (f : ptr) (d : Duration) (w : world) : world :=
  match deref w f with
  | Ticker o =>
      with_heap (<[f := Ticker (mkFakeTicker (tk_c o) (tk_exp o) d)]> (heap w)) w
  | Timer _ => w
  end.

Definition fakeTicker_Reset (f : ptr) (d : Duration) : M unit :=
  fun w => Returns tt (setExpirer f d (set_d f d w)).

Definition fakeTicker_Stop (f : ptr) : M unit :=
  fun w => let '(_, w') := stopExpirer f w in Returns tt w'.

Definition Now : M instant := fun w => Returns (time (inner w)) w.

Definition Advance (d : Duration) : M unit :=
  fun w =>
    let end_ := time (inner w) + d in
    match advance_loop (advance_fuel end_ w) end_ w with
    | Some w' => Returns tt (set_time end_ w')
    | None => Diverges
    end.

(** [FakeClock.newBlocker]: [None] is the nil blocker. *)
Definition newBlocker (n : Z) : M (option blocker) :=
  fun w =>
    if Z.of_nat (length (waiters (inner w))) <? n then
      let b := mkBlocker n (nchan w) in
      let w1 := set_blockers (blockers (inner w) ++ [b]) w in
      Returns (Some b)
              (mkWorld (inner w1) (heap w1) (closed w1) (S (nchan w1))
                       (spawned w1) (fired w1))
    else Returns None w.

(** A receive on [Chan()]: the buffered value is taken. On an empty
    buffer the receive of Go would block; here it yields [None] and
    changes nothing. *)
Definition drain (e : ptr) : M (option instant) :=
  fun w =>
    let v := chan w e in
    match deref w e with
    | Timer o =>
        Returns v (with_heap (<[e := Timer (mkFakeTimer None (tm_exp o)
                                              (tm_afterFunc o))]> (heap w)) w)
    | Ticker o =>
        Returns v (with_heap (<[e := Ticker (mkFakeTicker None (tk_exp o)
                                               (tk_d o))]> (heap w)) w)
    end.

(** How often [e] occurs in the waiter queue, and the instants of the
    queue in order. *)
Definition occurrences (e : ptr) (w : world) : nat :=
  count_occ Nat.eq_dec (waiters (inner w)) e.

Definition instants (w : world) : list instant :=
  map (expiration w) (waiters (inner w)).

(** When the loop stops, the queue is empty or its head is later than
    [end_]. *)
Definition loop_done (end_ : instant) (w : world) : Prop :=
  match waiters (inner w) with
  | [] => True
  | e :: _ => end_ < expiration w e
  end.

(** ** Reachable worlds

    The calls a test can make on one fake clock and on the timers and
    tickers it handed out. A method is called on a receiver of its own
    type. *)

Inductive op :=
| OpNewTimer (d : Duration)
| OpAfterFunc (d : Duration) (f : option func)
| OpNewTicker (d : Duration)
| OpTimerReset (f : ptr) (d : Duration)
| OpTimerStop (f : ptr)
| OpTickerReset (f : ptr) (d : Duration)
| OpTickerStop (f : ptr)
| OpAdvance (d : Duration)
| OpNewBlocker (n : Z)
| OpDrain (e : ptr).

Definition is_timer (w : world) (e : ptr) : bool :=
  match heap w !! e with
  | Some (Timer _) => true
  | _ => false
  end.

Definition is_ticker (w : world) (e : ptr) : bool :=
  match heap w !! e with
  | Some (Ticker _) => true
  | _ => false
  end.

Definition receiver_ok (o : op) (w : world) : bool :=
  match o with
  | OpTimerReset f _ | OpTimerStop f => is_timer w f
  | OpTickerReset f _ | OpTickerStop f => is_ticker w f
  | OpDrain e => is_timer w e || is_ticker w e
  | _ => true
  end.

Definition run_op (o : op) (w : world) : option world :=
  match o with
  | OpNewTimer d => exec (NewTimer d) w
  | OpAfterFunc d f => exec (AfterFunc d f) w
  | OpNewTicker d => exec (NewTicker d) w
  | OpTimerReset f d => exec (fakeTimer_Reset f d) w
  | OpTimerStop f => exec (fakeTimer_Stop f) w
  | OpTickerReset f d => exec (fakeTicker_Reset f d) w
  | OpTickerStop f => exec (fakeTicker_Stop f) w
  | OpAdvance d => exec (Advance d) w
  | OpNewBlocker n => exec (newBlocker n) w
  | OpDrain e => exec (drain e) w
  end.

Inductive reachable : world -> Prop :=
| reach_new (t : instant) : reachable (NewFakeClockAt t)
| reach_op (o : op) (w w' : world) :
    reachable w -> receiver_ok o w = true -> run_op o w = Some w' ->
    reachable w'.

(** ** Vocabulary of the statements *)

Definition queue_len (w : world) : Z := Z.of_nat (length (waiters (inner w))).

(** Every registered blocker still waits for more waiters than there are. *)
Definition blockers_pending (w : world) : Prop :=
  Forall (fun b => queue_len w < b_count b) (blockers (inner w)).

(** Channels of blockers are made once: those of registered blockers and
    the closed ones are pairwise distinct and older than the next one. *)
Definition chans_distinct (w : world) : Prop :=
  NoDup (map b_ch (blockers (inner w)) ++ closed w) /\
  Forall (fun c => (c < nchan w)%nat) (map b_ch (blockers (inner w)) ++ closed w).

(** The blocker's channel is closed: its [BlockUntil] call returns. *)
Definition notified (b : blocker) (w : world) : Prop := In (b_ch b) (closed w).

(** An operation left the registry, the closed channels and the channel
    counter as they were. *)
Definition registry_kept (w w' : world) : Prop :=
  blockers (inner w') = blockers (inner w) /\
  closed w' = closed w /\
  nchan w' = nchan w.

(** What became of a blocker [b] in the step to [w']: notified and removed
    if the queue of [w'] has reached its count, still registered and not
    notified otherwise. *)
Definition blocker_outcome (w' : world) (b : blocker) : Prop :=
  (b_count b <= queue_len w' ->
     notified b w' /\ ~ In b (blockers (inner w'))) /\
  (queue_len w' < b_count b ->
     ~ notified b w' /\ In b (blockers (inner w'))).

(** The firings of [T] in a log. *)
Definition firings_of (T : ptr) (log : list (ptr * instant)) : list (ptr * instant) :=
  List.filter (fun x => Nat.eqb (fst x) T) log.

(** The number of firings of [e] in a log. *)
Definition firings (e : ptr) (log : list (ptr * instant)) : nat :=
  length (firings_of e log).

(** The queue is sorted by instant. *)
Definition queue_sorted (w : world) : Prop := Sorted Z.le (instants w).

Definition allocated (w : world) (e : ptr) : Prop := is_Some (heap w !! e).

(** The shape the queue is meant to have: no expirer twice, sorted by
    instant, every entry an allocated object. *)
Definition queue_ok (w : world) : Prop :=
  NoDup (waiters (inner w)) /\
  StronglySorted Z.le (instants w) /\
  Forall (allocated w) (waiters (inner w)).

(** Every queued instant is strictly after the current time. *)
Definition queue_future (w : world) : Prop :=
  Forall (fun e => time (inner w) < expiration w e) (waiters (inner w)).

(** An operation other than the reset, to a positive period, of a ticker
    that is still in the queue. *)
Definition no_pending_ticker_reset (o : op) (w : world) : Prop :=
  match o with
  | OpTickerReset f d => 0 < d -> ~ In f (waiters (inner w))
  | _ => True
  end.

(** Restricted to [a] and [b], the queue reads [a; b]: both are queued
    once, [a] in front of [b]. *)
Definition queued_before (a b : ptr) (w : world) : Prop :=
  List.filter (fun x => Nat.eqb x a || Nat.eqb x b) (waiters (inner w)) = [a; b].

(** What the loop of [Advance], run from [w] to [w'] with target [end_],
    is meant to have logged: firings only up to [end_], in non-decreasing
    order of instant and not before the earliest queued instant; every
    due entry fired at its instant; and of two entries due at one instant
    the one queued in front fired before the other fired at all. *)
Definition loop_firings (end_ : instant) (w w' : world) : Prop :=
  exists evs,
    fired w' = fired w ++ evs /\
    queue_ok w' /\
    Forall (fun x => snd x <= end_) evs /\
    StronglySorted Z.le (map snd evs) /\
    (forall lo, Forall (fun p => lo <= expiration w p) (waiters (inner w)) ->
                Forall (fun x => lo <= snd x) evs) /\
    (forall p, In p (waiters (inner w)) -> expiration w p <= end_ ->
               In (p, expiration w p) evs) /\
    (forall a b, queued_before a b w ->
                 expiration w a = expiration w b -> expiration w a <= end_ ->
                 exists evs1 evs2,
                   evs = evs1 ++ (a, expiration w a) :: evs2 /\
                   Forall (fun x => fst x <> b) evs1 /\
                   In (b, expiration w b) evs2).

Definition regular (w : world) : Prop := queue_ok w /\ queue_future w.

(** An expirer that is not queued, or is queued for later than [end_],
    is left alone by the loop. This needs no assumption on the queue. *)
Definition loop_skips (end_ : instant) (p : ptr) (w w' : world) : Prop :=
  exists evs,
    fired w' = fired w ++ evs /\
    Forall (fun x => fst x <> p) evs /\
    deref w' p = deref w p /\
    (In p (waiters (inner w')) <-> In p (waiters (inner w))).

(** The worlds reached without ever resetting, to a positive period, a
    ticker that is still in the queue. *)
Inductive reachable_clean : world -> Prop :=
| clean_new (t : instant) : reachable_clean (NewFakeClockAt t)
| clean_op (o : op) (w w' : world) :
    reachable_clean w -> receiver_ok o w = true ->
    no_pending_ticker_reset o w -> run_op o w = Some w' ->
    reachable_clean w'.

(** [k] rounds of advancing by [p] and receiving the tick of [T]. *)
Fixpoint ticks (k : nat) (p : Duration) (T : ptr) : M unit :=
  match k with
  | O => ret tt
  | S k' => _ <~ Advance p ;; _ <~ drain T ;; ticks k' p T
  end.

(** [T] is a queued ticker of period [p] whose next tick is one period
    after the current time, and whose channel is empty. *)
Definition ticking (T : ptr) (p : Duration) (w : world) : Prop :=
  In T (waiters (inner w)) /\
  deref w T = Ticker (mkFakeTicker None (time (inner w) + p) p).

(** In one run of the loop, a ticker that is due once before [end_] fires
    exactly once, at its instant, and is queued again one period later. *)
Definition fires_once (end_ : instant) (T : ptr) (p : Duration) (w w' : world) : Prop :=
  exists evs,
    fired w' = fired w ++ evs /\
    firings_of T evs = [(T, expiration w T)] /\
    In T (waiters (inner w')) /\
    deref w' T =
      Ticker (mkFakeTicker (try_send (chan w T) (expiration w T))
                           (expiration w T + p) p).

(** No object changed between timer and ticker, none was freed. *)
Definition same_kinds (w w' : world) : Prop :=
  forall q, is_timer w' q = is_timer w q /\ is_ticker w' q = is_ticker w q.

(** Every queue entry is an allocated object, and no timer is queued
    twice. *)
Definition timers_once (w : world) : Prop :=
  Forall (allocated w) (waiters (inner w)) /\
  forall e, is_timer w e = true -> (occurrences e w <= 1)%nat.

(** ** Concrete clocks

    Small clocks on which the statements are exercised. [NewTicker] and
    [NewTimer] on a new clock hand out the addresses 0, 1, ... in order. *)

(** The world a script leaves behind when started on a new clock at 0 (the
    new clock itself if the script does not return). *)
Definition after {A} (m : M A) : world :=
  match m (NewFakeClockAt 0) with
  | Returns _ w => w
  | _ => NewFakeClockAt 0
  end.

(** A ticker of period 5 and a timer due at 7, both pending. *)
Definition ticker5_timer7 : world :=
  after (t <~ NewTicker 5 ;; a <~ NewTimer 7 ;; ret (t, a)).

(** One pending timer, and a blocker registered for three waiters. *)
Definition timer5 : world := after (NewTimer 5).

Definition timer5_blocker3 : world :=
  after (_ <~ NewTimer 5 ;; newBlocker 3).


(** A ticker of period 5, pending. *)
Definition ticker5 : world := after (NewTicker 5).

(** The ticker at address 0 was reset to period 3 while pending. *)
Definition ticker5_reset3 : world :=
  after (t <~ NewTicker 5 ;; fakeTicker_Reset t 3).

(** A ticker (address 0) and a timer due at 7 (address 1); the ticker was
    reset to period 10 while pending. *)
Definition ticker_reset10_timer7 : world :=
  after (t <~ NewTicker 5 ;; _ <~ NewTimer 7 ;; fakeTicker_Reset t 10).

(** Two tickers, of period 5 (address 0) and 7 (address 1); the first was
    reset to period 10 while pending. *)
Definition ticker_reset10_ticker7 : world :=
  after (t <~ NewTicker 5 ;; _ <~ NewTicker 7 ;; fakeTicker_Reset t 10).

(** ** The remaining operations of the clock *)

(** [time.Duration] is a signed 64-bit count of nanoseconds. *)
Definition minDuration : Duration := - 2 ^ 63.
Definition maxDuration : Duration := 2 ^ 63 - 1.

(** [t.Sub(u)] of package [time]: the difference, or the nearest
    [Duration] when the difference does not fit. *)
Definition time_Sub (t u : instant) : Duration :=
  if t - u <? minDuration then minDuration
  else if maxDuration <? t - u then maxDuration
  else t - u.

(** [FakeClock.Since] and [FakeClock.Until]. *)
Definition Since (t : instant) : M Duration :=
  fun w => Returns (time_Sub (time (inner w)) t) w.

Definition Until (t : instant) : M Duration :=
  fun w => Returns (time_Sub t (time (inner w))) w.

(** [FakeClock.newTimerAtTime]. *)
Definition newTimerAtTime (t : instant) (afterfunc : option func) : M ptr :=
  fun w =>
    let '(ft, w1) := newFakeTimer afterfunc w in
    Returns ft (setExpirer ft (time_Sub t (time (inner w1))) w1).

(** What becomes of the caller of [Sleep]: it receives at once, or it is
    parked on the channel of the timer it registered until something is
    sent there. *)
Inductive sleep_result :=
| Slept (w : world)
| Parked (t : ptr) (w : world)
| SleepPanics (msg : string).

(** ** More vocabulary *)

(** In one run of the loop the timer [T], due by [end_], fired exactly
    once, at its instant, and left the queue; a timer without callback
    sent the instant unless its channel was full. *)
Definition fires_timer (end_ : instant) (T : ptr) (w w' : world) : Prop :=
  exists evs,
    fired w' = fired w ++ evs /\
    firings_of T evs = [(T, expiration w T)] /\
    ~ In T (waiters (inner w')) /\
    forall o, deref w T = Timer o ->
      deref w' T =
        match tm_afterFunc o with
        | Some _ => Timer o
        | None => Timer (mkFakeTimer (try_send (tm_c o) (tm_exp o)) (tm_exp o) None)
        end.

(** The callback that a firing of [e] spawns on [w], if any. *)
Definition callback_of (w : world) (e : ptr) : option func :=
  match heap w !! e with
  | Some (Timer o) => tm_afterFunc o
  | _ => None
  end.

(** ** Callbacks *)

Definition expirer_callback (x : expirer) : option func :=
  match x with
  | Timer o => tm_afterFunc o
  | Ticker _ => None
  end.

Definition expirer_chan (x : expirer) : option instant :=
  match x with
  | Timer o => tm_c o
  | Ticker o => tk_c o
  end.

(** The callbacks that the firings [evs] start on [w], in order. *)
Definition callbacks (w : world) (evs : list (ptr * instant)) : list func :=
  omap (fun x => callback_of w (fst x)) evs.

(** The channel of every timer that has a callback is empty. *)
Definition afterfunc_silent (w : world) : Prop :=
  forall e, callback_of w e <> None -> chan w e = None.

(** A step from [w] to [w'] that frees no object and changes no
    callback, sends nothing to a timer with a callback, and starts
    exactly the callbacks of what it fires. *)
Definition callbacks_step (w w' : world) : Prop :=
  (forall e, allocated w e ->
             allocated w' e /\ callback_of w' e = callback_of w e) /\
  (afterfunc_silent w -> afterfunc_silent w') /\
  exists evs,
    fired w' = fired w ++ evs /\
    Forall (fun x => allocated w' (fst x)) evs /\
    spawned w' = spawned w ++ callbacks w' evs.

(** Everything fired is an allocated object, and the callbacks started
    are those of the firings, in the order of the firings. *)
Definition callbacks_ok (w : world) : Prop :=
  Forall (fun x => allocated w (fst x)) (fired w) /\
  spawned w = callbacks w (fired w).

(** A timer with callback 8, due at 5, and a plain timer due at 6, on a
    clock advanced to 7. *)
Definition afterfunc5_fired : world :=
  after (_ <~ AfterFunc 5 (Some 8%nat) ;; _ <~ NewTimer 6 ;; Advance 7).

(** ** The range of [time.Time]

    The engine above adds on the integers. In Go an instant is a pair of
    a signed 64-bit count of seconds and a count of nanoseconds below one
    second, and [Time.Add] keeps the seconds inside 64 bits by
    saturation. An instant [t : Z] stands for the pair
    [(t / 10^9, t mod 10^9)]. *)

Definition nsPerSec : Z := 10 ^ 9.

Definition minTime : instant := - 2 ^ 63 * nsPerSec.
Definition maxTime : instant := (2 ^ 63 - 1) * nsPerSec + (nsPerSec - 1).

(** The instants that a [time.Time] can hold. *)
Definition Time_range (t : instant) : Prop := minTime <= t <= maxTime.

(** The values that a [time.Duration] can hold. *)
Definition Duration_range (d : Duration) : Prop := minDuration <= d <= maxDuration.

(** Two's complement wrap-around of a 64-bit sum. *)
Definition int64_wrap (x : Z) : Z := (x + 2 ^ 63) mod 2 ^ 64 - 2 ^ 63.

(** [Time.addSec] of package [time], on a time without monotonic
    reading: [sum := t.ext + d], kept when [(sum > t.ext) == (d > 0)],
    else the greatest or the least count of seconds. *)
Definition addSec (ext d : Z) : Z :=
  let sum := int64_wrap (ext + d) in
  if Bool.eqb (ext <? sum) (0 <? d) then sum
  else if 0 <? d then 2 ^ 63 - 1
  else - (2 ^ 63 - 1).

(** [t.Add(d)] of package [time], on a time without monotonic reading:
    the seconds of [d] go through [addSec], its nanoseconds are added to
    those of [t] with a carry of one second. *)
Definition Time_Add (t : instant) (d : Duration) : instant :=
  let dsec := Z.quot d nsPerSec in
  let nsec := t mod nsPerSec + Z.rem d nsPerSec in
  let '(dsec, nsec) :=
    if nsPerSec <=? nsec then (dsec + 1, nsec - nsPerSec)
    else if nsec <? 0 then (dsec - 1, nsec + nsPerSec)
    else (dsec, nsec) in
  addSec (t / nsPerSec) dsec * nsPerSec + nsec.

(** The period of a ticker; a timer has none. *)
Definition expirer_period (x : expirer) : Duration :=
  match x with
  | Ticker o => tk_d o
  | Timer _ => 0
  end.

Definition period (w : world) (e : ptr) : Duration :=
  expirer_period (deref w e).

(** Every queued instant is one that a [time.Time] can hold. *)
Definition queue_in_range (w : world) : Prop :=
  Forall (fun e => Time_range (expiration w e)) (waiters (inner w)).

(** No queued ticker has a period above [B]. *)
Definition periods_le (B : Z) (w : world) : Prop :=
  Forall (fun e => period w e <= B) (waiters (inner w)).

Definition world_in_range (w : world) : Prop :=
  Time_range (time (inner w)) /\ queue_in_range w.

(** No [Add] of [Advance d] saturates: the target is in range, and so is
    the target plus the period of any queued ticker, which bounds the
    instant at which the loop queues a ticker again. *)
Definition advance_in_range (d : Duration) (w : world) : Prop :=
  Time_range (time (inner w) + d) /\
  periods_le (maxTime - (time (inner w) + d)) w.

(** The operation is given a duration that the type holds, and no [Add]
    that it performs saturates. *)
Definition op_in_range (o : op) (w : world) : Prop :=
  match o with
  | OpNewTimer d | OpAfterFunc d _ | OpNewTicker d
  | OpTimerReset _ d | OpTickerReset _ d =>
      Duration_range d /\ (0 < d -> Time_range (time (inner w) + d))
  | OpAdvance d => Duration_range d /\ advance_in_range d w
  | _ => True
  end.

(** A receive [<-t.Chan()] by the goroutine that drives the clock: the
    buffered value is taken. On an empty buffer the receive blocks, and
    with it the only goroutine that could advance the clock: the script
    does not go on. *)
Definition receive (e : ptr) : M instant :=
  fun w =>
    match drain e w with
    | Returns (Some v) w' => Returns v w'
    | Returns None _ => Diverges
    | Panics msg => Panics msg
    | Diverges => Diverges
    end.

(** ** The engine with the addition of package [time]

    The operations that add a duration to an instant, once more, with
    [Time_Add] where the engine above has [+]. The two agree as long as
    no addition leaves the range ([setExpirer_exact], [advance_loop_exact],
    [run_op_exact]). The loop of [Advance] runs on fuel given by the
    caller: past the range the loop of the code need not end. *)

Module Bounded.

(** [setExpirer]. *)
Definition setExpirer (e : ptr) (d : Duration) (w : world) : world :=
  if d <=? 0 then snd (expire e (time (inner w)) w)
  else
    let w1 := setExpiration e (Time_Add (time (inner w)) d) w in
    let ws := waiters (inner w1) in
    let idx :=
      sort_Search (length ws)
        (fun i => expiration w1 e <? expiration w1 (nth i ws 0%nat)) in
    notify_blockers (set_waiters (slices_Insert ws idx e) w1).

(** One iteration of the loop of [Advance], entered with queue [e :: rest]. *)
Definition advance_step (e : ptr) (rest : list ptr) (w : world) : world :=
  let w1 := set_waiters rest w in
  let now := expiration w1 e in
  let w2 := set_time now w1 in
  let '(d, w3) := expire e now w2 in
  match d with
  | Some d => setExpirer e d w3
  | None => w3
  end.

(** The loop of [Advance]; [None] when [fuel] iterations were not enough. *)
Fixpoint advance_loop (fuel : nat) (end_ : instant) (w : world)
  : option world :=
  match waiters (inner w) with
  | [] => Some w
  | e :: rest =>
      if expiration w e <=? end_ then
        match fuel with
        | O => None
        | S fuel' => advance_loop fuel' end_ (advance_step e rest w)
        end
      else Some w
  end.

(** [FakeClock.Advance]; [Diverges] when the loop did not end within
    [fuel] iterations. *)
Definition Advance (fuel : nat) (d : Duration) : M unit :=
  fun w =>
    let end_ := Time_Add (time (inner w)) d in
    match advance_loop fuel end_ w with
    | Some w' => Returns tt (set_time end_ w')
    | None => Diverges
    end.

Definition newTimer (d : Duration) (afterfunc : option func) : M ptr :=
  fun w =>
    let '(ft, w1) := newFakeTimer afterfunc w in
    Returns ft (setExpirer ft d w1).

Definition NewTimer (d : Duration) : M ptr := newTimer d None.

Definition AfterFunc (d : Duration) (f : option func) : M ptr := newTimer d f.

Definition NewTicker (d : Duration) : M ptr :=
  fun w =>
    if d <=? 0 then Panics "non-positive interval for NewTicker"
    else
      let '(ft, w1) := newFakeTicker d w in
      Returns ft (setExpirer ft d w1).

Definition fakeTimer_Reset (f : ptr) (d : Duration) : M bool :=
  fun w =>
    let '(stopped, w1) := stopExpirer f w in
    Returns stopped (setExpirer f d w1).

Definition fakeTicker_Reset (f : ptr) (d : Duration) : M unit :=
  fun w => Returns tt (setExpirer f d (set_d f d w)).

(** [FakeClock.After]: [AfterNotify] on a channel made for the call,
    whose [close] cannot fail. The channel returned is the one of the new
    timer and is named by the timer's address. *)
Definition After (d : Duration) : M ptr := NewTimer d.

(** [FakeClock.Sleep]: [SleepNotify] on a channel made for the call. *)
Definition Sleep (d : Duration) (w : world) : sleep_result :=
  match After d w with
  | Returns t w1 =>
      match chan w1 t with
      | Some _ =>
          match drain t w1 with
          | Returns _ w2 => Slept w2
          | Panics msg => SleepPanics msg
          | Diverges => SleepPanics "unreachable"
          end
      | None => Parked t w1
      end
  | Panics msg => SleepPanics msg
  | Diverges => SleepPanics "unreachable"
  end.

Definition run_op (fuel : nat) (o : op) (w : world) : option world :=
  match o with
  | OpNewTimer d => exec (NewTimer d) w
  | OpAfterFunc d f => exec (AfterFunc d f) w
  | OpNewTicker d => exec (NewTicker d) w
  | OpTimerReset f d => exec (fakeTimer_Reset f d) w
  | OpTimerStop f => exec (fakeTimer_Stop f) w
  | OpTickerReset f d => exec (fakeTicker_Reset f d) w
  | OpTickerStop f => exec (fakeTicker_Stop f) w
  | OpAdvance d => exec (Advance fuel d) w
  | OpNewBlocker n => exec (newBlocker n) w
  | OpDrain e => exec (drain e) w
  end.

(** The clocks that a program reaches from a new clock without an [Add]
    that saturates. *)
Inductive reachable : world -> Prop :=
| in_range_new (t : instant) :
    Time_range t -> reachable (NewFakeClockAt t)
| in_range_op (fuel : nat) (o : op) (w w' : world) :
    reachable w -> receiver_ok o w = true -> op_in_range o w ->
    run_op fuel o w = Some w' ->
    reachable w'.

(** The same, and without the reset, to a positive period, of a ticker
    that is still in the queue. *)
Inductive reachable_clean : world -> Prop :=
| in_range_clean_new (t : instant) :
    Time_range t -> reachable_clean (NewFakeClockAt t)
| in_range_clean_op (fuel : nat) (o : op) (w w' : world) :
    reachable_clean w -> receiver_ok o w = true ->
    no_pending_ticker_reset o w -> op_in_range o w ->
    run_op fuel o w = Some w' ->
    reachable_clean w'.

(** [k] rounds of advancing by [p] and receiving the tick of [T]; the
    result lists the instants received. *)
Fixpoint ticks (fuel k : nat) (p : Duration) (T : ptr) : M (list instant) :=
  match k with
  | O => ret []
  | S k' =>
      _ <~ Advance fuel p ;; v <~ receive T ;;
      vs <~ ticks fuel k' p T ;; ret (v :: vs)
  end.

(** [k] calls of [Advance p] in a row, nothing received in between. *)
Fixpoint advances (fuel k : nat) (p : Duration) : M unit :=
  match k with
  | O => ret tt
  | S k' => _ <~ Advance fuel p ;; advances fuel k' p
  end.

(** [k] rounds for a one-shot timer: advance by [d], receive, reset to
    [d]. The result lists, for each round, the instant received and what
    [Reset] returned. *)
Fixpoint rearm_rounds (fuel k : nat) (d : Duration) (T : ptr)
  : M (list (instant * bool)) :=
  match k with
  | O => ret []
  | S k' =>
      _ <~ Advance fuel d ;; v <~ receive T ;; b <~ fakeTimer_Reset T d ;;
      rs <~ rearm_rounds fuel k' d T ;; ret ((v, b) :: rs)
  end.

End Bounded.

(** A new clock ten seconds before the greatest instant. *)
Definition near_greatest_Time : world :=
  NewFakeClockAt (maxTime - 10 * nsPerSec).

(** Closed facts about ranges, by evaluation. *)
Ltac in_range :=
  vm_compute; repeat (let H := fresh in intros H); repeat split; discriminate.
(** * Properties *)

(** ** What the primitive operations touch *)

Lemma deref_with_heap_eq (w : world) (h : gmap ptr expirer) (e : ptr) (o : expirer) :
  deref (with_heap (<[e := o]> h) w) e = o.
Proof. unfold deref; simpl. apply lookup_total_insert_eq. Qed.

Lemma deref_with_heap_ne (w : world) (h : gmap ptr expirer) (e p : ptr) (o : expirer) :
  e <> p -> deref (with_heap (<[e := o]> h) w) p = h !!! p.
Proof. intros Hne. unfold deref; simpl. by apply lookup_total_insert_ne. Qed.

Lemma expire_inner (e : ptr) (now : instant) (w : world) :
  inner (snd (expire e now w)) = inner w.
Proof.
  unfold expire. destruct (deref _ e) as [o|o]; [destruct (tm_afterFunc o)|]; reflexivity.
Qed.

Lemma expire_expiration (e : ptr) (now : instant) (w : world) (p : ptr) :
  expiration (snd (expire e now w)) p = expiration w p.
Proof.
  unfold expire, expiration.
  replace (deref (log_fired e now w)) with (deref w) by reflexivity.
  destruct (deref w e) as [o|o] eqn:He; [destruct (tm_afterFunc o)|]; simpl; try reflexivity.
  all: destruct (decide (e = p)) as [->|Hne];
    [rewrite deref_with_heap_eq, He; reflexivity
    |rewrite deref_with_heap_ne by done; reflexivity].
Qed.

Lemma expire_closed (e : ptr) (now : instant) (w : world) :
  closed (snd (expire e now w)) = closed w.
Proof.
  unfold expire. destruct (deref _ e) as [o|o]; [destruct (tm_afterFunc o)|]; reflexivity.
Qed.

Lemma expire_fired (e : ptr) (now : instant) (w : world) :
  fired (snd (expire e now w)) = fired w ++ [(e, now)].
Proof.
  unfold expire. destruct (deref _ e) as [o|o]; [destruct (tm_afterFunc o)|]; reflexivity.
Qed.

Lemma setExpiration_inner (e : ptr) (t : instant) (w : world) :
  inner (setExpiration e t w) = inner w.
Proof. unfold setExpiration. destruct (deref w e); reflexivity. Qed.

Lemma setExpiration_expiration (e : ptr) (t : instant) (w : world) (p : ptr) :
  expiration (setExpiration e t w) p = if decide (p = e) then t else expiration w p.
Proof.
  unfold setExpiration, expiration.
  destruct (deref w e) as [o|o] eqn:He; destruct (decide (p = e)) as [->|Hne].
  all: try (rewrite deref_with_heap_eq; reflexivity).
  all: rewrite deref_with_heap_ne by done; reflexivity.
Qed.

Lemma notify_blockers_waiters (w : world) :
  waiters (inner (notify_blockers w)) = waiters (inner w).
Proof. reflexivity. Qed.

Lemma notify_blockers_expiration (w : world) (p : ptr) :
  expiration (notify_blockers w) p = expiration w p.
Proof. reflexivity. Qed.

(** ** The binary search stays inside its bounds *)

Lemma search_loop_bounds (fuel : nat) (f : nat -> bool) (i j : nat) :
  (i <= j)%nat ->
  (i <= search_loop fuel f i j <= j)%nat.
Proof.
  revert i j. induction fuel as [|fuel IH]; intros i j Hij; cbn [search_loop]; [lia|].
  destruct (i <? j)%nat eqn:Hlt; [|lia].
  apply Nat.ltb_lt in Hlt.
  assert (Hh : (i <= (i + j) / 2 < j)%nat).
  { split; [apply Nat.div_le_lower_bound; lia | apply Nat.Div0.div_lt_upper_bound; lia]. }
  generalize dependent ((i + j) / 2)%nat. intros h Hh.
  destruct (f h).
  - specialize (IH i h). lia.
  - specialize (IH (h + 1)%nat j). lia.
Qed.

Lemma sort_Search_le (n : nat) (f : nat -> bool) : (sort_Search n f <= n)%nat.
Proof. unfold sort_Search. pose proof (search_loop_bounds n f 0 n). lia. Qed.

(** ** Shape of the queue after [setExpirer] *)

Lemma setExpirer_nonpos (e : ptr) (d : Duration) (w : world) :
  d <= 0 -> setExpirer e d w = snd (expire e (time (inner w)) w).
Proof. intros Hd. unfold setExpirer. by rewrite (proj2 (Z.leb_le d 0) Hd). Qed.

Lemma setExpirer_pos_waiters (e : ptr) (d : Duration) (w : world) :
  0 < d ->
  exists idx, (idx <= length (waiters (inner w)))%nat /\
    waiters (inner (setExpirer e d w)) = slices_Insert (waiters (inner w)) idx e.
Proof.
  intros Hd. unfold setExpirer. rewrite (proj2 (Z.leb_gt d 0) Hd).
  rewrite notify_blockers_waiters. simpl. rewrite setExpiration_inner.
  eexists. split; [|reflexivity]. apply sort_Search_le.
Qed.

Lemma setExpirer_pos_expiration (e : ptr) (d : Duration) (w : world) (p : ptr) :
  0 < d ->
  expiration (setExpirer e d w) p =
    if decide (p = e) then time (inner w) + d else expiration w p.
Proof.
  intros Hd. unfold setExpirer. rewrite (proj2 (Z.leb_gt d 0) Hd).
  rewrite notify_blockers_expiration.
  replace (expiration (set_waiters _ (setExpiration e (time (inner w) + d) w)) p)
    with (expiration (setExpiration e (time (inner w) + d) w) p) by reflexivity.
  apply setExpiration_expiration.
Qed.

Lemma setExpirer_time (e : ptr) (d : Duration) (w : world) :
  time (inner (setExpirer e d w)) = time (inner w).
Proof.
  unfold setExpirer. destruct (d <=? 0).
  - by rewrite expire_inner.
  - simpl. by rewrite setExpiration_inner.
Qed.

(** ** Termination of the loop of [Advance] *)

Lemma list_sum_insert (g : ptr -> nat) (l : list ptr) (idx : nat) (e : ptr) :
  list_sum (map g (slices_Insert l idx e)) = (g e + list_sum (map g l))%nat.
Proof.
  unfold slices_Insert.
  rewrite <- (take_drop idx l) at 3.
  rewrite !map_app, !list_sum_app. simpl. lia.
Qed.

Lemma list_sum_map_le (g h : ptr -> nat) (l : list ptr) :
  (forall p, (g p <= h p)%nat) ->
  (list_sum (map g l) <= list_sum (map h l))%nat.
Proof.
  intros Hgh. induction l as [|x l IH]; simpl; [lia|]. specialize (Hgh x). lia.
Qed.

Lemma advance_step_expire (e : ptr) (rest : list ptr) (w : world) :
  let w2 := set_time (expiration w e) (set_waiters rest w) in
  advance_step e rest w =
    match fst (expire e (expiration w e) w2) with
    | Some d => setExpirer e d (snd (expire e (expiration w e) w2))
    | None => snd (expire e (expiration w e) w2)
    end.
Proof.
  unfold advance_step.
  replace (expiration (set_waiters rest w) e) with (expiration w e) by reflexivity.
  simpl. destruct (expire _ _ _) as [d w3]. reflexivity.
Qed.

Lemma advance_fuel_expire (end_ : instant) (e : ptr) (now : instant) (w : world) :
  advance_fuel end_ (snd (expire e now w)) = advance_fuel end_ w.
Proof.
  unfold advance_fuel. rewrite expire_inner. f_equal. apply map_ext.
  intros p. unfold slack. by rewrite expire_expiration.
Qed.

(** Each iteration strictly lowers [advance_fuel]. *)
Lemma advance_step_fuel (end_ : instant) (e : ptr) (rest : list ptr) (w : world) :
  waiters (inner w) = e :: rest ->
  expiration w e <= end_ ->
  (advance_fuel end_ (advance_step e rest w) < advance_fuel end_ w)%nat.
Proof.
  intros Hq Hdue. rewrite advance_step_expire.
  set (now := expiration w e).
  set (w2 := set_time now (set_waiters rest w)).
  set (w3 := snd (expire e now w2)).
  assert (Hw3 : waiters (inner w3) = rest) by (unfold w3; rewrite expire_inner; reflexivity).
  assert (Ht3 : time (inner w3) = now) by (unfold w3; rewrite expire_inner; reflexivity).
  assert (He3 : forall p, expiration w3 p = expiration w p)
    by (intros p; unfold w3; rewrite expire_expiration; reflexivity).
  assert (Hold : advance_fuel end_ w = (slack end_ w e + list_sum (map (slack end_ w) rest))%nat)
    by (unfold advance_fuel; rewrite Hq; reflexivity).
  assert (Hpos : (1 <= slack end_ w e)%nat) by (unfold slack; lia).
  assert (Hsame : advance_fuel end_ w3 = list_sum (map (slack end_ w) rest)).
  { unfold advance_fuel. rewrite Hw3. f_equal. apply map_ext. intros p.
    unfold slack. by rewrite He3. }
  destruct (fst (expire e now w2)) as [d|]; [|lia].
  destruct (Z_le_gt_dec d 0) as [Hd|Hd].
  - rewrite setExpirer_nonpos by done. rewrite advance_fuel_expire. lia.
  - assert (Hd' : 0 < d) by lia.
    destruct (setExpirer_pos_waiters e d w3 Hd') as (idx & _ & Hins).
    rewrite Hold. unfold advance_fuel. rewrite Hins, Hw3, list_sum_insert.
    assert (Hnew : (slack end_ (setExpirer e d w3) e < slack end_ w e)%nat).
    { unfold slack. rewrite setExpirer_pos_expiration by done.
      rewrite decide_True by done. rewrite Ht3. unfold now. unfold slack in Hpos. lia. }
    assert (Hrest : (list_sum (map (slack end_ (setExpirer e d w3)) rest)
                     <= list_sum (map (slack end_ w) rest))%nat).
    { apply list_sum_map_le. intros p. unfold slack.
      rewrite setExpirer_pos_expiration by done.
      destruct (decide (p = e)) as [->|_]; [|rewrite He3; lia].
      rewrite Ht3. unfold now. lia. }
    lia.
Qed.

(** Enough fuel always gives a result, and more fuel gives the same one. *)
Lemma advance_loop_terminates (fuel : nat) (end_ : instant) (w : world) :
  (advance_fuel end_ w <= fuel)%nat ->
  exists w', advance_loop fuel end_ w = Some w'.
Proof.
  revert w. induction fuel as [|fuel IH]; intros w Hfuel.
  - simpl. destruct (waiters (inner w)) as [|e rest] eqn:Hq; [eauto|].
    destruct (expiration w e <=? end_) eqn:Hdue; [|eauto].
    apply Z.leb_le in Hdue.
    pose proof (advance_step_fuel end_ e rest w Hq Hdue). lia.
  - simpl. destruct (waiters (inner w)) as [|e rest] eqn:Hq; [eauto|].
    destruct (expiration w e <=? end_) eqn:Hdue; [|eauto].
    apply Z.leb_le in Hdue. apply IH.
    pose proof (advance_step_fuel end_ e rest w Hq Hdue). lia.
Qed.

Lemma advance_loop_more_fuel (fuel fuel' : nat) (end_ : instant) (w w' : world) :
  advance_loop fuel end_ w = Some w' ->
  (fuel <= fuel')%nat ->
  advance_loop fuel' end_ w = Some w'.
Proof.
  revert fuel' w. induction fuel as [|fuel IH]; intros fuel' w Hrun Hle.
  - destruct fuel'; [done|]. simpl in *.
    destruct (waiters (inner w)) as [|e rest]; [done|].
    destruct (expiration w e <=? end_); done.
  - destruct fuel' as [|fuel']; [lia|]. simpl in *.
    destruct (waiters (inner w)) as [|e rest]; [done|].
    destruct (expiration w e <=? end_); [|done].
    apply IH; [done|lia].
Qed.

Lemma advance_loop_done (fuel : nat) (end_ : instant) (w w' : world) :
  advance_loop fuel end_ w = Some w' -> loop_done end_ w'.
Proof.
  revert w. induction fuel as [|fuel IH]; intros w; simpl.
  - unfold loop_done. destruct (waiters (inner w)) as [|e rest] eqn:Hq.
    + intros [= <-]. by rewrite Hq.
    + destruct (expiration w e <=? end_) eqn:Hdue; [done|].
      intros [= <-]. rewrite Hq. by apply Z.leb_gt.
  - destruct (waiters (inner w)) as [|e rest] eqn:Hq.
    + intros [= <-]. unfold loop_done. by rewrite Hq.
    + destruct (expiration w e <=? end_) eqn:Hdue; [apply IH|].
      intros [= <-]. unfold loop_done. rewrite Hq. by apply Z.leb_gt.
Qed.

Lemma Advance_returns (d : Duration) (w : world) :
  exists w', advance_loop (advance_fuel (time (inner w) + d) w) (time (inner w) + d) w = Some w' /\
    Advance d w = Returns tt (set_time (time (inner w) + d) w').
Proof.
  destruct (advance_loop_terminates (advance_fuel (time (inner w) + d) w)
              (time (inner w) + d) w) as [w' Hw']; [lia|].
  exists w'. split; [done|]. unfold Advance. by rewrite Hw'.
Qed.

Lemma Advance_never_diverges (d : Duration) (w : world) :
  Advance d w <> Diverges /\ forall msg, Advance d w <> Panics msg.
Proof.
  destruct (Advance_returns d w) as (w' & _ & ->). split; [done|]. by intros msg.
Qed.

(** ** Two runs of the engine *)

(** Timer A for 5, then timer B for 3: [Advance 4] delivers 3 to B and
    leaves A pending; [Advance 2] more delivers 5 to A. *)
Example two_timers_fire_in_order :
  exists w1 w2,
    (a <~ NewTimer 5 ;; b <~ NewTimer 3 ;; Advance 4) (NewFakeClockAt 0)
      = Returns tt w1 /\
    chan w1 1%nat = Some 3 /\ chan w1 0%nat = None /\
    waiters (inner w1) = [0%nat] /\
    Advance 2 w1 = Returns tt w2 /\
    chan w2 0%nat = Some 5 /\ waiters (inner w2) = [] /\
    time (inner w2) = 6.
Proof.
  do 2 eexists. split; [vm_compute; reflexivity|].
  split; [reflexivity|]. split; [reflexivity|]. split; [reflexivity|].
  split; [vm_compute; reflexivity|]. repeat split; reflexivity.
Qed.

(** Two timers for the same instant fire in the order of their
    registration; a ticker of period 5 fires at 5, 10 and 15 within one
    [Advance 18] and is queued for 20. *)
Example ties_and_ticks :
  fired (after (a <~ NewTimer 4 ;; b <~ NewTimer 4 ;; Advance 4))
    = [(0%nat, 4); (1%nat, 4)] /\
  fired (after (t <~ NewTicker 5 ;; Advance 18))
    = [(0%nat, 5); (0%nat, 10); (0%nat, 15)] /\
  instants (after (t <~ NewTicker 5 ;; Advance 18)) = [20].
Proof. repeat split; vm_compute; reflexivity. Qed.

(** ** Blockers *)

Lemma filter_none {A} (f : A -> bool) (l : list A) :
  Forall (fun x => f x = false) l -> List.filter f l = [].
Proof.
  induction 1 as [|x l Hx _ IH]; simpl; [done|]. by rewrite Hx.
Qed.

Lemma filter_all {A} (f : A -> bool) (l : list A) :
  Forall (fun x => f x = true) l -> List.filter f l = l.
Proof.
  induction 1 as [|x l Hx _ IH]; simpl; [done|]. by rewrite Hx, IH.
Qed.

Lemma filter_split_perm {A} (f : A -> bool) (l : list A) :
  Permutation (List.filter (fun x => negb (f x)) l ++ List.filter f l) l.
Proof.
  induction l as [|x l IH]; simpl; [done|].
  destruct (f x); simpl.
  - rewrite <- Permutation_middle. by constructor.
  - by constructor.
Qed.

(** Without a blocker whose count is reached, [notify_blockers] changes
    nothing. *)
Lemma notify_blockers_none (w : world) :
  blockers_pending w -> notify_blockers w = w.
Proof.
  intros Hp. unfold notify_blockers.
  assert (Hf : Forall (fun b => reached (length (waiters (inner w))) b = false)
                 (blockers (inner w))).
  { eapply Forall_impl; [exact Hp|]. intros b Hb. unfold reached, queue_len in *.
    simpl in Hb. apply Z.leb_gt. exact Hb. }
  rewrite (filter_none _ _ Hf).
  rewrite filter_all.
  - simpl. rewrite app_nil_r. destruct w as [[ws bs t] h c n s f]; reflexivity.
  - eapply Forall_impl; [exact Hf|]. intros b Hb. simpl in Hb. by rewrite Hb.
Qed.

Lemma pending_mono (w w' : world) :
  blockers (inner w') = blockers (inner w) ->
  queue_len w' <= queue_len w ->
  blockers_pending w -> blockers_pending w'.
Proof.
  intros Hb Hl Hp. unfold blockers_pending. rewrite Hb.
  eapply Forall_impl; [exact Hp|]. intros b Hlt. simpl in *. lia.
Qed.

Lemma registry_kept_refl (w : world) : registry_kept w w.
Proof. by repeat split. Qed.

Lemma registry_kept_trans (w1 w2 w3 : world) :
  registry_kept w1 w2 -> registry_kept w2 w3 -> registry_kept w1 w3.
Proof. unfold registry_kept. intros (-> & -> & ->) (-> & -> & ->). done. Qed.

Lemma expire_kept (e : ptr) (now : instant) (w : world) :
  registry_kept w (snd (expire e now w)).
Proof.
  unfold registry_kept. rewrite expire_inner, expire_closed. repeat split.
  unfold expire. destruct (deref _ e) as [o|o]; [destruct (tm_afterFunc o)|]; reflexivity.
Qed.

Lemma slices_Delete1_length (s : list ptr) (idx : nat) :
  (length (slices_Delete1 s idx) <= length s)%nat.
Proof.
  unfold slices_Delete1. rewrite length_app, length_take, length_drop. lia.
Qed.

Lemma slices_Insert_length (s : list ptr) (idx : nat) (e : ptr) :
  length (slices_Insert s idx e) = S (length s).
Proof.
  unfold slices_Insert. rewrite length_app, length_take. simpl.
  rewrite length_drop. lia.
Qed.

Lemma stopExpirer_kept (e : ptr) (w : world) :
  registry_kept w (snd (stopExpirer e w)) /\
  queue_len (snd (stopExpirer e w)) <= queue_len w.
Proof.
  unfold stopExpirer, queue_len. destruct (slices_Index _ e) as [idx|]; simpl.
  - split; [by repeat split|].
    pose proof (slices_Delete1_length (waiters (inner w)) idx). lia.
  - split; [apply registry_kept_refl|lia].
Qed.

Lemma setExpirer_queue_len (e : ptr) (d : Duration) (w : world) :
  queue_len (setExpirer e d w) = if d <=? 0 then queue_len w else queue_len w + 1.
Proof.
  unfold queue_len. destruct (d <=? 0) eqn:Hd.
  - apply Z.leb_le in Hd. rewrite setExpirer_nonpos by done. by rewrite expire_inner.
  - apply Z.leb_gt in Hd.
    destruct (setExpirer_pos_waiters e d w Hd) as (idx & _ & ->).
    rewrite slices_Insert_length. lia.
Qed.

(** The registry after an insertion: the blockers whose count the new
    queue length reaches are closed and removed, in order. *)
Lemma setExpirer_pos_registry (e : ptr) (d : Duration) (w : world) :
  0 < d ->
  let n := S (length (waiters (inner w))) in
  blockers (inner (setExpirer e d w)) =
    List.filter (fun b => negb (reached n b)) (blockers (inner w)) /\
  closed (setExpirer e d w) =
    closed w ++ map b_ch (List.filter (reached n) (blockers (inner w))) /\
  nchan (setExpirer e d w) = nchan w.
Proof.
  intros Hd. unfold setExpirer. rewrite (proj2 (Z.leb_gt d 0) Hd).
  unfold notify_blockers. simpl. rewrite setExpiration_inner.
  rewrite slices_Insert_length.
  unfold setExpiration. destruct (deref w e); simpl; done.
Qed.

Lemma pending_not_reached (w : world) (n : nat) :
  Z.of_nat n <= queue_len w ->
  blockers_pending w ->
  Forall (fun b => reached n b = false) (blockers (inner w)).
Proof.
  intros Hn Hp. eapply Forall_impl; [exact Hp|].
  intros b Hb. simpl in Hb. unfold reached. apply Z.leb_gt. lia.
Qed.

(** An insertion that does not lift the queue above a length [k] that no
    registered blocker accepts leaves the registry alone. *)
Lemma setExpirer_kept_below (e : ptr) (d : Duration) (w : world) (k : Z) :
  Forall (fun b => k < b_count b) (blockers (inner w)) ->
  queue_len w + 1 <= k ->
  registry_kept w (setExpirer e d w).
Proof.
  intros Hk Hlen. destruct (Z_le_gt_dec d 0) as [Hd|Hd].
  - rewrite setExpirer_nonpos by done. apply expire_kept.
  - destruct (setExpirer_pos_registry e d w) as (Hb & Hc & Hn); [lia|].
    assert (Hf : Forall (fun b => reached (S (length (waiters (inner w)))) b = false)
                   (blockers (inner w))).
    { eapply Forall_impl; [exact Hk|]. intros b Hb'. simpl in Hb'.
      unfold reached. apply Z.leb_gt. unfold queue_len in Hlen. lia. }
    unfold registry_kept. rewrite Hb, Hc, Hn.
    rewrite (filter_none _ _ Hf), filter_all; simpl.
    + by rewrite app_nil_r.
    + eapply Forall_impl; [exact Hf|]. intros b Hb'. simpl in Hb'. by rewrite Hb'.
Qed.

Lemma advance_step_kept (e : ptr) (rest : list ptr) (w : world) (k : Z) :
  waiters (inner w) = e :: rest ->
  Forall (fun b => k < b_count b) (blockers (inner w)) ->
  queue_len w <= k ->
  registry_kept w (advance_step e rest w) /\
  queue_len (advance_step e rest w) <= k.
Proof.
  intros Hq Hk Hlen. rewrite advance_step_expire.
  set (w2 := set_time (expiration w e) (set_waiters rest w)).
  set (w3 := snd (expire e (expiration w e) w2)).
  assert (H23 : registry_kept w2 w3) by apply expire_kept.
  assert (H02 : registry_kept w w2) by (by repeat split).
  assert (H03 : registry_kept w w3) by (eapply registry_kept_trans; eauto).
  assert (Hl3 : queue_len w3 + 1 = queue_len w).
  { unfold queue_len, w3. rewrite expire_inner. simpl. rewrite Hq. simpl. lia. }
  destruct (fst (expire e (expiration w e) w2)) as [d|].
  - split.
    + eapply registry_kept_trans; [exact H03|].
      apply (setExpirer_kept_below e d w3 k); [|lia].
      destruct H03 as (-> & _). exact Hk.
    + rewrite setExpirer_queue_len. destruct (d <=? 0); lia.
  - split; [exact H03|lia].
Qed.

Lemma advance_loop_kept (fuel : nat) (end_ : instant) (w w' : world) (k : Z) :
  advance_loop fuel end_ w = Some w' ->
  Forall (fun b => k < b_count b) (blockers (inner w)) ->
  queue_len w <= k ->
  registry_kept w w' /\ queue_len w' <= k.
Proof.
  revert w. induction fuel as [|fuel IH]; intros w; simpl.
  - destruct (waiters (inner w)) as [|e rest]; [|destruct (expiration w e <=? end_)].
    2: done.
    all: intros [= <-] _ Hl; split; [apply registry_kept_refl|done].
  - destruct (waiters (inner w)) as [|e rest] eqn:Hq;
      [|destruct (expiration w e <=? end_)].
    1,3: intros [= <-] _ Hl; split; [apply registry_kept_refl|done].
    intros Hrun Hk Hl.
    destruct (advance_step_kept e rest w k Hq Hk Hl) as [Hkept Hl'].
    destruct (IH _ Hrun) as [Hkept' Hl'']; [|done|].
    + destruct Hkept as (-> & _). exact Hk.
    + split; [eapply registry_kept_trans; eauto|done].
Qed.

Lemma registered_not_notified (w : world) (b : blocker) :
  chans_distinct w -> In b (blockers (inner w)) -> ~ notified b w.
Proof.
  intros [Hnd _] Hb Hn. apply NoDup_app in Hnd as (_ & Hdisj & _).
  apply (Hdisj (b_ch b)); apply list_elem_of_In; [by apply in_map|exact Hn].
Qed.

Lemma kept_outcome (w w' : world) :
  registry_kept w w' ->
  queue_len w' <= queue_len w ->
  blockers_pending w -> chans_distinct w ->
  blockers_pending w' /\ chans_distinct w' /\
  forall b, In b (blockers (inner w)) -> blocker_outcome w' b.
Proof.
  intros (Hb & Hc & Hn) Hl Hp Hd.
  assert (Hp' : blockers_pending w') by (by apply (pending_mono w)).
  assert (Hd' : chans_distinct w') by (unfold chans_distinct; by rewrite Hb, Hc, Hn).
  split; [done|]. split; [done|]. intros b Hin.
  assert (Hin' : In b (blockers (inner w'))) by (by rewrite Hb).
  split; intros Hcmp.
  - apply (proj1 (List.Forall_forall _ _) Hp') in Hin'. simpl in Hin'. lia.
  - split; [by apply registered_not_notified|done].
Qed.

Lemma setExpirer_outcome (e : ptr) (d : Duration) (w : world) :
  blockers_pending w -> chans_distinct w ->
  blockers_pending (setExpirer e d w) /\ chans_distinct (setExpirer e d w) /\
  forall b, In b (blockers (inner w)) -> blocker_outcome (setExpirer e d w) b.
Proof.
  intros Hp Hd. destruct (Z_le_gt_dec d 0) as [Hle|Hgt].
  - apply kept_outcome; try done.
    + rewrite setExpirer_nonpos by done. apply expire_kept.
    + rewrite setExpirer_queue_len, (proj2 (Z.leb_le d 0) Hle). lia.
  - destruct (setExpirer_pos_registry e d w) as (Hb & Hc & Hn); [lia|].
    set (n := S (length (waiters (inner w)))) in *.
    set (w' := setExpirer e d w) in *.
    assert (Hlen : queue_len w' = Z.of_nat n).
    { unfold w'. rewrite setExpirer_queue_len, (proj2 (Z.leb_gt d 0)) by lia.
      unfold queue_len, n. lia. }
    assert (Hp' : blockers_pending w').
    { unfold blockers_pending. rewrite Hb, Hlen. apply List.Forall_forall.
      intros b Hin. apply filter_In in Hin as [_ Hr].
      unfold reached in Hr. apply negb_true_iff, Z.leb_gt in Hr. exact Hr. }
    assert (Hperm : Permutation (map b_ch (blockers (inner w)) ++ closed w)
                      (map b_ch (blockers (inner w')) ++ closed w')).
    { rewrite Hb, Hc. rewrite app_assoc.
      rewrite (Permutation_app_comm (_ ++ closed w)), app_assoc.
      apply Permutation_app_tail. rewrite <- map_app. apply Permutation_map.
      rewrite Permutation_app_comm. symmetry. apply filter_split_perm. }
    assert (Hd' : chans_distinct w').
    { destruct Hd as [Hnd Hlt]. split.
      - by rewrite <- Hperm.
      - rewrite Hn. by rewrite <- Hperm. }
    split; [done|]. split; [done|]. intros b Hin. split; intros Hcmp.
    + split.
      * unfold notified. rewrite Hc. apply in_or_app. right. apply in_map.
        apply filter_In. split; [done|]. unfold reached. apply Z.leb_le. lia.
      * rewrite Hb. intros Hin'. apply filter_In in Hin' as [_ Hr].
        unfold reached in Hr. apply negb_true_iff, Z.leb_gt in Hr. lia.
    + assert (Hin' : In b (blockers (inner w'))).
      { rewrite Hb. apply filter_In. split; [done|].
        unfold reached. apply negb_true_iff, Z.leb_gt. lia. }
      split; [by apply registered_not_notified|done].
Qed.

Lemma set_then_outcome (e : ptr) (d : Duration) (w w1 : world) :
  registry_kept w w1 ->
  queue_len w1 <= queue_len w ->
  blockers_pending w -> chans_distinct w ->
  blockers_pending (setExpirer e d w1) /\ chans_distinct (setExpirer e d w1) /\
  forall b, In b (blockers (inner w)) -> blocker_outcome (setExpirer e d w1) b.
Proof.
  intros Hk Hl Hp Hd.
  destruct (kept_outcome w w1 Hk Hl Hp Hd) as (Hp1 & Hd1 & _).
  destruct (setExpirer_outcome e d w1 Hp1 Hd1) as (Hp' & Hd' & Hout).
  split; [done|]. split; [done|]. intros b Hin.
  destruct Hk as (Hb & _). rewrite <- Hb in Hin. by apply Hout.
Qed.

Lemma set_d_kept (f : ptr) (d : Duration) (w : world) :
  registry_kept w (set_d f d w) /\ inner (set_d f d w) = inner w.
Proof. unfold set_d. destruct (deref w f); by repeat split. Qed.

Lemma drain_kept (e : ptr) (w w' : world) :
  exec (drain e) w = Some w' -> registry_kept w w' /\ inner w' = inner w.
Proof.
  unfold exec, drain. destruct (deref w e); intros [= <-]; by repeat split.
Qed.

(** Every operation keeps the two registry invariants, and treats each
    registered blocker according to the queue length it leaves. *)
Lemma op_outcome (o : op) (w w' : world) :
  blockers_pending w -> chans_distinct w ->
  run_op o w = Some w' ->
  blockers_pending w' /\ chans_distinct w' /\
  forall b, In b (blockers (inner w)) -> blocker_outcome w' b.
Proof.
  intros Hp Hd. destruct o as [d|d f|d|f d|f|f d|f|d|n|e]; simpl.
  - unfold exec, NewTimer, newTimer, newFakeTimer. intros [= <-].
    apply (set_then_outcome _ _ w); done.
  - unfold exec, AfterFunc, newTimer, newFakeTimer. intros [= <-].
    apply (set_then_outcome _ _ w); done.
  - unfold exec, NewTicker, newFakeTicker. destruct (d <=? 0); [done|].
    intros [= <-]. apply (set_then_outcome _ _ w); done.
  - unfold exec, fakeTimer_Reset.
    destruct (stopExpirer_kept f w) as [Hk Hl].
    destruct (stopExpirer f w) as [stopped w1]. intros [= <-].
    by apply (set_then_outcome _ _ w).
  - unfold exec, fakeTimer_Stop, stop.
    destruct (stopExpirer_kept f w) as [Hk Hl].
    destruct (stopExpirer f w) as [stopped w1]. intros [= <-].
    by apply kept_outcome.
  - unfold exec, fakeTicker_Reset. intros [= <-].
    destruct (set_d_kept f d w) as [Hk Hi].
    apply (set_then_outcome _ _ w); try done. unfold queue_len. rewrite Hi. lia.
  - unfold exec, fakeTicker_Stop.
    destruct (stopExpirer_kept f w) as [Hk Hl].
    destruct (stopExpirer f w) as [stopped w1]. intros [= <-].
    by apply kept_outcome.
  - unfold exec. destruct (Advance_returns d w) as (w1 & Hloop & ->).
    intros [= <-].
    destruct (advance_loop_kept _ _ _ _ (queue_len w) Hloop) as [Hk Hl];
      [exact Hp|lia|].
    apply kept_outcome; try done.
  - unfold exec, newBlocker.
    destruct (Z.of_nat (length (waiters (inner w))) <? n) eqn:Hn; intros [= <-].
    + apply Z.ltb_lt in Hn. destruct Hd as [Hnd Hlt].
      assert (Hfresh : ~ In (nchan w) (map b_ch (blockers (inner w)) ++ closed w)).
      { intros Hin. apply (proj1 (List.Forall_forall _ _) Hlt) in Hin. lia. }
      assert (Hperm : Permutation
                (nchan w :: map b_ch (blockers (inner w)) ++ closed w)
                (map b_ch (blockers (inner w) ++ [mkBlocker n (nchan w)]) ++ closed w)).
      { rewrite map_app. simpl. rewrite <- app_assoc. simpl.
        apply Permutation_middle. }
      assert (Hd' : chans_distinct
                (mkWorld (inner (set_blockers (blockers (inner w) ++ [mkBlocker n (nchan w)]) w))
                   (heap w) (closed w) (S (nchan w)) (spawned w) (fired w))).
      { split; simpl.
        - rewrite <- Hperm. apply NoDup_cons. split; [|done].
          intros Hin%list_elem_of_In. done.
        - rewrite <- Hperm. constructor; [lia|].
          eapply Forall_impl; [exact Hlt|]. intros; simpl in *; lia. }
      split; [|split; [exact Hd'|]].
      * unfold blockers_pending. simpl. apply Forall_app. split; [exact Hp|].
        constructor; [exact Hn|constructor].
      * intros b Hin.
        assert (Hin' : In b (blockers (inner w) ++ [mkBlocker n (nchan w)]))
          by (apply in_or_app; by left).
        split; intros Hcmp.
        -- apply (proj1 (List.Forall_forall _ _) Hp) in Hin.
           unfold queue_len in *. simpl in *. lia.
        -- split; [|exact Hin']. by apply registered_not_notified.
    + apply kept_outcome; done || apply registry_kept_refl.
  - intros Hrun. destruct (drain_kept e w w' Hrun) as [Hk Hi].
    apply kept_outcome; try done. unfold queue_len. rewrite Hi. lia.
Qed.

Lemma reachable_registry (w : world) :
  reachable w -> blockers_pending w /\ chans_distinct w.
Proof.
  induction 1 as [t|o w w' _ [Hp Hd] _ Hrun].
  - repeat split; simpl; constructor.
  - destruct (op_outcome o w w' Hp Hd Hrun) as (Hp' & Hd' & _). done.
Qed.

(** C5. Registering a blocker for [n] waiters when the queue already holds
    at least [n] succeeds at once and adds nothing to the registry;
    otherwise a blocker with count [n], not notified, is added. A
    registered blocker always waits for more waiters than the queue holds,
    and an operation notifies and removes it exactly when it leaves the
    queue with at least [n] entries, which only an insertion does. So a
    [BlockUntil n] call never returns success before the queue has held
    [n] waiters. *)
Theorem blocker_waits_for_count (w : world) (n : Z) :
  reachable w ->
  (n <= queue_len w -> newBlocker n w = Returns None w) /\
  (queue_len w < n ->
     exists w', newBlocker n w = Returns (Some (mkBlocker n (nchan w))) w' /\
       blockers (inner w') = blockers (inner w) ++ [mkBlocker n (nchan w)] /\
       waiters (inner w') = waiters (inner w) /\
       ~ notified (mkBlocker n (nchan w)) w') /\
  (forall b, In b (blockers (inner w)) ->
     queue_len w < b_count b /\ ~ notified b w) /\
  (forall e d b, 0 < d -> In b (blockers (inner w)) ->
     queue_len (setExpirer e d w) = queue_len w + 1 /\
     blocker_outcome (setExpirer e d w) b) /\
  (forall o w' b, receiver_ok o w = true -> run_op o w = Some w' ->
     In b (blockers (inner w)) ->
     blocker_outcome w' b /\
     (queue_len w' <= queue_len w -> ~ notified b w')).
Proof.
  intros Hreach. destruct (reachable_registry w Hreach) as [Hp Hd].
  split; [|split; [|split; [|split]]].
  - intros Hn. unfold newBlocker, queue_len in *.
    by rewrite (proj2 (Z.ltb_ge _ _) Hn).
  - intros Hn. unfold newBlocker, queue_len in *.
    rewrite (proj2 (Z.ltb_lt _ _) Hn). eexists. split; [reflexivity|].
    repeat split. unfold notified. simpl. intros Hin.
    destruct Hd as [_ Hlt]. apply Forall_app in Hlt as [_ Hlt].
    apply (proj1 (List.Forall_forall _ _) Hlt) in Hin. lia.
  - intros b Hin. split.
    + by apply (proj1 (List.Forall_forall _ _) Hp) in Hin.
    + by apply registered_not_notified.
  - intros e d b Hpos Hin. split.
    + rewrite setExpirer_queue_len. by rewrite (proj2 (Z.leb_gt d 0) Hpos).
    + by apply setExpirer_outcome.
  - intros o w' b _ Hrun Hin.
    destruct (op_outcome o w w' Hp Hd Hrun) as (_ & _ & Hout).
    split; [by apply Hout|]. intros Hle.
    apply (proj1 (List.Forall_forall _ _) Hp) in Hin as Hlt. simpl in Hlt.
    apply Hout in Hin as [_ Hkeep]. apply Hkeep. lia.
Qed.

Lemma timer5_blocker3_reachable : reachable timer5_blocker3.
Proof.
  apply (reach_op (OpNewBlocker 3) timer5); [|reflexivity|reflexivity].
  apply (reach_op (OpNewTimer 5) (NewFakeClockAt 0)); [|reflexivity|reflexivity].
  apply reach_new.
Qed.

Lemma blocker_waits_for_count_witness :
  reachable timer5_blocker3 /\
  1 <= queue_len timer5_blocker3 /\
  newBlocker 1 timer5_blocker3 = Returns None timer5_blocker3 /\
  In (mkBlocker 3 0) (blockers (inner timer5_blocker3)) /\
  ~ notified (mkBlocker 3 0) timer5_blocker3.
Proof.
  pose proof timer5_blocker3_reachable as Hr.
  pose proof (blocker_waits_for_count timer5_blocker3 1 Hr) as (Himm & _ & Hreg & _).
  assert (Hin : In (mkBlocker 3 0) (blockers (inner timer5_blocker3)))
    by (left; reflexivity).
  assert (Hlen : 1 <= queue_len timer5_blocker3) by (vm_compute; discriminate).
  split; [exact Hr|]. split; [exact Hlen|]. split; [exact (Himm Hlen)|].
  split; [exact Hin|]. exact (proj2 (Hreg _ Hin)).
Defined.

(** ** Removal from the queue *)

Lemma slices_Index_None (s : list ptr) (e : ptr) :
  slices_Index s e = None <-> ~ In e s.
Proof.
  induction s as [|x s IH]; simpl; [tauto|].
  destruct (Nat.eqb_spec x e) as [->|Hne].
  - split; [done|]. intros H. exfalso. apply H. by left.
  - destruct (slices_Index s e) as [i|].
    + split; [done|]. intros H. exfalso. apply H. right.
      destruct (in_dec Nat.eq_dec e s) as [Hin|Hn]; [done|]. by apply IH in Hn.
    + split; [|done]. intros _ [Heq|Hin]; [done|]. by apply IH.
Qed.

Lemma slices_Index_Some (s : list ptr) (e : ptr) (idx : nat) :
  slices_Index s e = Some idx ->
  exists l1 l2, s = l1 ++ e :: l2 /\ length l1 = idx /\ ~ In e l1.
Proof.
  revert idx. induction s as [|x s IH]; intros idx; simpl; [done|].
  destruct (Nat.eqb_spec x e) as [->|Hne].
  - intros [= <-]. exists [], s. split; [done|]. split; [done|]. intros [].
  - destruct (slices_Index s e) as [i|]; [|done]. intros [= <-].
    destruct (IH i eq_refl) as (l1 & l2 & -> & Hlen & Hnin).
    exists (x :: l1), l2. split; [done|]. split; [simpl; by rewrite Hlen|].
    intros [Heq|Hin]; done.
Qed.

Lemma slices_Delete1_middle (l1 l2 : list ptr) (e : ptr) :
  slices_Delete1 (l1 ++ e :: l2) (length l1) = l1 ++ l2.
Proof.
  unfold slices_Delete1.
  rewrite take_app_length.
  replace (S (length l1)) with (length (l1 ++ [e])) by (rewrite length_app; simpl; lia).
  replace (l1 ++ e :: l2) with ((l1 ++ [e]) ++ l2) by (by rewrite <- app_assoc).
  by rewrite drop_app_length.
Qed.

(** [stopExpirer] removes the first occurrence of [e] and reports whether
    there was one; nothing but the queue changes. *)
Lemma stopExpirer_spec (e : ptr) (w : world) :
  (~ In e (waiters (inner w)) /\ stopExpirer e w = (false, w)) \/
  (exists l1 l2, waiters (inner w) = l1 ++ e :: l2 /\ ~ In e l1 /\
     stopExpirer e w = (true, set_waiters (l1 ++ l2) w)).
Proof.
  unfold stopExpirer. destruct (slices_Index _ e) as [idx|] eqn:Hidx.
  - right. destruct (slices_Index_Some _ _ _ Hidx) as (l1 & l2 & Hq & Hlen & Hnin).
    exists l1, l2. repeat split; try done.
    rewrite Hq, <- Hlen. by rewrite slices_Delete1_middle.
  - left. split; [by apply slices_Index_None|done].
Qed.

(** ** One-shot timers with a non-positive duration *)

Lemma fresh_unallocated (w : world) : heap w !! fresh (dom (heap w)) = None.
Proof. apply not_elem_of_dom. apply is_fresh. Qed.

Lemma deref_allocated (w : world) (e : ptr) (o : expirer) :
  heap w !! e = Some o -> deref w e = o.
Proof. intros H. unfold deref. by apply lookup_total_correct. Qed.

Lemma stopExpirer_heap (e : ptr) (w : world) :
  heap (snd (stopExpirer e w)) = heap w /\
  time (inner (snd (stopExpirer e w))) = time (inner w) /\
  fired (snd (stopExpirer e w)) = fired w /\
  spawned (snd (stopExpirer e w)) = spawned w.
Proof. unfold stopExpirer. by destruct (slices_Index _ e). Qed.

Lemma stopExpirer_queue (e : ptr) (w : world) :
  (In e (waiters (inner w)) ->
     fst (stopExpirer e w) = true /\
     queue_len (snd (stopExpirer e w)) = queue_len w - 1) /\
  (~ In e (waiters (inner w)) ->
     fst (stopExpirer e w) = false /\ snd (stopExpirer e w) = w).
Proof.
  destruct (stopExpirer_spec e w) as [[Hnin ->]|(l1 & l2 & Hq & Hnin & ->)].
  - split; [done|]. by intros _.
  - split.
    + intros _. split; [done|]. unfold queue_len. simpl. rewrite Hq.
      rewrite !length_app. simpl. lia.
    + intros Hn. exfalso. apply Hn. rewrite Hq. apply in_or_app. right. by left.
Qed.

Lemma expire_Timer (e : ptr) (now : instant) (w : world) (o : fakeTimer) :
  deref w e = Timer o ->
  fst (expire e now w) = None /\
  match tm_afterFunc o with
  | Some f =>
      spawned (snd (expire e now w)) = spawned w ++ [f] /\
      heap (snd (expire e now w)) = heap w
  | None =>
      spawned (snd (expire e now w)) = spawned w /\
      heap (snd (expire e now w)) =
        <[e := Timer (mkFakeTimer (try_send (tm_c o) now) (tm_exp o) None)]> (heap w)
  end.
Proof.
  intros He. unfold expire.
  replace (deref (log_fired e now w) e) with (Timer o) by done.
  by destruct (tm_afterFunc o).
Qed.

Lemma expire_Ticker (e : ptr) (now : instant) (w : world) (o : fakeTicker) :
  deref w e = Ticker o ->
  fst (expire e now w) = Some (tk_d o) /\
  spawned (snd (expire e now w)) = spawned w /\
  heap (snd (expire e now w)) =
    <[e := Ticker (mkFakeTicker (try_send (tk_c o) now) (tk_exp o) (tk_d o))]> (heap w).
Proof.
  intros He. unfold expire.
  by replace (deref (log_fired e now w) e) with (Ticker o) by done.
Qed.





(** ** The binary search on a sorted queue *)

Lemma search_loop_spec (f : nat -> bool) (n : nat) :
  (forall a b, (a <= b < n)%nat -> f a = true -> f b = true) ->
  forall fuel i j,
    (i <= j <= n)%nat -> (j - i <= fuel)%nat ->
    (forall k, (k < i)%nat -> f k = false) ->
    (forall k, (j <= k < n)%nat -> f k = true) ->
    (forall k, (k < search_loop fuel f i j)%nat -> f k = false) /\
    (forall k, (search_loop fuel f i j <= k < n)%nat -> f k = true).
Proof.
  intros Hmono. induction fuel as [|fuel IH]; intros i j Hij Hfuel Hlo Hhi;
    cbn [search_loop].
  - split; [exact Hlo|]. intros k Hk. apply Hhi. lia.
  - destruct (i <? j)%nat eqn:Hlt.
    + apply Nat.ltb_lt in Hlt.
      assert (Hh : (i <= (i + j) / 2 < j)%nat).
      { split; [apply Nat.div_le_lower_bound; lia
               |apply Nat.Div0.div_lt_upper_bound; lia]. }
      generalize dependent ((i + j) / 2)%nat. intros h Hh.
      destruct (f h) eqn:Hfh.
      * apply IH; [lia|lia|exact Hlo|].
        intros k Hk. apply (Hmono h k); [lia|exact Hfh].
      * apply IH; [lia|lia| |exact Hhi].
        intros k Hk. destruct (f k) eqn:Hfk; [|done].
        rewrite <- Hfh. symmetry. apply (Hmono k h); [lia|exact Hfk].
    + apply Nat.ltb_ge in Hlt. split; [exact Hlo|].
      intros k Hk. apply Hhi. lia.
Qed.

Lemma StronglySorted_nth (g : ptr -> Z) (ws : list ptr) (a b : nat) :
  StronglySorted Z.le (map g ws) ->
  (a <= b < length ws)%nat ->
  g (nth a ws 0%nat) <= g (nth b ws 0%nat).
Proof.
  revert a b. induction ws as [|x ws IH]; intros a b Hs Hab; simpl in *; [lia|].
  apply StronglySorted_inv in Hs as [Hs Hall].
  destruct a as [|a], b as [|b]; try lia.
  - rewrite List.Forall_forall in Hall. apply Hall.
    apply in_map. apply nth_In. lia.
  - apply IH; [done|lia].
Qed.

(** On a sorted queue the search returns the index that splits the queue
    into the entries not later than [x] and the entries later than [x]. *)
Lemma sort_Search_partition (g : ptr -> Z) (ws : list ptr) (x : Z) :
  StronglySorted Z.le (map g ws) ->
  let r := sort_Search (length ws) (fun i => x <? g (nth i ws 0%nat)) in
  Forall (fun p => g p <= x) (take r ws) /\
  Forall (fun p => x < g p) (drop r ws).
Proof.
  intros Hs r.
  destruct (search_loop_spec (fun i => x <? g (nth i ws 0%nat)) (length ws))
    with (fuel := length ws) (i := 0%nat) (j := length ws) as [Hlo Hhi].
  - intros a b Hab Ha. apply Z.ltb_lt in Ha. apply Z.ltb_lt.
    pose proof (StronglySorted_nth g ws a b Hs Hab). lia.
  - lia.
  - lia.
  - intros k Hk. lia.
  - intros k Hk. lia.
  - fold (sort_Search (length ws) (fun i => x <? g (nth i ws 0%nat))) in Hlo, Hhi.
    fold r in Hlo, Hhi. split.
    + apply Forall_lookup. intros i p Hp.
      apply lookup_take_Some in Hp as [Hp Hi].
      specialize (Hlo i Hi). simpl in Hlo. apply Z.ltb_ge in Hlo.
      by rewrite (nth_lookup_Some _ _ _ _ Hp) in Hlo.
    + apply Forall_lookup. intros i p Hp. rewrite lookup_drop in Hp.
      assert (Hlt : (r + i < length ws)%nat) by (by eapply lookup_lt_Some).
      specialize (Hhi (r + i)%nat (conj (Nat.le_add_r r i) Hlt)). simpl in Hhi.
      apply Z.ltb_lt in Hhi.
      by rewrite (nth_lookup_Some _ _ _ _ Hp) in Hhi.
Qed.

Lemma StronglySorted_insert (l1 l2 : list Z) (x : Z) :
  StronglySorted Z.le (l1 ++ l2) ->
  Forall (fun y => y <= x) l1 ->
  Forall (fun y => x < y) l2 ->
  StronglySorted Z.le (l1 ++ x :: l2).
Proof.
  induction l1 as [|y l1 IH]; simpl; intros Hs H1 H2.
  - constructor; [done|]. eapply Forall_impl; [exact H2|]. intros; simpl in *; lia.
  - apply StronglySorted_inv in Hs as [Hs Hall].
    apply Forall_cons in H1 as [Hy H1].
    constructor; [by apply IH|].
    apply Forall_app in Hall as [Ha Hb].
    apply Forall_app. split; [done|]. constructor; [done|done].
Qed.

(** ** Insertion into a sorted queue *)

Lemma setExpirer_pos_index (e : ptr) (d : Duration) (w : world) :
  0 < d ->
  let w1 := setExpiration e (time (inner w) + d) w in
  waiters (inner (setExpirer e d w)) =
    slices_Insert (waiters (inner w))
      (sort_Search (length (waiters (inner w)))
         (fun i => expiration w1 e <? expiration w1 (nth i (waiters (inner w)) 0%nat)))
      e.
Proof.
  intros Hd. unfold setExpirer. rewrite (proj2 (Z.leb_gt d 0) Hd).
  rewrite notify_blockers_waiters. simpl. by rewrite setExpiration_inner.
Qed.

Lemma map_expiration_others (w w' : world) (e : ptr) (l : list ptr) :
  (forall p, p <> e -> expiration w' p = expiration w p) ->
  ~ In e l ->
  map (expiration w') l = map (expiration w) l.
Proof.
  intros Hoth Hnin. apply map_ext_in. intros p Hp. apply Hoth.
  intros ->. done.
Qed.

(** An expirer that is not in the sorted queue is inserted behind every
    entry with an equal or earlier instant and before every later one, and
    the queue stays sorted. *)
Lemma setExpirer_sorted_insert (e : ptr) (d : Duration) (w : world) :
  0 < d ->
  ~ In e (waiters (inner w)) ->
  StronglySorted Z.le (instants w) ->
  exists l1 l2,
    waiters (inner w) = l1 ++ l2 /\
    waiters (inner (setExpirer e d w)) = l1 ++ e :: l2 /\
    Forall (fun p => expiration w p <= time (inner w) + d) l1 /\
    Forall (fun p => time (inner w) + d < expiration w p) l2 /\
    StronglySorted Z.le (instants (setExpirer e d w)).
Proof.
  intros Hd Hnin Hs.
  set (t := time (inner w) + d).
  set (w1 := setExpiration e t w).
  set (ws := waiters (inner w)) in *.
  assert (He1 : expiration w1 e = t).
  { unfold w1. rewrite setExpiration_expiration. by rewrite decide_True. }
  assert (Ho1 : forall p, p <> e -> expiration w1 p = expiration w p).
  { intros p Hp. unfold w1. rewrite setExpiration_expiration.
    by rewrite decide_False. }
  assert (Hs1 : StronglySorted Z.le (map (expiration w1) ws)).
  { by rewrite (map_expiration_others w w1 e ws Ho1 Hnin). }
  pose proof (sort_Search_partition (expiration w1) ws (expiration w1 e) Hs1)
    as [Hle Hgt].
  pose proof (setExpirer_pos_index e d w Hd) as Hq. fold t w1 ws in Hq.
  set (idx := sort_Search (length ws)
                (fun i => expiration w1 e <? expiration w1 (nth i ws 0%nat))) in *.
  assert (Hn1 : ~ In e (take idx ws)).
  { intros Hin. apply Hnin. rewrite <- (take_drop idx ws). apply in_or_app. by left. }
  assert (Hn2 : ~ In e (drop idx ws)).
  { intros Hin. apply Hnin. rewrite <- (take_drop idx ws). apply in_or_app. by right. }
  assert (Hl1 : Forall (fun p => expiration w p <= t) (take idx ws)).
  { apply List.Forall_forall. intros p Hp.
    apply (proj1 (List.Forall_forall _ _) Hle) in Hp as Hle'. simpl in Hle'.
    rewrite He1 in Hle'. rewrite Ho1 in Hle'; [done|]. by intros ->. }
  assert (Hl2 : Forall (fun p => t < expiration w p) (drop idx ws)).
  { apply List.Forall_forall. intros p Hp.
    apply (proj1 (List.Forall_forall _ _) Hgt) in Hp as Hgt'. simpl in Hgt'.
    rewrite He1 in Hgt'. rewrite Ho1 in Hgt'; [done|]. by intros ->. }
  exists (take idx ws), (drop idx ws).
  split; [by rewrite take_drop|]. split; [exact Hq|].
  split; [exact Hl1|]. split; [exact Hl2|].
  unfold instants. rewrite Hq. unfold slices_Insert.
  assert (Hexp : forall p, expiration (setExpirer e d w) p =
                   if decide (p = e) then t else expiration w p)
    by (intros p; by apply setExpirer_pos_expiration).
  rewrite map_app. simpl.
  rewrite (map_expiration_others w _ e (take idx ws)), (map_expiration_others w _ e (drop idx ws));
    try done.
  2,3: intros p Hp; rewrite Hexp; by rewrite decide_False.
  rewrite Hexp, decide_True by done.
  apply StronglySorted_insert.
  - rewrite <- map_app, take_drop. exact Hs.
  - apply List.Forall_map. exact Hl1.
  - apply List.Forall_map. exact Hl2.
Qed.

(** ** Objects stay allocated *)

Lemma allocated_insert (w : world) (h : gmap ptr expirer) (e p : ptr) (x : expirer) :
  is_Some (h !! p) -> allocated (with_heap (<[e := x]> h) w) p.
Proof.
  intros Hp. unfold allocated. simpl. destruct (decide (e = p)) as [->|Hne].
  - rewrite lookup_insert_eq. by eexists.
  - by rewrite lookup_insert_ne.
Qed.

Lemma expire_allocated (e : ptr) (now : instant) (w : world) (p : ptr) :
  allocated w p -> allocated (snd (expire e now w)) p.
Proof.
  intros Hp. unfold expire.
  destruct (deref _ e) as [o|o]; [destruct (tm_afterFunc o)|]; simpl; try done.
  all: by apply allocated_insert.
Qed.

Lemma setExpiration_allocated (e : ptr) (t : instant) (w : world) (p : ptr) :
  allocated w p \/ p = e -> allocated (setExpiration e t w) p.
Proof.
  intros Hp. unfold setExpiration.
  destruct (deref w e) as [o|o]; destruct Hp as [Hp| ->].
  1,3: by apply allocated_insert.
  all: unfold allocated; simpl; rewrite lookup_insert_eq; by eexists.
Qed.

Lemma setExpirer_allocated (e : ptr) (d : Duration) (w : world) (p : ptr) :
  allocated w p \/ (0 < d /\ p = e) -> allocated (setExpirer e d w) p.
Proof.
  intros Hp. unfold setExpirer. destruct (d <=? 0) eqn:Hd.
  - apply expire_allocated. destruct Hp as [Hp|[Hpos _]]; [done|].
    apply Z.leb_le in Hd. lia.
  - change (allocated (setExpiration e (time (inner w) + d) w) p).
    apply setExpiration_allocated. destruct Hp as [Hp|[_ ->]]; [by left|by right].
Qed.

(** ** The queue invariant under the queue operations *)

Lemma StronglySorted_app_inv (l1 l2 : list Z) :
  StronglySorted Z.le (l1 ++ l2) ->
  StronglySorted Z.le l1 /\ StronglySorted Z.le l2.
Proof.
  induction l1 as [|x l1 IH]; simpl; intros Hs.
  - split; [constructor|done].
  - apply StronglySorted_inv in Hs as [Hs Hall]. destruct (IH Hs) as [H1 H2].
    split; [|done]. constructor; [done|]. by apply Forall_app in Hall as [? _].
Qed.

Lemma StronglySorted_remove (l1 l2 : list Z) (x : Z) :
  StronglySorted Z.le (l1 ++ x :: l2) -> StronglySorted Z.le (l1 ++ l2).
Proof.
  induction l1 as [|y l1 IH]; simpl; intros Hs.
  - by apply StronglySorted_inv in Hs as [Hs _].
  - apply StronglySorted_inv in Hs as [Hs Hall].
    constructor; [by apply IH|].
    apply Forall_app in Hall as [Ha Hb]. apply Forall_cons in Hb as [_ Hb].
    apply Forall_app. by split.
Qed.

Lemma queue_ok_expire (e : ptr) (now : instant) (w : world) :
  queue_ok w -> queue_ok (snd (expire e now w)).
Proof.
  intros (Hnd & Hs & Ha). unfold queue_ok, instants. rewrite expire_inner.
  split; [done|]. split.
  - erewrite map_ext; [exact Hs|]. intros p. by rewrite expire_expiration.
  - eapply Forall_impl; [exact Ha|]. intros p. apply expire_allocated.
Qed.

Lemma queue_ok_setExpirer (e : ptr) (d : Duration) (w : world) :
  (0 < d -> ~ In e (waiters (inner w))) ->
  queue_ok w -> queue_ok (setExpirer e d w).
Proof.
  intros Hnin Hok. destruct (Z_le_gt_dec d 0) as [Hle|Hgt].
  - rewrite setExpirer_nonpos by done. by apply queue_ok_expire.
  - assert (Hd : 0 < d) by lia. specialize (Hnin Hd).
    destruct Hok as (Hnd & Hs & Ha).
    destruct (setExpirer_sorted_insert e d w Hd Hnin Hs)
      as (l1 & l2 & Hq & Hq' & _ & _ & Hs').
    split; [|split; [exact Hs'|]].
    + rewrite Hq'. rewrite Hq in Hnd, Hnin.
      rewrite <- Permutation_middle.
      apply NoDup_cons. split; [|done]. by intros Hin%list_elem_of_In.
    + rewrite Hq'. rewrite Hq in Ha. apply Forall_app in Ha as [Ha1 Ha2].
      apply Forall_app. split; [|constructor].
      * eapply Forall_impl; [exact Ha1|]. intros p Hp.
        apply setExpirer_allocated. by left.
      * apply setExpirer_allocated. by right.
      * eapply Forall_impl; [exact Ha2|]. intros p Hp.
        apply setExpirer_allocated. by left.
Qed.

Lemma queue_ok_stopExpirer (e : ptr) (w : world) :
  queue_ok w ->
  queue_ok (snd (stopExpirer e w)) /\ ~ In e (waiters (inner (snd (stopExpirer e w)))).
Proof.
  intros (Hnd & Hs & Ha).
  destruct (stopExpirer_spec e w) as [[Hnin ->]|(l1 & l2 & Hq & Hnin & ->)]; simpl.
  - by repeat split.
  - unfold instants in Hs. rewrite Hq in Hnd, Hs, Ha.
    apply NoDup_app in Hnd as (Hn1 & Hdisj & Hn2).
    apply NoDup_cons in Hn2 as [Hn2 Hn3].
    apply Forall_app in Ha as [Ha1 Ha2]. apply Forall_cons in Ha2 as [_ Ha2].
    split; [split; [|split]|].
    + apply NoDup_app. split; [done|]. split; [|done].
      intros x Hx Hx2. apply (Hdisj x Hx). by right.
    + unfold instants. simpl. rewrite map_app in *. simpl in Hs.
      by apply StronglySorted_remove in Hs.
    + apply Forall_app. by split.
    + intros [Hin|Hin]%in_app_or; [done|]. by apply Hn2, list_elem_of_In.
Qed.

(** ** One iteration of [Advance] on a well-formed queue *)

Lemma advance_step_time (e : ptr) (rest : list ptr) (w : world) :
  time (inner (advance_step e rest w)) = expiration w e.
Proof.
  rewrite advance_step_expire.
  destruct (fst (expire _ _ _)) as [d|].
  - rewrite setExpirer_time. by rewrite expire_inner.
  - by rewrite expire_inner.
Qed.

(** What one iteration logs: the head fires at its own instant; a ticker
    whose period is not positive is fired a second time by [setExpirer]. *)
Lemma advance_step_fired (e : ptr) (rest : list ptr) (w : world) :
  exists extra,
    fired (advance_step e rest w) = fired w ++ (e, expiration w e) :: extra /\
    Forall (fun x => x = (e, expiration w e)) extra.
Proof.
  rewrite advance_step_expire.
  set (w2 := set_time (expiration w e) (set_waiters rest w)).
  destruct (fst (expire e (expiration w e) w2)) as [d|].
  - destruct (Z_le_gt_dec d 0) as [Hle|Hgt].
    + rewrite setExpirer_nonpos by done. rewrite !expire_fired, expire_inner.
      exists [(e, expiration w e)]. split; [by rewrite <- app_assoc|].
      by repeat constructor.
    + exists []. split; [|constructor].
      unfold setExpirer. rewrite (proj2 (Z.leb_gt d 0)) by lia.
      change (fired (setExpiration e (time (inner (snd (expire e (expiration w e) w2))) + d)
                       (snd (expire e (expiration w e) w2)))
              = fired w ++ [(e, expiration w e)]).
      unfold setExpiration. destruct (deref _ e); simpl; by rewrite expire_fired.
  - exists []. split; [|constructor]. by rewrite expire_fired.
Qed.

(** The queue after one iteration: the rest, with the head inserted again
    somewhere if it asked for it. *)
Lemma advance_step_waiters (e : ptr) (rest : list ptr) (w : world) :
  waiters (inner (advance_step e rest w)) = rest \/
  exists idx d, 0 < d /\
    waiters (inner (advance_step e rest w)) = slices_Insert rest idx e /\
    expiration (advance_step e rest w) e = expiration w e + d.
Proof.
  rewrite advance_step_expire.
  set (w2 := set_time (expiration w e) (set_waiters rest w)).
  set (w3 := snd (expire e (expiration w e) w2)).
  assert (Hw3 : waiters (inner w3) = rest) by (unfold w3; by rewrite expire_inner).
  destruct (fst (expire e (expiration w e) w2)) as [d|]; [|by left].
  destruct (Z_le_gt_dec d 0) as [Hle|Hgt].
  - left. rewrite setExpirer_nonpos by done. by rewrite expire_inner.
  - right. assert (Hd : 0 < d) by lia.
    destruct (setExpirer_pos_waiters e d w3 Hd) as (idx & _ & Hq).
    exists idx, d. split; [done|]. rewrite Hq, Hw3. split; [done|].
    rewrite setExpirer_pos_expiration by done. rewrite decide_True by done.
    unfold w3. by rewrite expire_inner.
Qed.

Lemma advance_step_expiration (e : ptr) (rest : list ptr) (w : world) (p : ptr) :
  p <> e -> expiration (advance_step e rest w) p = expiration w p.
Proof.
  intros Hne. rewrite advance_step_expire.
  set (w2 := set_time (expiration w e) (set_waiters rest w)).
  destruct (fst (expire e (expiration w e) w2)) as [d|].
  - destruct (Z_le_gt_dec d 0) as [Hle|Hgt].
    + rewrite setExpirer_nonpos by done. by rewrite !expire_expiration.
    + rewrite setExpirer_pos_expiration by lia. rewrite decide_False by done.
      by rewrite expire_expiration.
  - by rewrite expire_expiration.
Qed.

Lemma in_slices_Insert (s : list ptr) (idx : nat) (e p : ptr) :
  In p (slices_Insert s idx e) <-> p = e \/ In p s.
Proof.
  unfold slices_Insert. rewrite in_app_iff. simpl.
  rewrite <- (take_drop idx s) at 3. rewrite in_app_iff. intuition congruence.
Qed.

Lemma filter_slices_Insert (f : ptr -> bool) (s : list ptr) (idx : nat) (e : ptr) :
  f e = false ->
  List.filter f (slices_Insert s idx e) = List.filter f s.
Proof.
  intros He. unfold slices_Insert. rewrite <- (take_drop idx s) at 3.
  rewrite !List.filter_app. simpl. by rewrite He.
Qed.

Lemma queue_ok_advance_step (e : ptr) (rest : list ptr) (w : world) :
  waiters (inner w) = e :: rest ->
  queue_ok w ->
  queue_ok (advance_step e rest w) /\
  Forall (fun p => expiration w e <= expiration (advance_step e rest w) p)
         (waiters (inner (advance_step e rest w))).
Proof.
  intros Hq (Hnd & Hs & Ha). unfold instants in Hs. rewrite Hq in Hnd, Hs, Ha.
  apply NoDup_cons in Hnd as [Hnin Hnd]. simpl in Hs.
  apply StronglySorted_inv in Hs as [Hs Hall].
  apply Forall_cons in Ha as [Hae Ha].
  assert (Hnin' : ~ In e rest) by (by intros ?%list_elem_of_In).
  set (w2 := set_time (expiration w e) (set_waiters rest w)).
  assert (Hok2 : queue_ok w2) by (by repeat split).
  assert (Hok3 : queue_ok (snd (expire e (expiration w e) w2)))
    by (by apply queue_ok_expire).
  assert (Hok4 : queue_ok (advance_step e rest w)).
  { rewrite advance_step_expire. fold w2.
    destruct (fst (expire e (expiration w e) w2)) as [d|]; [|done].
    apply queue_ok_setExpirer; [|done]. intros _. by rewrite expire_inner. }
  split; [exact Hok4|].
  apply List.Forall_forall. intros p Hp.
  destruct (decide (p = e)) as [->|Hne].
  - destruct (advance_step_waiters e rest w) as [Hr|(idx & d & Hd & _ & He)].
    + rewrite Hr in Hp. done.
    + lia.
  - rewrite advance_step_expiration by done.
    assert (Hin : In p rest).
    { destruct (advance_step_waiters e rest w) as [Hr|(idx & d & _ & Hr & _)];
        rewrite Hr in Hp; [done|].
      apply in_slices_Insert in Hp as [?|?]; done. }
    apply (proj1 (List.Forall_forall _ _) Hall). by apply in_map.
Qed.

(** ** The whole loop on a well-formed queue *)

(** Induction along the iterations of the loop. *)
Lemma advance_loop_induction (end_ : instant) (P : world -> world -> Prop) :
  (forall w, loop_done end_ w -> P w w) ->
  (forall w e rest w',
      waiters (inner w) = e :: rest -> expiration w e <= end_ ->
      (exists fuel, advance_loop fuel end_ (advance_step e rest w) = Some w') ->
      P (advance_step e rest w) w' -> P w w') ->
  forall fuel w w', advance_loop fuel end_ w = Some w' -> P w w'.
Proof.
  intros Hbase Hstep. induction fuel as [|fuel IH]; intros w w'; simpl.
  - destruct (waiters (inner w)) as [|e rest] eqn:Hq.
    + intros [= <-]. apply Hbase. unfold loop_done. by rewrite Hq.
    + destruct (expiration w e <=? end_) eqn:Hdue; [done|].
      intros [= <-]. apply Hbase. unfold loop_done. rewrite Hq. by apply Z.leb_gt.
  - destruct (waiters (inner w)) as [|e rest] eqn:Hq.
    + intros [= <-]. apply Hbase. unfold loop_done. by rewrite Hq.
    + destruct (expiration w e <=? end_) eqn:Hdue.
      * intros Hrun. apply (Hstep w e rest w' Hq); [by apply Z.leb_le| |].
        -- by exists fuel.
        -- by apply IH.
      * intros [= <-]. apply Hbase. unfold loop_done. rewrite Hq. by apply Z.leb_gt.
Qed.

(** When the loop has stopped on a sorted queue, nothing queued is due. *)
Lemma loop_done_none_due (end_ : instant) (w : world) :
  loop_done end_ w -> queue_ok w ->
  Forall (fun p => end_ < expiration w p) (waiters (inner w)).
Proof.
  unfold loop_done. intros Hdone (_ & Hs & _). unfold instants in Hs.
  destruct (waiters (inner w)) as [|e rest]; [constructor|]. simpl in Hs.
  apply StronglySorted_inv in Hs as [_ Hall]. constructor; [done|].
  apply List.Forall_forall. intros p Hp.
  assert (expiration w e <= expiration w p); [|lia].
  apply (proj1 (List.Forall_forall _ _) Hall). by apply in_map.
Qed.

Lemma sorted_after_repeats (x : ptr * instant) (extra evs : list (ptr * instant)) :
  Forall (fun y => y = x) extra ->
  Forall (fun y => snd x <= snd y) evs ->
  StronglySorted Z.le (map snd evs) ->
  StronglySorted Z.le (map snd (x :: extra ++ evs)).
Proof.
  intros Hex Hlo Hs.
  assert (Hall : Forall (fun y => snd x <= snd y) (extra ++ evs)).
  { apply Forall_app. split; [|done]. eapply Forall_impl; [exact Hex|].
    intros y ->. apply Z.le_refl. }
  simpl. constructor; [|by apply List.Forall_map].
  clear Hall. induction Hex as [|y extra -> Hex IH]; simpl; [done|].
  constructor; [done|]. apply List.Forall_map. apply Forall_app. split; [|done].
  eapply Forall_impl; [exact Hex|]. intros y ->. apply Z.le_refl.
Qed.

Lemma filter_pair_in (f : ptr -> bool) (l : list ptr) (a b : ptr) :
  List.filter f l = [a; b] -> In a l /\ In b l.
Proof.
  intros Hf.
  assert (Ha : In a (List.filter f l)) by (rewrite Hf; by left).
  assert (Hb : In b (List.filter f l)) by (rewrite Hf; right; by left).
  apply filter_In in Ha as [Ha _]. apply filter_In in Hb as [Hb _]. done.
Qed.

Lemma filter_single_in (f : ptr -> bool) (l : list ptr) (b : ptr) :
  List.filter f l = [b] -> In b l.
Proof.
  intros Hf. assert (Hb : In b (List.filter f l)) by (rewrite Hf; by left).
  by apply filter_In in Hb as [Hb _].
Qed.

(** The firings of one run of the loop on a well-formed queue. *)
Lemma advance_loop_firings (fuel : nat) (end_ : instant) (w w' : world) :
  advance_loop fuel end_ w = Some w' ->
  queue_ok w ->
  loop_firings end_ w w'.
Proof.
  revert fuel w w'.
  apply (advance_loop_induction end_ (fun w w' => queue_ok w -> loop_firings end_ w w')).
  - intros w Hdone Hok. exists []. rewrite app_nil_r.
    pose proof (loop_done_none_due end_ w Hdone Hok) as Hnone.
    rewrite List.Forall_forall in Hnone.
    split; [done|]. split; [done|]. split; [constructor|]. split; [constructor|].
    split; [intros; constructor|]. split.
    + intros p Hp Hdue. specialize (Hnone p Hp). simpl in Hnone. lia.
    + intros a b Hab _ Hdue. exfalso.
      destruct (filter_pair_in _ _ _ _ Hab) as [Hin _].
      specialize (Hnone a Hin). simpl in Hnone. lia.
  - intros w e rest w' Hq Hdue _ IH Hok.
    destruct (queue_ok_advance_step e rest w Hq Hok) as [Hok4 Hlb].
    destruct (IH Hok4) as (evs' & Hlog & Hok' & Hle & Hs & Hlo & Hfire & Htie).
    destruct (advance_step_fired e rest w) as (extra & Hlog4 & Hextra).
    set (w4 := advance_step e rest w) in *.
    assert (Hnin : ~ In e rest).
    { destruct Hok as (Hnd & _). rewrite Hq in Hnd.
      apply NoDup_cons in Hnd as [Hnin _]. by intros ?%list_elem_of_In. }
    assert (Hsub : forall p, In p rest -> In p (waiters (inner w4))).
    { intros p Hp.
      destruct (advance_step_waiters e rest w) as [Hr|(idx & d & _ & Hr & _)];
        fold w4 in Hr; rewrite Hr; [done|]. apply in_slices_Insert. by right. }
    assert (Hsame : forall p, In p rest -> expiration w4 p = expiration w p).
    { intros p Hp. apply advance_step_expiration. by intros ->. }
    exists ((e, expiration w e) :: extra ++ evs').
    split; [rewrite Hlog, Hlog4, <- app_assoc; done|].
    split; [done|]. split; [|split; [|split; [|split]]].
    + constructor; [done|]. apply Forall_app. split; [|done].
      eapply Forall_impl; [exact Hextra|]. by intros y ->.
    + apply sorted_after_repeats; [done| |done]. by apply Hlo.
    + intros lo Hall. rewrite Hq in Hall. apply Forall_cons in Hall as [He Hall].
      constructor; [done|]. apply Forall_app. split.
      * eapply Forall_impl; [exact Hextra|]. by intros y ->.
      * eapply Forall_impl; [apply (Hlo _ Hlb)|]. intros y Hy. simpl in *. lia.
    + intros p Hp Hpdue. rewrite Hq in Hp. destruct Hp as [->|Hp]; [by left|].
      right. apply in_or_app. right. rewrite <- (Hsame p Hp).
      apply Hfire; [by apply Hsub|]. by rewrite Hsame.
    + intros a b Hab Heq Hadue. unfold queued_before in Hab. rewrite Hq in Hab.
      simpl in Hab.
      destruct (Nat.eqb_spec e a) as [->|Hea]; simpl in Hab.
      * injection Hab as Hb.
        assert (Hbin : In b rest) by (by apply filter_single_in in Hb).
        exists [], (extra ++ evs'). split; [done|]. split; [constructor|].
        apply in_or_app. right. rewrite <- (Hsame b Hbin).
        apply Hfire; [by apply Hsub|]. rewrite Hsame by done. lia.
      * destruct (Nat.eqb_spec e b) as [->|Heb]; simpl in Hab.
        { injection Hab as Hba _. done. }
        assert (Hab4 : queued_before a b w4).
        { unfold queued_before.
          destruct (advance_step_waiters e rest w) as [Hr|(idx & d & _ & Hr & _)];
            fold w4 in Hr; rewrite Hr; [done|].
          rewrite filter_slices_Insert; [done|].
          apply orb_false_iff. split; by apply Nat.eqb_neq. }
        destruct (filter_pair_in _ _ _ _ Hab) as [Hain Hbin].
        destruct (Htie a b Hab4) as (evs1 & evs2 & Hev & Hnb & Hb2).
        { by rewrite !Hsame. }
        { by rewrite Hsame. }
        rewrite !Hsame in Hev, Hb2 by done.
        exists ((e, expiration w e) :: extra ++ evs1), evs2.
        split; [rewrite Hev; simpl; by rewrite <- app_assoc|]. split; [|done].
        constructor; [done|]. apply Forall_app. split; [|done].
        eapply Forall_impl; [exact Hextra|]. by intros y ->.
Qed.

Lemma advance_loop_regular (fuel : nat) (end_ : instant) (w w' : world) :
  advance_loop fuel end_ w = Some w' ->
  queue_ok w ->
  regular (set_time end_ w').
Proof.
  intros Hloop Hok.
  destruct (advance_loop_firings _ _ _ _ Hloop Hok) as (evs & _ & Hok1 & _).
  split; [exact Hok1|].
  exact (loop_done_none_due _ _ (advance_loop_done _ _ _ _ Hloop) Hok1).
Qed.

(** On a well-formed queue [Advance] fires what is due, in order, and
    leaves a well-formed queue whose instants are all after the new time. *)
Lemma Advance_on_ok_queue (d : Duration) (w : world) :
  queue_ok w ->
  exists w1,
    Advance d w = Returns tt (set_time (time (inner w) + d) w1) /\
    loop_firings (time (inner w) + d) w w1 /\
    regular (set_time (time (inner w) + d) w1).
Proof.
  intros Hok. destruct (Advance_returns d w) as (w1 & Hloop & Hadv).
  exists w1. split; [exact Hadv|].
  pose proof (advance_loop_firings _ _ _ _ Hloop Hok) as Hfir.
  split; [exact Hfir|].
  destruct Hfir as (evs & _ & Hok1 & _).
  split; [exact Hok1|].
  exact (loop_done_none_due _ _ (advance_loop_done _ _ _ _ Hloop) Hok1).
Qed.

(** ** Expirers that are not due do not fire *)

Lemma advance_step_deref (e : ptr) (rest : list ptr) (w : world) (p : ptr) :
  p <> e -> deref (advance_step e rest w) p = deref w p.
Proof.
  intros Hne. rewrite advance_step_expire.
  set (w2 := set_time (expiration w e) (set_waiters rest w)).
  assert (Hex : forall now w0, deref (snd (expire e now w0)) p = deref w0 p).
  { intros now w0. unfold expire.
    replace (deref (log_fired e now w0)) with (deref w0) by reflexivity.
    destruct (deref w0 e) as [o|o]; [destruct (tm_afterFunc o)|]; simpl; try done.
    all: by rewrite deref_with_heap_ne. }
  assert (Hset : forall t w0, deref (setExpiration e t w0) p = deref w0 p).
  { intros t w0. unfold setExpiration.
    destruct (deref w0 e); by rewrite deref_with_heap_ne. }
  destruct (fst (expire e (expiration w e) w2)) as [d|]; [|by rewrite Hex].
  unfold setExpirer. destruct (d <=? 0); [by rewrite !Hex|].
  change (deref (setExpiration e (time (inner (snd (expire e (expiration w e) w2))) + d)
                   (snd (expire e (expiration w e) w2))) p = deref w p).
  by rewrite Hset, Hex.
Qed.

Lemma advance_loop_skips (fuel : nat) (end_ : instant) (p : ptr) (w w' : world) :
  advance_loop fuel end_ w = Some w' ->
  (In p (waiters (inner w)) -> end_ < expiration w p) ->
  loop_skips end_ p w w'.
Proof.
  revert fuel w w'.
  apply (advance_loop_induction end_
           (fun w w' => (In p (waiters (inner w)) -> end_ < expiration w p) ->
                        loop_skips end_ p w w')).
  - intros w _ _. exists []. rewrite app_nil_r. repeat split; done || constructor.
  - intros w e rest w' Hq Hdue _ IH Hlate.
    assert (Hne : p <> e).
    { intros ->. rewrite Hq in Hlate. specialize (Hlate (or_introl eq_refl)). lia. }
    assert (Hin4 : In p (waiters (inner (advance_step e rest w))) <-> In p rest).
    { destruct (advance_step_waiters e rest w) as [Hr|(idx & d & _ & Hr & _)];
        rewrite Hr; [done|]. rewrite in_slices_Insert. intuition congruence. }
    destruct IH as (evs & Hlog & Hnp & Hderef & Hin).
    { intros Hp. rewrite advance_step_expiration by done. apply Hlate.
      rewrite Hq. right. by apply Hin4. }
    destruct (advance_step_fired e rest w) as (extra & Hlog4 & Hextra).
    exists ((e, expiration w e) :: extra ++ evs).
    split; [rewrite Hlog, Hlog4, <- app_assoc; done|]. split; [|split].
    + constructor; [simpl; congruence|]. apply Forall_app. split; [|done].
      eapply Forall_impl; [exact Hextra|]. intros y ->. simpl. congruence.
    + by rewrite Hderef, advance_step_deref.
    + rewrite Hin, Hin4, Hq. simpl. intuition congruence.
Qed.

(** ** Operations that keep the queue well formed *)

Lemma regular_frame (w w' : world) :
  inner w' = inner w ->
  (forall p, In p (waiters (inner w)) ->
     expiration w' p = expiration w p /\ allocated w' p) ->
  regular w -> regular w'.
Proof.
  intros Hi Hfr [(Hnd & Hs & Ha) Hfut].
  assert (Hmap : map (expiration w') (waiters (inner w)) =
                 map (expiration w) (waiters (inner w))).
  { apply map_ext_in. intros p Hp. by apply Hfr. }
  unfold regular, queue_ok, queue_future, instants. rewrite Hi, Hmap.
  repeat split; try done.
  - apply List.Forall_forall. intros p Hp. by apply Hfr.
  - apply List.Forall_forall. intros p Hp.
    apply (proj1 (List.Forall_forall _ _) Hfut) in Hp as Hlt. simpl in Hlt.
    by rewrite (proj1 (Hfr p Hp)).
Qed.

(** A new object does not disturb the queue, and is not in it. *)
Lemma regular_alloc (w : world) (x : expirer) :
  regular w ->
  let p := fresh (dom (heap w)) in
  regular (with_heap (<[p := x]> (heap w)) w) /\
  ~ In p (waiters (inner w)).
Proof.
  intros Hreg p.
  assert (Hnin : ~ In p (waiters (inner w))).
  { intros Hin. destruct Hreg as [(_ & _ & Ha) _].
    apply (proj1 (List.Forall_forall _ _) Ha) in Hin as [y Hy].
    pose proof (fresh_unallocated w) as Hf. fold p in Hf. congruence. }
  split; [|exact Hnin].
  apply (regular_frame w); [done| |done].
  intros q Hq. assert (Hne : p <> q) by (intros ->; done). split.
  - unfold expiration. by rewrite deref_with_heap_ne.
  - apply allocated_insert. destruct Hreg as [(_ & _ & Ha) _].
    by apply (proj1 (List.Forall_forall _ _) Ha).
Qed.

Lemma queue_future_setExpirer (e : ptr) (d : Duration) (w : world) :
  queue_future w -> queue_future (setExpirer e d w).
Proof.
  intros Hfut. unfold queue_future. rewrite setExpirer_time.
  destruct (Z_le_gt_dec d 0) as [Hle|Hgt].
  - rewrite setExpirer_nonpos by done. rewrite expire_inner.
    eapply Forall_impl; [exact Hfut|]. intros p Hp. simpl.
    by rewrite expire_expiration.
  - assert (Hd : 0 < d) by lia.
    destruct (setExpirer_pos_waiters e d w Hd) as (idx & _ & ->).
    apply List.Forall_forall. intros p Hp.
    rewrite setExpirer_pos_expiration by done.
    destruct (decide (p = e)) as [->|Hne]; [lia|].
    apply in_slices_Insert in Hp as [?|Hp]; [done|].
    by apply (proj1 (List.Forall_forall _ _) Hfut) in Hp.
Qed.

Lemma regular_setExpirer (e : ptr) (d : Duration) (w : world) :
  (0 < d -> ~ In e (waiters (inner w))) ->
  regular w -> regular (setExpirer e d w).
Proof.
  intros Hnin [Hok Hfut]. split; [by apply queue_ok_setExpirer|].
  by apply queue_future_setExpirer.
Qed.

Lemma regular_stopExpirer (e : ptr) (w : world) :
  regular w ->
  regular (snd (stopExpirer e w)) /\
  ~ In e (waiters (inner (snd (stopExpirer e w)))).
Proof.
  intros [Hok Hfut]. destruct (queue_ok_stopExpirer e w Hok) as [Hok' Hnin].
  split; [split; [done|]|done].
  destruct (stopExpirer_spec e w) as [[_ ->]|(l1 & l2 & Hq & _ & ->)]; [done|].
  unfold queue_future in *. simpl. rewrite Hq in Hfut.
  apply Forall_app in Hfut as [H1 H2]. apply Forall_cons in H2 as [_ H2].
  apply Forall_app. by split.
Qed.

Lemma regular_set_d (f : ptr) (d : Duration) (w : world) :
  regular w -> regular (set_d f d w).
Proof.
  intros Hreg. destruct (set_d_kept f d w) as [_ Hi].
  apply (regular_frame w); [done| |done].
  intros p Hp. destruct Hreg as [(_ & _ & Ha) _].
  apply (proj1 (List.Forall_forall _ _) Ha) in Hp as Hal.
  unfold set_d. destruct (deref w f) as [o|o] eqn:Hf; [done|].
  split; [|by apply allocated_insert].
  unfold expiration. destruct (decide (f = p)) as [->|Hne].
  - by rewrite deref_with_heap_eq, Hf.
  - by rewrite deref_with_heap_ne.
Qed.

Lemma regular_drain (e : ptr) (w w' : world) :
  exec (drain e) w = Some w' -> regular w -> regular w'.
Proof.
  intros Hrun Hreg. destruct (drain_kept e w w' Hrun) as [_ Hi].
  apply (regular_frame w); [done| |done].
  intros p Hp. destruct Hreg as [(_ & _ & Ha) _].
  apply (proj1 (List.Forall_forall _ _) Ha) in Hp as Hal.
  unfold exec, drain in Hrun.
  destruct (deref w e) as [o|o] eqn:He; injection Hrun as <-.
  all: split; [|by apply allocated_insert].
  all: unfold expiration; destruct (decide (e = p)) as [->|Hne];
    [by rewrite deref_with_heap_eq, He|by rewrite deref_with_heap_ne].
Qed.

(** Every operation except the reset of a pending ticker keeps the queue
    duplicate-free, sorted, and strictly in the future. *)
Lemma op_regular (o : op) (w w' : world) :
  regular w ->
  no_pending_ticker_reset o w ->
  run_op o w = Some w' ->
  regular w'.
Proof.
  intros Hreg Hclean. destruct o as [d|d f|d|f d|f|f d|f|d|n|e]; simpl.
  - unfold exec, NewTimer, newTimer, newFakeTimer. intros [= <-].
    destruct (regular_alloc w (Timer (mkFakeTimer None 0 None)) Hreg) as [Hr Hn].
    by apply regular_setExpirer.
  - unfold exec, AfterFunc, newTimer, newFakeTimer. intros [= <-].
    destruct (regular_alloc w (Timer (mkFakeTimer None 0 f)) Hreg) as [Hr Hn].
    by apply regular_setExpirer.
  - unfold exec, NewTicker, newFakeTicker. destruct (d <=? 0); [done|].
    intros [= <-].
    destruct (regular_alloc w (Ticker (mkFakeTicker None 0 d)) Hreg) as [Hr Hn].
    by apply regular_setExpirer.
  - unfold exec, fakeTimer_Reset.
    destruct (regular_stopExpirer f w Hreg) as [Hr Hn].
    destruct (stopExpirer f w) as [stopped w1]. intros [= <-].
    by apply regular_setExpirer.
  - unfold exec, fakeTimer_Stop, stop.
    destruct (regular_stopExpirer f w Hreg) as [Hr Hn].
    destruct (stopExpirer f w) as [stopped w1]. by intros [= <-].
  - unfold exec, fakeTicker_Reset. intros [= <-].
    apply regular_setExpirer; [|by apply regular_set_d].
    destruct (set_d_kept f d w) as [_ ->]. exact Hclean.
  - unfold exec, fakeTicker_Stop.
    destruct (regular_stopExpirer f w Hreg) as [Hr Hn].
    destruct (stopExpirer f w) as [stopped w1]. by intros [= <-].
  - unfold exec. destruct Hreg as [Hok _].
    destruct (Advance_on_ok_queue d w Hok) as (w1 & -> & _ & Hr).
    by intros [= <-].
  - unfold exec, newBlocker.
    destruct (Z.of_nat (length (waiters (inner w))) <? n); by intros [= <-].
  - intros Hrun. by apply (regular_drain e w).
Qed.

Lemma reachable_clean_regular (w : world) : reachable_clean w -> regular w.
Proof.
  induction 1 as [t|o w w' _ IH _ Hclean Hrun].
  - repeat split; constructor.
  - by apply (op_regular o w).
Qed.

(** With every queued instant after the current time, [Advance 0] fires
    nothing and changes nothing. *)
Lemma Advance_zero_idle (w : world) :
  queue_future w -> Advance 0 w = Returns tt w.
Proof.
  intros Hfut. unfold Advance.
  assert (Hloop : forall fuel, advance_loop fuel (time (inner w) + 0) w = Some w).
  { intros fuel. unfold queue_future in Hfut.
    destruct fuel; simpl; destruct (waiters (inner w)) as [|e rest]; try done.
    all: apply Forall_cons in Hfut as [He _].
    all: by rewrite (proj2 (Z.leb_gt _ _)) by lia. }
  rewrite Hloop. f_equal. rewrite Z.add_0_r.
  by destruct w as [[ws bs t] h c n s f].
Qed.

(** ** A ticker on a well-formed queue *)

Lemma advance_step_ticker (e : ptr) (rest : list ptr) (w : world) (o : fakeTicker) :
  deref w e = Ticker o -> 0 < tk_d o ->
  fired (advance_step e rest w) = fired w ++ [(e, tk_exp o)] /\
  deref (advance_step e rest w) e =
    Ticker (mkFakeTicker (try_send (tk_c o) (tk_exp o)) (tk_exp o + tk_d o) (tk_d o)) /\
  In e (waiters (inner (advance_step e rest w))).
Proof.
  intros He Hd.
  assert (Hexp : expiration w e = tk_exp o) by (unfold expiration; by rewrite He).
  rewrite advance_step_expire, Hexp.
  set (w2 := set_time (tk_exp o) (set_waiters rest w)).
  assert (He2 : deref w2 e = Ticker o) by done.
  destruct (expire_Ticker e (tk_exp o) w2 o He2) as (Hfst & _ & Hheap).
  rewrite Hfst.
  set (w3 := snd (expire e (tk_exp o) w2)) in *.
  assert (He3 : deref w3 e =
                Ticker (mkFakeTicker (try_send (tk_c o) (tk_exp o)) (tk_exp o) (tk_d o))).
  { unfold deref. by rewrite Hheap, lookup_total_insert_eq. }
  assert (Ht3 : time (inner w3) = tk_exp o) by (unfold w3; by rewrite expire_inner).
  assert (Hf3 : fired w3 = fired w ++ [(e, tk_exp o)])
    by (unfold w3; by rewrite expire_fired).
  split; [|split].
  - unfold setExpirer. rewrite (proj2 (Z.leb_gt _ 0) Hd).
    change (fired (setExpiration e (time (inner w3) + tk_d o) w3)
            = fired w ++ [(e, tk_exp o)]).
    unfold setExpiration. by rewrite He3.
  - unfold setExpirer. rewrite (proj2 (Z.leb_gt _ 0) Hd).
    change (deref (setExpiration e (time (inner w3) + tk_d o) w3) e = 
            Ticker (mkFakeTicker (try_send (tk_c o) (tk_exp o))
                      (tk_exp o + tk_d o) (tk_d o))).
    unfold setExpiration. rewrite He3. simpl.
    by rewrite deref_with_heap_eq, Ht3.
  - destruct (setExpirer_pos_waiters e (tk_d o) w3 Hd) as (idx & _ & ->).
    apply in_slices_Insert. by left.
Qed.

Lemma firings_of_none (T : ptr) (evs : list (ptr * instant)) :
  Forall (fun x => fst x <> T) evs -> firings_of T evs = [].
Proof.
  intros Hall. apply filter_none. eapply Forall_impl; [exact Hall|].
  intros x Hx. simpl in *. by apply Nat.eqb_neq.
Qed.

Lemma firings_of_cons (T : ptr) (x : ptr * instant) (l : list (ptr * instant)) :
  firings_of T (x :: l) =
    if Nat.eqb (fst x) T then x :: firings_of T l else firings_of T l.
Proof. reflexivity. Qed.

Lemma firings_of_app (T : ptr) (l1 l2 : list (ptr * instant)) :
  firings_of T (l1 ++ l2) = firings_of T l1 ++ firings_of T l2.
Proof. apply List.filter_app. Qed.

Lemma advance_loop_fires_once (fuel : nat) (end_ : instant) (T : ptr)
      (p : Duration) (w w' : world) :
  advance_loop fuel end_ w = Some w' ->
  queue_ok w ->
  In T (waiters (inner w)) ->
  (exists o, deref w T = Ticker o /\ tk_d o = p) ->
  expiration w T <= end_ < expiration w T + p ->
  fires_once end_ T p w w'.
Proof.
  revert fuel w w'.
  apply (advance_loop_induction end_
           (fun w w' => queue_ok w -> In T (waiters (inner w)) ->
                        (exists o, deref w T = Ticker o /\ tk_d o = p) ->
                        expiration w T <= end_ < expiration w T + p ->
                        fires_once end_ T p w w')).
  - intros w Hdone Hok Hin _ Hdue. exfalso.
    pose proof (loop_done_none_due end_ w Hdone Hok) as Hnone.
    apply (proj1 (List.Forall_forall _ _) Hnone) in Hin. simpl in Hin. lia.
  - intros w e rest w' Hq Hedue [fuel Hrun] IH Hok Hin (o & Ho & Hp) Hdue.
    destruct (decide (e = T)) as [->|Hne].
    + assert (Hd : 0 < tk_d o) by lia.
      assert (Hexp : expiration w T = tk_exp o) by (unfold expiration; by rewrite Ho).
      assert (Hch : chan w T = tk_c o) by (unfold chan; by rewrite Ho).
      destruct (advance_step_ticker T rest w o Ho Hd) as (Hf4 & Hd4 & Hin4).
      set (w4 := advance_step T rest w) in *.
      assert (Hexp4 : expiration w4 T = tk_exp o + tk_d o)
        by (unfold expiration; by rewrite Hd4).
      destruct (advance_loop_skips fuel end_ T w4 w' Hrun)
        as (evs & Hlog & Hnone & Hderef & Hiff).
      { intros _. lia. }
      exists ((T, tk_exp o) :: evs).
      split; [rewrite Hlog, Hf4, <- app_assoc; done|]. split; [|split].
      * rewrite firings_of_cons. simpl. rewrite Nat.eqb_refl.
        by rewrite firings_of_none, Hexp.
      * by apply Hiff.
      * by rewrite Hderef, Hd4, Hexp, Hch, Hp.
    + rewrite Hq in Hin. destruct Hin as [?|Hin]; [done|].
      destruct (queue_ok_advance_step e rest w Hq Hok) as [Hok4 _].
      assert (HT : T <> e) by congruence.
      destruct IH as (evs & Hlog & Hfir & Hin' & Ho'); try done.
      * destruct (advance_step_waiters e rest w) as [Hr|(idx & d & _ & Hr & _)];
          rewrite Hr; [done|]. apply in_slices_Insert. by right.
      * exists o. by rewrite advance_step_deref.
      * by rewrite advance_step_expiration.
      * destruct (advance_step_fired e rest w) as (extra & Hlog4 & Hextra).
        rewrite advance_step_expiration in Hfir, Ho' by done.
        unfold chan in Ho'. rewrite advance_step_deref in Ho' by done.
        exists ((e, expiration w e) :: extra ++ evs).
        split; [rewrite Hlog, Hlog4, <- app_assoc; done|]. split; [|done].
        rewrite firings_of_cons. simpl. rewrite (proj2 (Nat.eqb_neq e T)) by done.
        rewrite firings_of_app, Hfir, firings_of_none; [done|].
        eapply Forall_impl; [exact Hextra|]. by intros y ->.
Qed.

Lemma drain_ticker (T : ptr) (w : world) (o : fakeTicker) :
  deref w T = Ticker o ->
  exists w', drain T w = Returns (tk_c o) w' /\
    inner w' = inner w /\ fired w' = fired w /\
    deref w' T = Ticker (mkFakeTicker None (tk_exp o) (tk_d o)).
Proof.
  intros Ho. unfold drain, chan. rewrite Ho. eexists. split; [reflexivity|].
  repeat split. by rewrite deref_with_heap_eq.
Qed.

(** One round: the ticker fires once, at the instant the clock lands on,
    the tick is received, and the ticker is due again one period later. *)
Lemma tick_round (p : Duration) (T : ptr) (w : world) :
  0 < p -> regular w -> ticking T p w ->
  exists w',
    (_ <~ Advance p ;; drain T) w = Returns (Some (time (inner w) + p)) w' /\
    regular w' /\ ticking T p w' /\
    time (inner w') = time (inner w) + p /\
    firings_of T (fired w') = firings_of T (fired w) ++ [(T, time (inner w) + p)].
Proof.
  intros Hp [Hok Hfut] (Hin & Ho).
  assert (Hexp : expiration w T = time (inner w) + p)
    by (unfold expiration; by rewrite Ho).
  assert (Hch : chan w T = None) by (unfold chan; by rewrite Ho).
  destruct (Advance_returns p w) as (w1 & Hloop & Hadv).
  pose proof (advance_loop_regular _ _ _ _ Hloop Hok) as Hreg1.
  destruct (advance_loop_fires_once _ _ T p w w1 Hloop Hok Hin)
    as (evs & Hlog & Hfir & Hin1 & Ho1); [by eexists|lia|].
  rewrite Hexp in Hfir. rewrite Hexp, Hch in Ho1. simpl in Ho1.
  set (w2 := set_time (time (inner w) + p) w1) in *.
  assert (Ho2 : deref w2 T = Ticker (mkFakeTicker (Some (time (inner w) + p))
                                       (time (inner w) + p + p) p)) by done.
  destruct (drain_ticker T w2 _ Ho2) as (w3 & Hdr & Hi3 & Hf3 & Ho3).
  simpl in Hdr, Ho3.
  exists w3. split.
  { unfold bind. rewrite Hadv. fold w2. by rewrite Hdr. }
  split; [|split; [|split]].
  - apply (regular_drain T w2); [|done]. unfold exec. by rewrite Hdr.
  - split; rewrite Hi3; [done|]. by rewrite Ho3.
  - by rewrite Hi3.
  - rewrite Hf3. change (fired w2) with (fired w1).
    by rewrite Hlog, firings_of_app, Hfir.
Qed.

Lemma setExpirer_pos_heap (e : ptr) (d : Duration) (w : world) :
  0 < d ->
  heap (setExpirer e d w) = heap (setExpiration e (time (inner w) + d) w) /\
  fired (setExpirer e d w) = fired w.
Proof.
  intros Hd. unfold setExpirer. rewrite (proj2 (Z.leb_gt d 0) Hd).
  split; [reflexivity|]. simpl. unfold setExpiration. by destruct (deref w e).
Qed.

Lemma NewTicker_ticking (p : Duration) (w : world) :
  0 < p -> regular w ->
  exists T w0, NewTicker p w = Returns T w0 /\
    heap w !! T = None /\
    regular w0 /\ ticking T p w0 /\
    fired w0 = fired w /\ time (inner w0) = time (inner w).
Proof.
  intros Hp Hreg. unfold NewTicker, newFakeTicker.
  rewrite (proj2 (Z.leb_gt p 0) Hp).
  destruct (regular_alloc w (Ticker (mkFakeTicker None 0 p)) Hreg) as [Hr Hn].
  set (T := fresh (dom (heap w))) in *.
  set (w1 := with_heap (<[T := Ticker (mkFakeTicker None 0 p)]> (heap w)) w) in *.
  exists T, (setExpirer T p w1). split; [done|].
  split; [apply fresh_unallocated|].
  split; [by apply regular_setExpirer|].
  destruct (setExpirer_pos_heap T p w1 Hp) as [Hh Hf].
  split; [split|].
  - destruct (setExpirer_pos_waiters T p w1 Hp) as (idx & _ & ->).
    apply in_slices_Insert. by left.
  - unfold deref. rewrite Hh, setExpirer_time. unfold setExpiration.
    assert (Hd1 : deref w1 T = Ticker (mkFakeTicker None 0 p))
      by apply deref_with_heap_eq.
    rewrite Hd1. simpl. by rewrite lookup_total_insert_eq.
  - split; [by rewrite Hf|]. by rewrite setExpirer_time.
Qed.

Lemma ticks_fire (k : nat) (p : Duration) (T : ptr) (w : world) :
  0 < p -> regular w -> ticking T p w ->
  exists wk, ticks k p T w = Returns tt wk /\
    regular wk /\ ticking T p wk /\
    time (inner wk) = time (inner w) + Z.of_nat k * p /\
    firings_of T (fired wk) =
      firings_of T (fired w) ++
      map (fun i => (T, time (inner w) + Z.of_nat i * p)) (seq 1 k).
Proof.
  intros Hp. revert w. induction k as [|k IH]; intros w Hreg Htick.
  - exists w. simpl. rewrite app_nil_r.
    split; [done|]. split; [done|]. split; [done|]. split; [|done].
    change (Z.of_nat 0) with 0. lia.
  - destruct (tick_round p T w Hp Hreg Htick) as (w1 & Hrun & Hreg1 & Ht1 & Htime & Hfir).
    destruct (IH w1 Hreg1 Ht1) as (wk & Hrunk & Hregk & Htk & Htimek & Hfirk).
    exists wk. split; [|split; [done|split; [done|split]]].
    + simpl. unfold bind in *. destruct (Advance p w) as [[] w0| |]; try done.
      destruct (drain T w0) as [v w0'| |]; try done.
      injection Hrun as _ ->. exact Hrunk.
    + rewrite Htimek, Htime. lia.
    + rewrite Hfirk, Hfir, <- app_assoc. f_equal. simpl. f_equal.
      * f_equal. lia.
      * rewrite <- (seq_shift k 1), map_map. apply map_ext. intros i.
        f_equal. rewrite Htime. lia.
Qed.

(** On a well-formed queue, a ticker made by [NewTicker p] has fired
    exactly [k] times after [k] rounds of [Advance p], once at each
    multiple of [p] after its creation. *)
Lemma ticker_periodicity (k : nat) (p : Duration) (w : world) :
  0 < p -> regular w ->
  exists T w0 wk,
    NewTicker p w = Returns T w0 /\
    ticks k p T w0 = Returns tt wk /\
    firings_of T (fired wk) =
      firings_of T (fired w) ++
      map (fun i => (T, time (inner w) + Z.of_nat i * p)) (seq 1 k) /\
    firings T (fired wk) = (firings T (fired w) + k)%nat.
Proof.
  intros Hp Hreg.
  destruct (NewTicker_ticking p w Hp Hreg) as (T & w0 & Hnew & _ & Hreg0 & Ht0 & Hf0 & Htime0).
  destruct (ticks_fire k p T w0 Hp Hreg0 Ht0) as (wk & Hrun & _ & _ & _ & Hfir).
  exists T, w0, wk. split; [done|]. split; [done|].
  rewrite Hf0, Htime0 in Hfir. split; [done|].
  unfold firings. fold (firings_of T (fired wk)) (firings_of T (fired w)).
  by rewrite Hfir, length_app, length_map, length_seq.
Qed.

(** ** Timers are queued at most once, in every reachable world *)

Lemma allocated_kind (w : world) (e : ptr) :
  allocated w e <-> is_timer w e = true \/ is_ticker w e = true.
Proof.
  unfold allocated, is_timer, is_ticker. destruct (heap w !! e) as [[o|o]|]; split.
  all: try (intros _; by eauto). all: try by intros [? ?]. all: by intros [?|?].
Qed.

Lemma same_kinds_refl (w : world) : same_kinds w w.
Proof. by intros q. Qed.

Lemma same_kinds_trans (w1 w2 w3 : world) :
  same_kinds w1 w2 -> same_kinds w2 w3 -> same_kinds w1 w3.
Proof.
  intros H12 H23 q. destruct (H12 q) as [<- <-]. apply H23.
Qed.

Lemma same_kinds_allocated (w w' : world) (q : ptr) :
  same_kinds w w' -> allocated w q -> allocated w' q.
Proof.
  intros Hk Hq. apply allocated_kind. apply allocated_kind in Hq.
  destruct (Hk q) as [-> ->]. done.
Qed.

Lemma same_kinds_update (w : world) (e : ptr) (x x' : expirer) :
  heap w !! e = Some x ->
  match x, x' with
  | Timer _, Timer _ | Ticker _, Ticker _ => True
  | _, _ => False
  end ->
  same_kinds w (with_heap (<[e := x']> (heap w)) w).
Proof.
  intros He Hk q. unfold is_timer, is_ticker. simpl.
  destruct (decide (e = q)) as [<-|Hne].
  - rewrite lookup_insert_eq, He. by destruct x, x'.
  - by rewrite lookup_insert_ne.
Qed.

Lemma allocated_deref (w : world) (e : ptr) :
  allocated w e -> heap w !! e = Some (deref w e).
Proof.
  intros [x Hx]. unfold deref. by rewrite (lookup_total_correct _ _ _ Hx).
Qed.

Lemma expire_same_kinds (e : ptr) (now : instant) (w : world) :
  allocated w e -> same_kinds w (snd (expire e now w)).
Proof.
  intros Ha. apply allocated_deref in Ha. unfold expire.
  replace (deref (log_fired e now w) e) with (deref w e) by done.
  destruct (deref w e) as [o|o]; [destruct (tm_afterFunc o)|]; simpl.
  - by intros q.
  - intros q. by apply (same_kinds_update (log_fired e now w) e (Timer o)).
  - intros q. by apply (same_kinds_update (log_fired e now w) e (Ticker o)).
Qed.

Lemma setExpirer_same_kinds (e : ptr) (d : Duration) (w : world) :
  allocated w e -> same_kinds w (setExpirer e d w).
Proof.
  intros Ha. unfold setExpirer. destruct (d <=? 0); [by apply expire_same_kinds|].
  apply allocated_deref in Ha.
  change (same_kinds w (setExpiration e (time (inner w) + d) w)).
  unfold setExpiration. destruct (deref w e) as [o|o].
  - by apply (same_kinds_update w e (Timer o)).
  - by apply (same_kinds_update w e (Ticker o)).
Qed.

Lemma count_occ_slices_Insert (s : list ptr) (idx : nat) (e q : ptr) :
  count_occ Nat.eq_dec (slices_Insert s idx e) q =
    (count_occ Nat.eq_dec s q + if Nat.eq_dec e q then 1 else 0)%nat.
Proof.
  unfold slices_Insert. rewrite <- (take_drop idx s) at 3.
  rewrite !count_occ_app. simpl. destruct (Nat.eq_dec e q); lia.
Qed.

Lemma setExpirer_occurrences (e : ptr) (d : Duration) (w : world) (q : ptr) :
  occurrences q (setExpirer e d w) =
    (occurrences q w + if decide ((0 < d)%Z /\ e = q) then 1 else 0)%nat.
Proof.
  unfold occurrences. destruct (Z_le_gt_dec d 0) as [Hle|Hgt].
  - rewrite setExpirer_nonpos by done. rewrite expire_inner.
    rewrite decide_False by lia. lia.
  - destruct (setExpirer_pos_waiters e d w) as (idx & _ & ->); [lia|].
    rewrite count_occ_slices_Insert.
    destruct (Nat.eq_dec e q) as [->|Hne].
    + rewrite decide_True; [done|]. split; [lia|done].
    + rewrite decide_False; [done|]. by intros [_ ?].
Qed.

Lemma stopExpirer_occurrences (e : ptr) (w : world) (q : ptr) :
  (occurrences q (snd (stopExpirer e w)) <= occurrences q w)%nat /\
  ((occurrences e w <= 1)%nat -> occurrences e (snd (stopExpirer e w)) = 0%nat).
Proof.
  unfold occurrences.
  destruct (stopExpirer_spec e w) as [[Hnin ->]|(l1 & l2 & Hq & Hnin & ->)]; simpl.
  - split; [lia|]. intros _. by apply count_occ_not_In.
  - rewrite Hq, !count_occ_app. simpl. split.
    + destruct (Nat.eq_dec e q); lia.
    + destruct (Nat.eq_dec e e); [|done].
      apply (count_occ_not_In Nat.eq_dec) in Hnin. lia.
Qed.

Lemma timers_once_setExpirer (e : ptr) (d : Duration) (w : world) :
  allocated w e ->
  (is_timer w e = true -> 0 < d -> occurrences e w = 0%nat) ->
  timers_once w -> timers_once (setExpirer e d w).
Proof.
  intros Ha Hzero [Hall Honce].
  pose proof (setExpirer_same_kinds e d w Ha) as Hk.
  split.
  - apply List.Forall_forall. intros q Hq.
    apply (same_kinds_allocated w); [done|].
    destruct (Z_le_gt_dec d 0) as [Hle|Hgt].
    + rewrite setExpirer_nonpos, expire_inner in Hq by done.
      by apply (proj1 (List.Forall_forall _ _) Hall).
    + destruct (setExpirer_pos_waiters e d w) as (idx & _ & Hw); [lia|].
      rewrite Hw in Hq. apply in_slices_Insert in Hq as [->|Hq]; [done|].
      by apply (proj1 (List.Forall_forall _ _) Hall).
  - intros q Hq. destruct (Hk q) as [Hkq _]. rewrite Hkq in Hq.
    rewrite setExpirer_occurrences. specialize (Honce q Hq).
    destruct (decide (0 < d /\ e = q)) as [[Hd ->]|_]; [|lia].
    rewrite Hzero; done.
Qed.

Lemma timers_once_stopExpirer (e : ptr) (w : world) :
  timers_once w ->
  timers_once (snd (stopExpirer e w)) /\
  same_kinds w (snd (stopExpirer e w)) /\
  (is_timer w e = true -> occurrences e (snd (stopExpirer e w)) = 0%nat).
Proof.
  intros [Hall Honce].
  assert (Hk : same_kinds w (snd (stopExpirer e w))).
  { unfold stopExpirer. destruct (slices_Index _ e); by intros q. }
  split; [split|split; [done|]].
  - destruct (stopExpirer_spec e w) as [[_ ->]|(l1 & l2 & Hq & _ & ->)]; [done|].
    simpl. rewrite Hq in Hall. apply Forall_app in Hall as [H1 H2].
    apply Forall_cons in H2 as [_ H2]. apply Forall_app. by split.
  - intros q Hq. destruct (Hk q) as [Hkq _]. rewrite Hkq in Hq.
    specialize (Honce q Hq).
    pose proof (proj1 (stopExpirer_occurrences e w q)). lia.
  - intros He. apply (proj2 (stopExpirer_occurrences e w e)). by apply Honce.
Qed.

Lemma timers_once_alloc (w : world) (x : expirer) :
  timers_once w ->
  let p := fresh (dom (heap w)) in
  let w1 := with_heap (<[p := x]> (heap w)) w in
  timers_once w1 /\ allocated w1 p /\ occurrences p w1 = 0%nat.
Proof.
  intros [Hall Honce] p w1.
  assert (Hnin : ~ In p (waiters (inner w))).
  { intros Hin. apply (proj1 (List.Forall_forall _ _) Hall) in Hin as [y Hy].
    pose proof (fresh_unallocated w) as Hf. fold p in Hf. congruence. }
  assert (Hzero : occurrences p w1 = 0%nat) by (by apply count_occ_not_In).
  split; [split|split; [|done]].
  - eapply Forall_impl; [exact Hall|]. intros q Hq.
    by apply allocated_insert.
  - intros q Hq. destruct (decide (p = q)) as [<-|Hne]; [lia|].
    apply Honce. unfold is_timer in *. simpl in Hq.
    by rewrite lookup_insert_ne in Hq.
  - unfold allocated, w1. simpl. rewrite lookup_insert_eq. by eexists.
Qed.

Lemma timers_once_frame (w w' : world) :
  waiters (inner w') = waiters (inner w) ->
  same_kinds w w' ->
  timers_once w -> timers_once w'.
Proof.
  intros Hw Hk [Hall Honce]. unfold timers_once, occurrences. rewrite Hw. split.
  - eapply Forall_impl; [exact Hall|]. intros q. by apply same_kinds_allocated.
  - intros q Hq. destruct (Hk q) as [Hkq _]. rewrite Hkq in Hq. by apply Honce.
Qed.

Lemma ticker_not_timer (w : world) (e : ptr) :
  is_ticker w e = true -> is_timer w e = false.
Proof. unfold is_ticker, is_timer. by destruct (heap w !! e) as [[o|o]|]. Qed.

Lemma expire_Some_ticker (e : ptr) (now : instant) (w : world) (d : Duration) :
  allocated w e -> fst (expire e now w) = Some d -> is_ticker w e = true.
Proof.
  intros Ha Hfst. apply allocated_deref in Ha. unfold is_ticker. rewrite Ha.
  unfold expire in Hfst.
  replace (deref (log_fired e now w) e) with (deref w e) in Hfst by done.
  destruct (deref w e) as [o|o]; [|done]. by destruct (tm_afterFunc o).
Qed.

Lemma timers_once_advance_step (e : ptr) (rest : list ptr) (w : world) :
  waiters (inner w) = e :: rest ->
  timers_once w -> timers_once (advance_step e rest w).
Proof.
  intros Hq [Hall Honce]. rewrite Hq in Hall. apply Forall_cons in Hall as [Hae Hall].
  rewrite advance_step_expire.
  set (w2 := set_time (expiration w e) (set_waiters rest w)).
  assert (Hocc : forall q, (occurrences q w2 <= occurrences q w)%nat).
  { intros q. unfold occurrences. rewrite Hq. simpl. destruct (Nat.eq_dec e q); lia. }
  assert (H2 : timers_once w2).
  { split; [done|]. intros q Hq'. specialize (Honce q Hq'). specialize (Hocc q). lia. }
  assert (Ha2 : allocated w2 e) by done.
  assert (H3 : timers_once (snd (expire e (expiration w e) w2))).
  { apply (timers_once_frame w2); [by rewrite expire_inner| |done].
    by apply expire_same_kinds. }
  destruct (fst (expire e (expiration w e) w2)) as [d|] eqn:Hfst; [|done].
  pose proof (expire_same_kinds e (expiration w e) w2 Ha2) as Hk.
  apply timers_once_setExpirer; [by apply (same_kinds_allocated w2)| |done].
  intros Htimer. destruct (Hk e) as [Hke _]. rewrite Hke in Htimer.
  apply expire_Some_ticker, ticker_not_timer in Hfst; [|done]. congruence.
Qed.

Lemma timers_once_advance_loop (fuel : nat) (end_ : instant) (w w' : world) :
  advance_loop fuel end_ w = Some w' ->
  timers_once w -> timers_once w'.
Proof.
  revert fuel w w'.
  apply (advance_loop_induction end_ (fun w w' => timers_once w -> timers_once w')).
  - done.
  - intros w e rest w' Hq _ _ IH Hw. apply IH. by apply timers_once_advance_step.
Qed.

Lemma op_timers_once (o : op) (w w' : world) :
  timers_once w ->
  receiver_ok o w = true ->
  run_op o w = Some w' ->
  timers_once w'.
Proof.
  intros Hw. destruct o as [d|d f|d|f d|f|f d|f|d|n|e]; simpl; intros Hrecv.
  - unfold exec, NewTimer, newTimer, newFakeTimer. intros [= <-].
    destruct (timers_once_alloc w (Timer (mkFakeTimer None 0 None)) Hw)
      as (H1 & Ha & Hz).
    by apply timers_once_setExpirer.
  - unfold exec, AfterFunc, newTimer, newFakeTimer. intros [= <-].
    destruct (timers_once_alloc w (Timer (mkFakeTimer None 0 f)) Hw)
      as (H1 & Ha & Hz).
    by apply timers_once_setExpirer.
  - unfold exec, NewTicker, newFakeTicker. destruct (d <=? 0); [done|].
    intros [= <-].
    destruct (timers_once_alloc w (Ticker (mkFakeTicker None 0 d)) Hw)
      as (H1 & Ha & Hz).
    by apply timers_once_setExpirer.
  - unfold exec, fakeTimer_Reset.
    destruct (timers_once_stopExpirer f w Hw) as (H1 & Hk & Hz).
    destruct (stopExpirer f w) as [stopped w1]. intros [= <-]. simpl in *.
    apply timers_once_setExpirer; [|by intros _ _; apply Hz|done].
    apply (same_kinds_allocated w); [done|]. apply allocated_kind. by left.
  - unfold exec, fakeTimer_Stop, stop.
    destruct (timers_once_stopExpirer f w Hw) as (H1 & _).
    destruct (stopExpirer f w) as [stopped w1]. by intros [= <-].
  - unfold exec, fakeTicker_Reset. intros [= <-].
    assert (Ha : allocated w f) by (apply allocated_kind; by right).
    assert (Hk : same_kinds w (set_d f d w)).
    { unfold set_d. pose proof (allocated_deref w f Ha) as Hd.
      destruct (deref w f) as [o|o]; [by intros q|].
      by apply (same_kinds_update w f (Ticker o)). }
    apply timers_once_setExpirer.
    + by apply (same_kinds_allocated w).
    + intros Ht. destruct (Hk f) as [Hkf _]. rewrite Hkf in Ht.
      apply ticker_not_timer in Hrecv. congruence.
    + apply (timers_once_frame w); [|done|done].
      by destruct (set_d_kept f d w) as [_ ->].
  - unfold exec, fakeTicker_Stop.
    destruct (timers_once_stopExpirer f w Hw) as (H1 & _).
    destruct (stopExpirer f w) as [stopped w1]. by intros [= <-].
  - unfold exec. destruct (Advance_returns d w) as (w1 & Hloop & ->).
    intros [= <-].
    apply (timers_once_frame w1); [done|by intros q|].
    by apply (timers_once_advance_loop _ _ w w1 Hloop).
  - unfold exec, newBlocker.
    destruct (Z.of_nat (length (waiters (inner w))) <? n); intros [= <-]; [|done].
    apply (timers_once_frame w); [done|by intros q|done].
  - intros Hrun. destruct (drain_kept e w w' Hrun) as [_ Hi].
    apply (timers_once_frame w); [by rewrite Hi| |done].
    assert (Ha : allocated w e).
    { apply allocated_kind. by apply orb_true_iff in Hrecv. }
    pose proof (allocated_deref w e Ha) as Hd.
    unfold exec, drain in Hrun. destruct (deref w e) as [o|o]; injection Hrun as <-.
    + by apply (same_kinds_update w e (Timer o)).
    + by apply (same_kinds_update w e (Ticker o)).
Qed.

Lemma reachable_timers_once (w : world) : reachable w -> timers_once w.
Proof.
  induction 1 as [t|o w w' _ IH Hrecv Hrun].
  - split; [constructor|]. intros e _. unfold occurrences. simpl. lia.
  - by apply (op_timers_once o w).
Qed.

(** ** Stopping *)



(** A timer is queued at most once in every reachable world, so for
    timers [Stop] always behaves as [stop_spec] says, and after [Reset]
    to a positive duration the timer is queued exactly once. *)
Lemma timer_Reset_queues_once (f : ptr) (d : Duration) (w : world) :
  reachable w -> is_timer w f = true -> 0 < d ->
  exists w', fakeTimer_Reset f d w = Returns (fst (stopExpirer f w)) w' /\
    (fst (stopExpirer f w) = true <-> In f (waiters (inner w))) /\
    occurrences f w' = 1%nat.
Proof.
  intros Hreach Hf Hd. pose proof (reachable_timers_once w Hreach) as Hw.
  unfold fakeTimer_Reset.
  destruct (timers_once_stopExpirer f w Hw) as (_ & _ & Hz).
  destruct (stopExpirer_queue f w) as [Hin Hnin].
  destruct (stopExpirer f w) as [stopped w1]. simpl in *.
  eexists. split; [reflexivity|]. split.
  - destruct (in_dec Nat.eq_dec f (waiters (inner w))) as [Hi|Hn].
    + by destruct (Hin Hi) as [-> _].
    + destruct (Hnin Hn) as [-> _]. split; [done|]. by intros ?.
  - rewrite setExpirer_occurrences, (Hz Hf). rewrite decide_True; done.
Qed.

(** ** Registration order *)

Lemma filter_two_absent (a e : ptr) (l : list ptr) :
  ~ In a l -> ~ In e l ->
  List.filter (fun x => Nat.eqb x a || Nat.eqb x e) l = [].
Proof.
  intros Ha He. apply filter_none. apply List.Forall_forall. intros x Hx.
  apply orb_false_iff. split; apply Nat.eqb_neq; intros ->; done.
Qed.

Lemma filter_two_single (a e : ptr) (l : list ptr) :
  NoDup l -> In a l -> ~ In e l ->
  List.filter (fun x => Nat.eqb x a || Nat.eqb x e) l = [a].
Proof.
  induction l as [|x l IH]; intros Hnd Ha He; [done|].
  apply NoDup_cons in Hnd as [Hx Hnd]. simpl.
  assert (Hxe : x <> e) by (intros ->; apply He; by left).
  rewrite (proj2 (Nat.eqb_neq x e) Hxe), orb_false_r.
  destruct (Nat.eqb_spec x a) as [->|Hxa].
  - f_equal. apply filter_two_absent.
    + by intros ?%list_elem_of_In.
    + intros Hin. apply He. by right.
  - apply IH; [done| |].
    + destruct Ha as [?|?]; done.
    + intros Hin. apply He. by right.
Qed.

(** An expirer registered for an instant at which [a] is already queued
    is queued behind [a]: entries due at one instant are queued in the
    order in which they were registered. *)
Lemma setExpirer_queues_behind (a e : ptr) (d : Duration) (w : world) :
  0 < d -> queue_ok w ->
  In a (waiters (inner w)) -> ~ In e (waiters (inner w)) ->
  expiration w a <= time (inner w) + d ->
  queued_before a e (setExpirer e d w).
Proof.
  intros Hd (Hnd & Hs & _) Ha He Hle.
  destruct (setExpirer_sorted_insert e d w Hd He Hs)
    as (l1 & l2 & Hq & Hq' & Hl1 & Hl2 & _).
  rewrite Hq in Hnd, Ha, He.
  apply NoDup_app in Hnd as (Hn1 & Hdisj & Hn2).
  assert (Ha2 : ~ In a l2).
  { intros Hin. apply (proj1 (List.Forall_forall _ _) Hl2) in Hin. simpl in Hin. lia. }
  assert (Ha1 : In a l1) by (apply in_app_or in Ha as [?|?]; done).
  unfold queued_before. rewrite Hq', List.filter_app. simpl.
  rewrite Nat.eqb_refl, orb_true_r.
  rewrite filter_two_single, filter_two_absent; try done.
  - intros Hin. apply He. apply in_or_app. by right.
  - intros Hin. apply He. apply in_or_app. by left.
Qed.

(** ** What a ticker reset does to the queue in general *)

(** [fakeTicker.Reset] to a positive period always adds an entry for the
    ticker and never removes one. *)
Lemma fakeTicker_Reset_adds_entry (f : ptr) (d : Duration) (w : world) :
  0 < d ->
  exists w', fakeTicker_Reset f d w = Returns tt w' /\
    occurrences f w' = S (occurrences f w).
Proof.
  intros Hd. eexists. split; [reflexivity|].
  rewrite setExpirer_occurrences. rewrite decide_True by done.
  unfold occurrences. destruct (set_d_kept f d w) as [_ ->]. lia.
Qed.

(** ** The reset of a pending ticker

    [fakeTimer.Reset] stops the timer before it sets it again;
    [fakeTicker.Reset] only sets. On a ticker that is still queued this
    leaves two queue entries that share one [exp] field, and the queue
    is no longer what the lemmas above assume. The statements below
    evaluate the code on such clocks. *)

Lemma ticker5_reachable : reachable ticker5.
Proof.
  apply (reach_op (OpNewTicker 5) (NewFakeClockAt 0)); [|reflexivity|reflexivity].
  apply reach_new.
Qed.

Lemma ticker_reset10_timer7_reachable : reachable ticker_reset10_timer7.
Proof.
  apply (reach_op (OpTickerReset 0%nat 10) ticker5_timer7); [|reflexivity|reflexivity].
  apply (reach_op (OpNewTimer 7) ticker5); [|reflexivity|reflexivity].
  apply ticker5_reachable.
Qed.

Lemma ticker_reset10_ticker7_reachable : reachable ticker_reset10_ticker7.
Proof.
  apply (reach_op (OpTickerReset 0%nat 10) (after (_ <~ NewTicker 5 ;; NewTicker 7)));
    [|reflexivity|reflexivity].
  apply (reach_op (OpNewTicker 7) ticker5); [|reflexivity|reflexivity].
  apply ticker5_reachable.
Qed.

(** [fakeTicker.Reset] has no failing path: it returns for every duration. *)
Lemma fakeTicker_Reset_returns (f : ptr) (d : Duration) (w : world) :
  fakeTicker_Reset f d w = Returns tt (setExpirer f d (set_d f d w)).
Proof. reflexivity. Qed.

(** C1 fails on the code. [NewTicker 0] panics, but [Reset 0] on the
    ticker made by [NewTicker 5] returns: the period is now 0, the
    current time was sent on the channel, and the ticker is still queued
    for instant 5. *)
Theorem ticker_Reset_zero_does_not_panic :
  NewTicker 0 (NewFakeClockAt 0) = Panics "non-positive interval for NewTicker" /\
  is_ticker ticker5 0%nat = true /\
  exists w', fakeTicker_Reset 0%nat 0 ticker5 = Returns tt w' /\
    deref w' 0%nat = Ticker (mkFakeTicker (Some 0) 5 0) /\
    waiters (inner w') = [0%nat].
Proof.
  split; [reflexivity|]. split; [reflexivity|].
  eexists. split; [reflexivity|]. split; reflexivity.
Qed.

(** C2 fails on the code. [Reset 3] on the pending ticker made by
    [NewTicker 5] removes nothing: the ticker is in the queue twice. *)
Theorem ticker_Reset_duplicates_entry :
  is_ticker ticker5 0%nat = true /\
  waiters (inner ticker5) = [0%nat] /\
  exists w', fakeTicker_Reset 0%nat 3 ticker5 = Returns tt w' /\
    waiters (inner w') = [0%nat; 0%nat] /\
    occurrences 0%nat w' = 2%nat.
Proof.
  split; [reflexivity|]. split; [reflexivity|].
  eexists. split; [reflexivity|]. split; reflexivity.
Qed.

(** C4 fails on the code after a ticker was reset while pending. With the
    queue [ticker, timer, ticker] at instants 10, 7, 10 and the clock at 0,
    [Advance 8] fires nothing although the timer is due at 7; and
    [Advance 10] fires the ticker at 10 before the timer at 7. *)
Theorem Advance_after_ticker_Reset_misorders :
  reachable ticker_reset10_timer7 /\
  waiters (inner ticker_reset10_timer7) = [0%nat; 1%nat; 0%nat] /\
  instants ticker_reset10_timer7 = [10; 7; 10] /\
  time (inner ticker_reset10_timer7) = 0 /\
  fired ticker_reset10_timer7 = [] /\
  (exists w', Advance 8 ticker_reset10_timer7 = Returns tt w' /\
     fired w' = [] /\
     waiters (inner w') = [0%nat; 1%nat; 0%nat]) /\
  (exists w', Advance 10 ticker_reset10_timer7 = Returns tt w' /\
     fired w' = [(0%nat, 10); (1%nat, 7)]).
Proof.
  split; [apply ticker_reset10_timer7_reachable|].
  repeat (split; [reflexivity|]).
  split; eexists; (split; [vm_compute; reflexivity|]); repeat split; reflexivity.
Qed.

(** C7 fails on the code when [setExpirer] is reached from
    [fakeTicker.Reset] with the ticker still in the queue: the sorted queue
    at instants 5, 7 becomes [ticker, timer, ticker] at 10, 7, 10. *)
Theorem ticker_Reset_breaks_sortedness :
  reachable ticker5_timer7 /\
  queue_sorted ticker5_timer7 /\
  instants ticker5_timer7 = [5; 7] /\
  In 0%nat (waiters (inner ticker5_timer7)) /\
  fakeTicker_Reset 0%nat 10 ticker5_timer7 = Returns tt ticker_reset10_timer7 /\
  setExpirer 0%nat 10 (set_d 0%nat 10 ticker5_timer7) = ticker_reset10_timer7 /\
  instants ticker_reset10_timer7 = [10; 7; 10] /\
  ~ queue_sorted ticker_reset10_timer7.
Proof.
  split.
  { apply (reach_op (OpNewTimer 7) ticker5); [|reflexivity|reflexivity].
    apply ticker5_reachable. }
  split.
  { unfold queue_sorted. replace (instants ticker5_timer7) with [5; 7] by reflexivity.
    repeat constructor. lia. }
  split; [reflexivity|]. split; [by left|].
  repeat (split; [reflexivity|]).
  unfold queue_sorted. replace (instants ticker_reset10_timer7) with [10; 7; 10] by reflexivity.
  intros Hs. inversion Hs as [|? ? _ Hhd]; subst. inversion Hhd; subst. lia.
Qed.

(** C8 fails on the code for a ticker that was reset while pending:
    [Stop] takes one of its two entries away, the other stays, and the
    next [Advance] fires the stopped ticker. *)
Theorem stopped_ticker_fires_after_Reset :
  reachable ticker5_reset3 /\
  time (inner ticker5_reset3) = 0 /\
  instants ticker5_reset3 = [3; 3] /\
  exists w1 w2, fakeTicker_Stop 0%nat ticker5_reset3 = Returns tt w1 /\
    waiters (inner w1) = [0%nat] /\
    Advance 3 w1 = Returns tt w2 /\
    fired w2 = [(0%nat, 3)].
Proof.
  split.
  { apply (reach_op (OpTickerReset 0%nat 3) ticker5); [|reflexivity|reflexivity].
    apply ticker5_reachable. }
  split; [reflexivity|]. split; [reflexivity|].
  do 2 eexists. split; [reflexivity|]. split; [reflexivity|].
  split; [vm_compute; reflexivity|reflexivity].
Qed.

(** C9 fails on the code once another ticker was reset while pending: the
    ticker of period 7 at address 1, made by [NewTicker 7] at time 0, has
    not fired after one [Advance 7], because the queue head is the reset
    ticker at instant 10. *)
Theorem ticker_misses_period_after_other_Reset :
  reachable ticker_reset10_ticker7 /\
  deref ticker_reset10_ticker7 1%nat = Ticker (mkFakeTicker None 7 7) /\
  instants ticker_reset10_ticker7 = [10; 7; 10] /\
  time (inner ticker_reset10_ticker7) = 0 /\
  exists w', Advance 7 ticker_reset10_ticker7 = Returns tt w' /\
    time (inner w') = 7 /\
    firings 1%nat (fired w') = 0%nat.
Proof.
  split; [apply ticker_reset10_ticker7_reachable|].
  repeat (split; [reflexivity|]).
  eexists. split; [vm_compute; reflexivity|]. split; reflexivity.
Qed.

(** C10 fails on the code after a ticker was reset while pending. After
    [Advance 8] the timer due at 7 is still queued at time 8; once the
    ticker is stopped the timer is the head of the queue, and [Advance 0]
    fires it and shortens the queue. *)
Theorem queued_instant_not_after_now :
  reachable ticker_reset10_timer7 /\
  exists w1 w2 w3,
    Advance 8 ticker_reset10_timer7 = Returns tt w1 /\
    time (inner w1) = 8 /\
    In 1%nat (waiters (inner w1)) /\
    expiration w1 1%nat = 7 /\
    fakeTicker_Stop 0%nat w1 = Returns tt w2 /\
    waiters (inner w2) = [1%nat; 0%nat] /\
    Advance 0 w2 = Returns tt w3 /\
    fired w3 = fired w2 ++ [(1%nat, 7)] /\
    waiters (inner w3) = [0%nat].
Proof.
  split; [apply ticker_reset10_timer7_reachable|].
  do 3 eexists. split; [vm_compute; reflexivity|].
  split; [reflexivity|]. split; [right; left; reflexivity|].
  split; [reflexivity|]. split; [reflexivity|]. split; [reflexivity|].
  split; [vm_compute; reflexivity|]. split; reflexivity.
Qed.

(** * More of the engine *)

(** ** Advancing in two steps *)

Lemma advance_step_set_time (e : ptr) (rest : list ptr) (x : instant) (w : world) :
  advance_step e rest (set_time x w) = advance_step e rest w.
Proof. reflexivity. Qed.

Lemma advance_loop_set_time (fuel : nat) (end_ x y : instant) (w : world) :
  option_map (set_time y) (advance_loop fuel end_ (set_time x w)) =
  option_map (set_time y) (advance_loop fuel end_ w).
Proof.
  destruct fuel; simpl; destruct (waiters (inner w)) as [|e rest]; try done.
  all: change (expiration (set_time x w) e) with (expiration w e).
  all: destruct (expiration w e <=? end_); done.
Qed.

Lemma advance_loop_split (f1 f2 : nat) (e1 e2 : instant) (w w1 w2 : world) :
  advance_loop f1 e1 w = Some w1 ->
  e1 <= e2 ->
  advance_loop f2 e2 w1 = Some w2 ->
  advance_loop (f1 + f2) e2 w = Some w2.
Proof.
  intros H1 Hle H2. revert w H1. induction f1 as [|f1 IH]; intros w H1.
  - simpl in *. destruct (waiters (inner w)) as [|e rest]; [by injection H1 as ->|].
    destruct (expiration w e <=? e1); [done|]. by injection H1 as ->.
  - assert (Hmore : advance_loop (S f1 + f2) e2 w1 = Some w2)
      by (apply (advance_loop_more_fuel f2); [done|lia]).
    simpl in H1. destruct (waiters (inner w)) as [|e rest] eqn:Hq.
    { by injection H1 as ->. }
    destruct (expiration w e <=? e1) eqn:Hdue; [|by injection H1 as ->].
    apply Z.leb_le in Hdue. simpl. rewrite Hq.
    rewrite (proj2 (Z.leb_le _ _)) by lia. by apply IH.
Qed.

(** With exact additions, advancing by [d1] and then by [d2 >= 0] is
    advancing by [d1 + d2]. *)
Lemma Advance_twice_exact (w : world) (d1 d2 : Duration) :
  0 <= d2 ->
  (_ <~ Advance d1 ;; Advance d2) w = Advance (d1 + d2) w.
Proof.
  intros Hd2. unfold bind.
  destruct (Advance_returns d1 w) as (w1 & Hl1 & ->).
  set (t := time (inner w)) in *.
  destruct (Advance_returns d2 (set_time (t + d1) w1)) as (w2 & Hl2 & ->).
  destruct (Advance_returns (d1 + d2) w) as (w3 & Hl3 & ->). fold t in Hl3.
  change (time (inner (set_time (t + d1) w1))) with (t + d1) in *.
  replace (t + (d1 + d2)) with (t + d1 + d2) in * by lia.
  set (e2 := t + d1 + d2) in *.
  destruct (advance_loop_terminates (advance_fuel e2 w1) e2 w1) as [w2' Hl2']; [lia|].
  pose proof (advance_loop_set_time (advance_fuel e2 w1) e2 (t + d1) e2 w1) as Heq.
  change (advance_fuel e2 (set_time (t + d1) w1)) with (advance_fuel e2 w1) in Hl2.
  rewrite Hl2, Hl2' in Heq. simpl in Heq. apply (inj Some) in Heq.
  assert (Hsplit : advance_loop (advance_fuel (t + d1) w + advance_fuel e2 w1) e2 w
                   = Some w2')
    by (apply (advance_loop_split _ _ (t + d1) e2 w w1 w2'); [done|unfold e2; lia|done]).
  set (fmax := (advance_fuel (t + d1)%Z w + advance_fuel e2 w1 + advance_fuel e2 w)%nat).
  assert (Ha : advance_loop fmax e2 w = Some w2')
    by (apply (advance_loop_more_fuel _ _ _ _ _ Hsplit); unfold fmax; lia).
  assert (Hb : advance_loop fmax e2 w = Some w3)
    by (apply (advance_loop_more_fuel _ _ _ _ _ Hl3); unfold fmax; lia).
  rewrite Ha in Hb. apply (inj Some) in Hb. subst w3. rewrite Heq. f_equal. f_equal. unfold e2, t. lia.
Qed.

(** ** Clocks on which no pending ticker was reset *)

Lemma ticker5_timer7_clean : reachable_clean ticker5_timer7.
Proof.
  apply (clean_op (OpNewTimer 7) ticker5); [|reflexivity|exact I|reflexivity].
  apply (clean_op (OpNewTicker 5) (NewFakeClockAt 0));
    [|reflexivity|exact I|reflexivity].
  apply clean_new.
Qed.

(** ** A new timer *)

Lemma newFakeTimer_expiration (w : world) (afterfunc : option func) (p : ptr) :
  allocated w p ->
  expiration (snd (newFakeTimer afterfunc w)) p = expiration w p /\
  deref (snd (newFakeTimer afterfunc w)) p = deref w p.
Proof.
  intros [x Hx]. unfold newFakeTimer. simpl.
  assert (Hne : fresh (dom (heap w)) <> p).
  { intros Heq. pose proof (fresh_unallocated w) as Hf. rewrite Heq in Hf. congruence. }
  unfold expiration. by rewrite deref_with_heap_ne.
Qed.

(** With exact additions, [NewTimer d] with [d > 0] on a well-formed
    queue puts the new timer behind every queued entry due at [time + d]
    or earlier and in front of every later one. *)
Lemma NewTimer_queue_position_exact (w : world) (d : Duration) :
  reachable_clean w -> 0 < d ->
  exists ft w' l1 l2,
    NewTimer d w = Returns ft w' /\
    waiters (inner w) = l1 ++ l2 /\
    waiters (inner w') = l1 ++ ft :: l2 /\
    Forall (fun p => expiration w p <= time (inner w) + d) l1 /\
    Forall (fun p => time (inner w) + d < expiration w p) l2 /\
    expiration w' ft = time (inner w) + d /\
    (forall p, In p (waiters (inner w)) -> expiration w' p = expiration w p) /\
    time (inner w') = time (inner w).
Proof.
  intros Hc Hd. pose proof (reachable_clean_regular w Hc) as Hreg.
  destruct (regular_alloc w (Timer (mkFakeTimer None 0 None)) Hreg) as [Hr1 Hn].
  unfold NewTimer, newTimer.
  pose proof (newFakeTimer_expiration w None) as Hsame.
  unfold newFakeTimer in *. simpl in Hsame.
  set (ft := fresh (dom (heap w))) in *.
  set (w1 := with_heap (<[ft := Timer (mkFakeTimer None 0 None)]> (heap w)) w) in *.
  destruct Hr1 as [(Hnd & Hs & Ha) _].
  destruct (setExpirer_sorted_insert ft d w1 Hd Hn Hs)
    as (l1 & l2 & Hq & Hq' & Hl1 & Hl2 & _).
  destruct Hreg as [(_ & _ & Hall) _].
  assert (Hexp : forall p, In p (waiters (inner w)) -> expiration w1 p = expiration w p).
  { intros p Hp. apply Hsame. by apply (proj1 (List.Forall_forall _ _) Hall). }
  exists ft, (setExpirer ft d w1), l1, l2.
  split; [done|]. split; [exact Hq|]. split; [exact Hq'|].
  change (waiters (inner w1)) with (waiters (inner w)) in Hq.
  split; [|split; [|split; [|split]]].
  - apply List.Forall_forall. intros p Hp.
    apply (proj1 (List.Forall_forall _ _) Hl1) in Hp as Hle. simpl in Hle.
    rewrite Hexp in Hle; [done|]. rewrite Hq. apply in_or_app. by left.
  - apply List.Forall_forall. intros p Hp.
    apply (proj1 (List.Forall_forall _ _) Hl2) in Hp as Hlt. simpl in Hlt.
    rewrite Hexp in Hlt; [done|]. rewrite Hq. apply in_or_app. by right.
  - rewrite setExpirer_pos_expiration by done. by rewrite decide_True.
  - intros p Hp. rewrite setExpirer_pos_expiration by done.
    rewrite decide_False; [by apply Hexp|]. by intros ->.
  - by rewrite setExpirer_time.
Qed.

(** ** The firing of a one-shot timer *)

Lemma advance_step_timer (e : ptr) (rest : list ptr) (w : world) (o : fakeTimer) :
  deref w e = Timer o ->
  fired (advance_step e rest w) = fired w ++ [(e, tm_exp o)] /\
  waiters (inner (advance_step e rest w)) = rest /\
  deref (advance_step e rest w) e =
    match tm_afterFunc o with
    | Some _ => Timer o
    | None => Timer (mkFakeTimer (try_send (tm_c o) (tm_exp o)) (tm_exp o) None)
    end.
Proof.
  intros He.
  assert (Hexp : expiration w e = tm_exp o) by (unfold expiration; by rewrite He).
  rewrite advance_step_expire, Hexp.
  set (w2 := set_time (tm_exp o) (set_waiters rest w)).
  assert (He2 : deref w2 e = Timer o) by done.
  destruct (expire_Timer e (tm_exp o) w2 o He2) as (Hfst & Hrest).
  rewrite Hfst. rewrite expire_fired, expire_inner. split; [done|]. split; [done|].
  unfold deref at 1.
  destruct (tm_afterFunc o) as [f|]; destruct Hrest as [_ ->].
  - exact He.
  - by rewrite lookup_total_insert_eq.
Qed.

Lemma is_timer_deref (w : world) (p : ptr) :
  allocated w p ->
  is_timer w p = match deref w p with Timer _ => true | Ticker _ => false end.
Proof. intros Ha. unfold is_timer. by rewrite (allocated_deref w p Ha). Qed.

Lemma advance_loop_fires_timer (fuel : nat) (end_ : instant) (T : ptr) (w w' : world) :
  advance_loop fuel end_ w = Some w' ->
  queue_ok w ->
  In T (waiters (inner w)) ->
  is_timer w T = true ->
  expiration w T <= end_ ->
  fires_timer end_ T w w'.
Proof.
  revert fuel w w'.
  apply (advance_loop_induction end_
           (fun w w' => queue_ok w -> In T (waiters (inner w)) ->
                        is_timer w T = true -> expiration w T <= end_ ->
                        fires_timer end_ T w w')).
  - intros w Hdone Hok Hin _ Hdue. exfalso.
    pose proof (loop_done_none_due end_ w Hdone Hok) as Hnone.
    apply (proj1 (List.Forall_forall _ _) Hnone) in Hin. simpl in Hin. lia.
  - intros w e rest w' Hq Hedue [fuel Hrun] IH Hok Hin Htimer Hdue.
    destruct (decide (e = T)) as [->|Hne].
    + assert (Hal : allocated w T) by (apply allocated_kind; by left).
      pose proof (allocated_deref w T Hal) as Hd.
      assert (Ho : exists o, deref w T = Timer o).
      { unfold is_timer in Htimer. rewrite Hd in Htimer.
        destruct (deref w T) as [o|o]; [by exists o|done]. }
      destruct Ho as [o Ho].
      destruct (advance_step_timer T rest w o Ho) as (Hf4 & Hw4 & Hd4).
      assert (Hexp : expiration w T = tm_exp o) by (unfold expiration; by rewrite Ho).
      assert (Hnin : ~ In T rest).
      { destruct Hok as (Hnd & _). rewrite Hq in Hnd.
        apply NoDup_cons in Hnd as [Hnin _]. by intros ?%list_elem_of_In. }
      destruct (advance_loop_skips fuel end_ T _ w' Hrun)
        as (evs & Hlog & Hnone & Hderef & Hiff).
      { rewrite Hw4. done. }
      exists ((T, tm_exp o) :: evs).
      split; [rewrite Hlog, Hf4, <- app_assoc; done|]. split; [|split].
      * rewrite firings_of_cons. simpl. rewrite Nat.eqb_refl.
        by rewrite firings_of_none, Hexp.
      * rewrite Hiff, Hw4. done.
      * intros o' Ho'. rewrite Ho in Ho'. injection Ho' as <-.
        by rewrite Hderef, Hd4.
    + rewrite Hq in Hin. destruct Hin as [?|Hin]; [done|].
      destruct (queue_ok_advance_step e rest w Hq Hok) as [Hok4 _].
      assert (HT : T <> e) by congruence.
      destruct IH as (evs & Hlog & Hfir & Hnin' & Ho'); try done.
      * destruct (advance_step_waiters e rest w) as [Hr|(idx & d & _ & Hr & _)];
          rewrite Hr; [done|]. apply in_slices_Insert. by right.
      * assert (Hal : allocated w T) by (apply allocated_kind; by left).
        pose proof (advance_step_deref e rest w T HT) as Hd.
        destruct Hok4 as (_ & _ & Ha4).
        assert (Hal4 : allocated (advance_step e rest w) T).
        { apply (proj1 (List.Forall_forall _ _) Ha4).
          destruct (advance_step_waiters e rest w) as [Hr|(idx & d & _ & Hr & _)];
            rewrite Hr; [done|]. apply in_slices_Insert. by right. }
        rewrite is_timer_deref in Htimer by done.
        rewrite is_timer_deref by done. by rewrite Hd.
      * by rewrite advance_step_expiration.
      * destruct (advance_step_fired e rest w) as (extra & Hlog4 & Hextra).
        rewrite advance_step_expiration in Hfir by done.
        exists ((e, expiration w e) :: extra ++ evs).
        split; [rewrite Hlog, Hlog4, <- app_assoc; done|]. split; [|split; [done|]].
        -- rewrite firings_of_cons. simpl. rewrite (proj2 (Nat.eqb_neq e T)) by done.
           rewrite firings_of_app, Hfir, firings_of_none; [done|].
           eapply Forall_impl; [exact Hextra|]. by intros y ->.
        -- intros o Ho. apply Ho'. by rewrite advance_step_deref.
Qed.

(** A timer made by [NewTimer d], [d > 0]: where it is and what it holds. *)
Lemma NewTimer_pending (w : world) (d : Duration) :
  0 < d ->
  exists ft w1, NewTimer d w = Returns ft w1 /\
    heap w !! ft = None /\
    In ft (waiters (inner w1)) /\
    deref w1 ft = Timer (mkFakeTimer None (time (inner w) + d) None) /\
    time (inner w1) = time (inner w) /\
    fired w1 = fired w.
Proof.
  intros Hd. unfold NewTimer, newTimer, newFakeTimer.
  set (ft := fresh (dom (heap w))).
  set (w0 := with_heap (<[ft := Timer (mkFakeTimer None 0 None)]> (heap w)) w).
  exists ft, (setExpirer ft d w0). split; [done|].
  split; [apply fresh_unallocated|].
  destruct (setExpirer_pos_heap ft d w0 Hd) as [Hh Hf].
  split; [|split; [|split]].
  - destruct (setExpirer_pos_waiters ft d w0 Hd) as (idx & _ & ->).
    apply in_slices_Insert. by left.
  - unfold deref. rewrite Hh. unfold setExpiration.
    assert (Hd0 : deref w0 ft = Timer (mkFakeTimer None 0 None))
      by apply deref_with_heap_eq.
    rewrite Hd0. simpl. by rewrite lookup_total_insert_eq.
  - by rewrite setExpirer_time.
  - by rewrite Hf.
Qed.

(** With exact additions, a timer made by [NewTimer d], [d > 0], on a
    clock reached without resetting a pending ticker fires exactly once,
    at [time + d], in an [Advance d'] with [d <= d']. *)
Lemma NewTimer_delivers_exact (w : world) (d d' : Duration) :
  reachable_clean w -> 0 < d -> d <= d' ->
  exists ft w1 w2,
    NewTimer d w = Returns ft w1 /\
    Advance d' w1 = Returns tt w2 /\
    firings_of ft (fired w2) = firings_of ft (fired w) ++ [(ft, time (inner w) + d)] /\
    chan w2 ft = Some (time (inner w) + d) /\
    ~ In ft (waiters (inner w2)) /\
    time (inner w2) = time (inner w) + d'.
Proof.
  intros Hc Hd Hle.
  destruct (NewTimer_pending w d Hd) as (ft & w1 & Hnew & _ & Hin & Hderef & Ht & Hf).
  assert (Hc1 : reachable_clean w1).
  { apply (clean_op (OpNewTimer d) w); [done|done|exact I|].
    simpl. unfold exec. by rewrite Hnew. }
  destruct (reachable_clean_regular w1 Hc1) as [Hok1 _].
  destruct (Advance_returns d' w1) as (w2 & Hloop & Hadv).
  assert (Hexp : expiration w1 ft = time (inner w) + d)
    by (unfold expiration; by rewrite Hderef).
  destruct (advance_loop_fires_timer _ _ ft w1 w2 Hloop Hok1 Hin)
    as (evs & Hlog & Hfir & Hnin & Hd2).
  { unfold is_timer.
    assert (Hal : allocated w1 ft).
    { destruct Hok1 as (_ & _ & Ha). by apply (proj1 (List.Forall_forall _ _) Ha). }
    by rewrite (allocated_deref _ _ Hal), Hderef. }
  { rewrite Hexp, Ht. lia. }
  exists ft, w1, (set_time (time (inner w1) + d') w2).
  split; [done|]. split; [done|]. split; [|split; [|split]].
  - change (fired (set_time (time (inner w1) + d') w2)) with (fired w2).
    by rewrite Hlog, firings_of_app, Hfir, Hf, Hexp.
  - specialize (Hd2 _ Hderef). simpl in Hd2. unfold chan.
    change (deref (set_time (time (inner w1) + d') w2) ft) with (deref w2 ft).
    by rewrite Hd2.
  - exact Hnin.
  - simpl. by rewrite Ht.
Qed.

(** With exact additions, a timer made by [NewTimer d] with [d > 0] is
    not fired by an [Advance d'] with [d' < d]. *)
Lemma NewTimer_not_fired_early_exact (w : world) (d d' : Duration) :
  0 < d -> d' < d ->
  exists ft w1 w2 evs,
    NewTimer d w = Returns ft w1 /\
    Advance d' w1 = Returns tt w2 /\
    fired w2 = fired w1 ++ evs /\
    Forall (fun x => fst x <> ft) evs /\
    In ft (waiters (inner w2)) /\
    chan w2 ft = None /\
    expiration w2 ft = time (inner w) + d.
Proof.
  intros Hd Hlt.
  destruct (NewTimer_pending w d Hd) as (ft & w1 & Hnew & _ & Hin & Hderef & Ht & Hf).
  destruct (Advance_returns d' w1) as (w2 & Hloop & Hadv).
  assert (Hexp : expiration w1 ft = time (inner w) + d)
    by (unfold expiration; by rewrite Hderef).
  destruct (advance_loop_skips _ _ ft w1 w2 Hloop)
    as (evs & Hlog & Hnone & Hd2 & Hiff).
  { intros _. rewrite Hexp, Ht. lia. }
  exists ft, w1, (set_time (time (inner w1) + d') w2), evs.
  split; [done|]. split; [done|]. split; [done|]. split; [done|].
  split; [by apply Hiff|].
  unfold chan, expiration.
  change (deref (set_time (time (inner w1) + d') w2) ft) with (deref w2 ft).
  by rewrite Hd2, Hderef.
Qed.

(** ** Stopping and resetting a timer *)

Lemma first_occurrence_unique (e : ptr) (a a' b b' : list ptr) :
  ~ In e a -> ~ In e a' ->
  a ++ e :: b = a' ++ e :: b' ->
  a = a' /\ b = b'.
Proof.
  revert a'. induction a as [|x a IH]; intros a' Ha Ha' Heq.
  - destruct a' as [|y a']; simpl in Heq.
    + by injection Heq as ->.
    + injection Heq as <- _. exfalso. apply Ha'. by left.
  - destruct a' as [|y a']; simpl in Heq.
    + injection Heq as -> _. exfalso. apply Ha. by left.
    + injection Heq as -> Heq.
      destruct (IH a') as [-> ->]; try done.
      * intros Hin. apply Ha. by right.
      * intros Hin. apply Ha'. by right.
Qed.

Lemma reachable_fresh_not_queued (w : world) :
  reachable w -> ~ In (fresh (dom (heap w))) (waiters (inner w)).
Proof.
  intros Hr Hin. destruct (reachable_timers_once w Hr) as [Hall _].
  apply (proj1 (List.Forall_forall _ _) Hall) in Hin as [x Hx].
  pose proof (fresh_unallocated w). congruence.
Qed.

(** X7. On every reachable clock, making a timer with [d > 0] and
    stopping it gives the queue back as it was: [Stop] reports true,
    the queue, the time and the firing log are those from before
    [NewTimer], and the timer's channel is empty. *)
Theorem NewTimer_then_Stop_restores_queue (w : world) (d : Duration) :
  reachable w -> 0 < d ->
  exists ft w1 w2,
    NewTimer d w = Returns ft w1 /\
    fakeTimer_Stop ft w1 = Returns true w2 /\
    waiters (inner w2) = waiters (inner w) /\
    time (inner w2) = time (inner w) /\
    fired w2 = fired w /\
    chan w2 ft = None.
Proof.
  intros Hr Hd. pose proof (reachable_fresh_not_queued w Hr) as Hfresh.
  destruct (NewTimer_pending w d Hd) as (ft & w1 & Hnew & _ & Hin & Hderef & Ht & Hf).
  assert (Hft : ft = fresh (dom (heap w))).
  { unfold NewTimer, newTimer, newFakeTimer in Hnew. by injection Hnew as <- _. }
  assert (Hq1 : exists idx, waiters (inner w1) = slices_Insert (waiters (inner w)) idx ft).
  { unfold NewTimer, newTimer, newFakeTimer in Hnew. injection Hnew as _ <-.
    destruct (setExpirer_pos_waiters (fresh (dom (heap w))) d
                (with_heap (<[fresh (dom (heap w)) := Timer (mkFakeTimer None 0 None)]> (heap w)) w) Hd)
      as (idx & _ & Hq). exists idx. by rewrite Hft. }
  destruct Hq1 as [idx Hq1]. rewrite <- Hft in Hfresh.
  unfold fakeTimer_Stop, stop.
  destruct (stopExpirer_spec ft w1) as [[Hnin _]|(l1 & l2 & Hq & Hnin & Hstop)];
    [done|].
  exists ft, w1, (set_waiters (l1 ++ l2) w1).
  split; [exact Hnew|]. split; [by rewrite Hstop|].
  rewrite Hq1 in Hq. unfold slices_Insert in Hq.
  assert (Hntake : ~ In ft (take idx (waiters (inner w)))).
  { intros Hi. apply Hfresh. rewrite <- (take_drop idx (waiters (inner w))).
    apply in_or_app. by left. }
  destruct (first_occurrence_unique ft _ _ _ _ Hntake Hnin Hq) as [<- <-].
  split; [simpl; by rewrite take_drop|]. split; [exact Ht|]. split; [exact Hf|].
  unfold chan. change (deref (set_waiters _ w1) ft) with (deref w1 ft).
  by rewrite Hderef.
Qed.

Lemma NewTimer_then_Stop_restores_queue_witness :
  reachable ticker_reset10_timer7 /\ 0 < 4 /\
  exists ft w1 w2,
    NewTimer 4 ticker_reset10_timer7 = Returns ft w1 /\
    fakeTimer_Stop ft w1 = Returns true w2 /\
    waiters (inner w2) = waiters (inner ticker_reset10_timer7).
Proof.
  split; [exact ticker_reset10_timer7_reachable|]. split; [lia|].
  destruct (NewTimer_then_Stop_restores_queue ticker_reset10_timer7 4
              ticker_reset10_timer7_reachable)
    as (ft & w1 & w2 & Hnew & Hstop & Hq & _); [lia|].
  exists ft, w1, w2. split; [exact Hnew|]. split; [exact Hstop|exact Hq].
Defined.



(** With exact additions, [Reset d] with [d > 0] on a timer of a
    reachable clock reports whether the timer was pending and leaves it
    in the queue exactly once, due at [time + d]. *)
Lemma timer_Reset_rearms_exact (w : world) (f : ptr) (d : Duration) :
  reachable w -> is_timer w f = true -> 0 < d ->
  exists b w', fakeTimer_Reset f d w = Returns b w' /\
    (b = true <-> In f (waiters (inner w))) /\
    occurrences f w' = 1%nat /\
    expiration w' f = time (inner w) + d /\
    time (inner w') = time (inner w).
Proof.
  intros Hr Hf Hd.
  destruct (timer_Reset_queues_once f d w Hr Hf Hd) as (w' & Hrun & Hiff & Hocc).
  exists (fst (stopExpirer f w)), w'.
  split; [done|]. split; [done|]. split; [done|].
  unfold fakeTimer_Reset in Hrun.
  destruct (stopExpirer_heap f w) as (_ & Ht & _).
  destruct (stopExpirer f w) as [stopped w1]. simpl in *.
  injection Hrun as <-.
  rewrite setExpirer_pos_expiration by done. rewrite decide_True by done.
  rewrite setExpirer_time. by rewrite Ht.
Qed.

(** ** A timer that is reset after every firing *)

Lemma try_send_full (c : option instant) (x y : instant) :
  try_send (try_send c x) y = try_send c x.
Proof. by destruct c. Qed.

Lemma rearm_round (d : Duration) (T : ptr) (w : world) :
  0 < d -> regular w ->
  In T (waiters (inner w)) ->
  deref w T = Timer (mkFakeTimer None (time (inner w) + d) None) ->
  exists w1 w2 w',
    Advance d w = Returns tt w1 /\
    drain T w1 = Returns (Some (time (inner w) + d)) w2 /\
    fakeTimer_Reset T d w2 = Returns false w' /\
    time (inner w2) = time (inner w) + d /\
    regular w' /\
    In T (waiters (inner w')) /\
    deref w' T = Timer (mkFakeTimer None (time (inner w') + d) None) /\
    time (inner w') = time (inner w) + d /\
    firings_of T (fired w') = firings_of T (fired w) ++ [(T, time (inner w) + d)].
Proof.
  intros Hd [Hok Hfut] Hin Ho.
  assert (Hexp : expiration w T = time (inner w) + d)
    by (unfold expiration; by rewrite Ho).
  assert (Hal : allocated w T).
  { destruct Hok as (_ & _ & Ha). by apply (proj1 (List.Forall_forall _ _) Ha). }
  assert (Htimer : is_timer w T = true) by (rewrite is_timer_deref, Ho; done).
  destruct (Advance_returns d w) as (w1 & Hloop & Hadv).
  pose proof (advance_loop_regular _ _ _ _ Hloop Hok) as Hreg1.
  destruct (advance_loop_fires_timer _ _ T w w1 Hloop Hok Hin Htimer)
    as (evs & Hlog & Hfir & Hnin & Ho1); [lia|].
  specialize (Ho1 _ Ho). simpl in Ho1. rewrite Hexp in Hfir.
  set (w2 := set_time (time (inner w) + d) w1) in *.
  assert (Ho2 : deref w2 T = Timer (mkFakeTimer (Some (time (inner w) + d))
                                      (time (inner w) + d) None)) by done.
  assert (Hdrain : exists w3, drain T w2 = Returns (Some (time (inner w) + d)) w3 /\
            inner w3 = inner w2 /\ fired w3 = fired w2 /\
            deref w3 T = Timer (mkFakeTimer None (time (inner w) + d) None)).
  { unfold drain, chan. rewrite Ho2. eexists. split; [reflexivity|].
    repeat split. by rewrite deref_with_heap_eq. }
  destruct Hdrain as (w3 & Hdr & Hi3 & Hf3 & Ho3).
  assert (Hreg3 : regular w3).
  { apply (regular_drain T w2); [|done]. unfold exec. by rewrite Hdr. }
  assert (Hnin3 : ~ In T (waiters (inner w3))) by (by rewrite Hi3).
  destruct (stopExpirer_queue T w3) as [_ Hno].
  destruct (Hno Hnin3) as [Hfst Hsnd].
  exists w2, w3, (setExpirer T d w3). split; [exact Hadv|]. split; [exact Hdr|].
  split.
  { unfold fakeTimer_Reset.
    destruct (stopExpirer T w3) as [b w4]. simpl in *. by subst. }
  split; [by rewrite Hi3|].
  destruct (setExpirer_pos_heap T d w3 Hd) as [Hh Hf].
  split; [|split; [|split; [|split]]].
  - apply regular_setExpirer; [by intros _|done].
  - destruct (setExpirer_pos_waiters T d w3 Hd) as (idx & _ & ->).
    apply in_slices_Insert. by left.
  - unfold deref. rewrite Hh, setExpirer_time. unfold setExpiration.
    rewrite Ho3. simpl. by rewrite lookup_total_insert_eq.
  - rewrite setExpirer_time, Hi3. done.
  - rewrite Hf, Hf3. change (fired w2) with (fired w1).
    by rewrite Hlog, firings_of_app, Hfir.
Qed.

(** ** Tickers *)

Lemma advance_round (p : Duration) (T : ptr) (c : option instant) (w : world) :
  0 < p -> regular w ->
  In T (waiters (inner w)) ->
  deref w T = Ticker (mkFakeTicker c (time (inner w) + p) p) ->
  exists w',
    Advance p w = Returns tt w' /\
    regular w' /\
    In T (waiters (inner w')) /\
    deref w' T = Ticker (mkFakeTicker (try_send c (time (inner w) + p))
                                      (time (inner w') + p) p) /\
    time (inner w') = time (inner w) + p /\
    firings_of T (fired w') = firings_of T (fired w) ++ [(T, time (inner w) + p)].
Proof.
  intros Hp [Hok Hfut] Hin Ho.
  assert (Hexp : expiration w T = time (inner w) + p)
    by (unfold expiration; by rewrite Ho).
  assert (Hch : chan w T = c) by (unfold chan; by rewrite Ho).
  destruct (Advance_returns p w) as (w1 & Hloop & Hadv).
  pose proof (advance_loop_regular _ _ _ _ Hloop Hok) as Hreg1.
  destruct (advance_loop_fires_once _ _ T p w w1 Hloop Hok Hin)
    as (evs & Hlog & Hfir & Hin1 & Ho1); [by eexists|lia|].
  rewrite Hexp in Hfir. rewrite Hexp, Hch in Ho1.
  exists (set_time (time (inner w) + p) w1).
  split; [done|]. split; [done|]. split; [done|]. split; [|split; [done|]].
  - change (deref (set_time (time (inner w) + p) w1) T) with (deref w1 T).
    by rewrite Ho1.
  - change (fired (set_time (time (inner w) + p) w1)) with (fired w1).
    by rewrite Hlog, firings_of_app, Hfir.
Qed.

(** With exact additions, [fakeTicker.Reset] as it is written: it never
    takes an entry out of the queue; with [d > 0] the ticker gets one
    more entry, with [d <= 0] it is fired once at the current time. *)
Lemma fakeTicker_Reset_effect_exact (w : world) (f : ptr) (d : Duration) (o : fakeTicker) :
  deref w f = Ticker o ->
  exists w', fakeTicker_Reset f d w = Returns tt w' /\
    time (inner w') = time (inner w) /\
    (0 < d ->
       occurrences f w' = S (occurrences f w) /\
       queue_len w' = queue_len w + 1 /\
       deref w' f = Ticker (mkFakeTicker (tk_c o) (time (inner w) + d) d) /\
       fired w' = fired w) /\
    (d <= 0 ->
       waiters (inner w') = waiters (inner w) /\
       deref w' f = Ticker (mkFakeTicker (try_send (tk_c o) (time (inner w)))
                                         (tk_exp o) d) /\
       fired w' = fired w ++ [(f, time (inner w))]).
Proof.
  intros Ho. unfold fakeTicker_Reset. eexists. split; [reflexivity|].
  destruct (set_d_kept f d w) as [_ Hi].
  assert (Ho1 : deref (set_d f d w) f = Ticker (mkFakeTicker (tk_c o) (tk_exp o) d)).
  { unfold set_d. rewrite Ho. apply deref_with_heap_eq. }
  assert (Hf1 : fired (set_d f d w) = fired w).
  { unfold set_d. by rewrite Ho. }
  split; [by rewrite setExpirer_time, Hi|]. split.
  - intros Hd. destruct (setExpirer_pos_heap f d (set_d f d w) Hd) as [Hh Hf].
    split; [|split; [|split]].
    + rewrite setExpirer_occurrences, decide_True by done.
      unfold occurrences. rewrite Hi. lia.
    + rewrite setExpirer_queue_len, (proj2 (Z.leb_gt d 0) Hd).
      unfold queue_len. by rewrite Hi.
    + unfold deref. rewrite Hh. unfold setExpiration. rewrite Ho1. simpl.
      by rewrite lookup_total_insert_eq, Hi.
    + by rewrite Hf, Hf1.
  - intros Hd. rewrite setExpirer_nonpos by done.
    rewrite expire_inner, expire_fired, Hi, Hf1. split; [done|]. split; [|done].
    destruct (expire_Ticker f (time (inner w)) (set_d f d w) _ Ho1) as (_ & _ & Hh).
    unfold deref. rewrite Hh. by rewrite lookup_total_insert_eq.
Qed.




(** ** The order of firings *)

(** With exact additions, [Advance d] on a clock reached without
    resetting a pending ticker fires in non-decreasing order of instant,
    between the old time and the new one, and every entry that was due. *)
Lemma Advance_fires_due_in_order_exact (w : world) (d : Duration) :
  reachable_clean w ->
  exists w' evs, Advance d w = Returns tt w' /\
    fired w' = fired w ++ evs /\
    StronglySorted Z.le (map snd evs) /\
    Forall (fun x => time (inner w) < snd x <= time (inner w) + d) evs /\
    (forall p, In p (waiters (inner w)) ->
               expiration w p <= time (inner w) + d ->
               In (p, expiration w p) evs) /\
    queue_future w'.
Proof.
  intros Hc. destruct (reachable_clean_regular w Hc) as [Hok Hfut].
  destruct (Advance_on_ok_queue d w Hok) as (w1 & Hadv & Hfir & _ & Hfut').
  destruct Hfir as (evs & Hlog & _ & Hle & Hsorted & Hlo & Hdue & _).
  exists (set_time (time (inner w) + d) w1), evs.
  split; [done|]. split; [done|]. split; [done|]. split; [|by split].
  assert (Hlow : Forall (fun x => time (inner w) + 1 <= snd x) evs).
  { apply Hlo. eapply Forall_impl; [exact Hfut|]. simpl. intros p Hp. lia. }
  apply List.Forall_forall. intros x Hx.
  pose proof (proj1 (List.Forall_forall _ _) Hle x Hx).
  pose proof (proj1 (List.Forall_forall _ _) Hlow x Hx). simpl in *. lia.
Qed.

(** ** A timer for a given instant *)

(** X17. [newTimerAtTime t] allocates a timer and, when [t] is after the
    current time, queues it for [t] itself, or for the current time plus
    the greatest duration when [t] is further away than that; when [t]
    is not after the current time the timer fires at once, at the
    current time, and is not queued. *)
Theorem newTimerAtTime_schedules_at (w : world) (t : instant) (f : option func) :
  exists ft w', newTimerAtTime t f w = Returns ft w' /\
    heap w !! ft = None /\
    time (inner w') = time (inner w) /\
    (time (inner w) < t ->
       In ft (waiters (inner w')) /\
       expiration w' ft = Z.min t (time (inner w) + maxDuration) /\
       fired w' = fired w) /\
    (t <= time (inner w) ->
       waiters (inner w') = waiters (inner w) /\
       fired w' = fired w ++ [(ft, time (inner w))]).
Proof.
  unfold newTimerAtTime, newFakeTimer.
  set (ft := fresh (dom (heap w))).
  set (w0 := with_heap (<[ft := Timer (mkFakeTimer None 0 f)]> (heap w)) w).
  exists ft, (setExpirer ft (time_Sub t (time (inner w0))) w0).
  split; [done|]. split; [apply fresh_unallocated|].
  split; [by rewrite setExpirer_time|].
  change (time (inner w0)) with (time (inner w)).
  split.
  - intros Hlt.
    assert (Hsub : 0 < time_Sub t (time (inner w)) /\
                   time (inner w) + time_Sub t (time (inner w)) =
                   Z.min t (time (inner w) + maxDuration)).
    { unfold time_Sub, minDuration, maxDuration.
      rewrite (proj2 (Z.ltb_ge _ _)) by lia.
      destruct (Z.ltb_spec (2 ^ 63 - 1) (t - time (inner w))); lia. }
    destruct Hsub as [Hpos Hsum].
    destruct (setExpirer_pos_waiters ft _ w0 Hpos) as (idx & _ & Hq).
    destruct (setExpirer_pos_heap ft _ w0 Hpos) as [_ Hf].
    split; [|split].
    + rewrite Hq. apply in_slices_Insert. by left.
    + rewrite setExpirer_pos_expiration, decide_True by done.
      exact Hsum.
    + by rewrite Hf.
  - intros Hle.
    assert (Hsub : time_Sub t (time (inner w)) <= 0).
    { unfold time_Sub, minDuration, maxDuration.
      destruct (Z.ltb_spec (t - time (inner w)) (- 2 ^ 63)); [lia|].
      destruct (Z.ltb_spec (2 ^ 63 - 1) (t - time (inner w))); lia. }
    rewrite setExpirer_nonpos by done.
    by rewrite expire_inner, expire_fired.
Qed.

(** ** Blockers *)

(** X19. On every reachable clock no channel of a blocker has been
    closed twice, and the channel of a blocker that is still registered
    has not been closed: the [close] in [setExpirer] never meets a
    closed channel. *)
Theorem blocker_channels_closed_once (w : world) :
  reachable w ->
  NoDup (closed w) /\
  forall b, In b (blockers (inner w)) -> ~ notified b w.
Proof.
  intros Hr. destruct (reachable_registry w Hr) as [_ [Hnd _]].
  apply NoDup_app in Hnd as (_ & Hdisj & Hcl). split; [done|].
  intros b Hb Hn. apply (Hdisj (b_ch b)).
  - apply list_elem_of_In, in_map_iff. by exists b.
  - by apply list_elem_of_In.
Qed.

Lemma blocker_channels_closed_once_witness :
  reachable timer5_blocker3 /\ NoDup (closed timer5_blocker3).
Proof.
  assert (Hr : reachable timer5_blocker3).
  { apply (reach_op (OpNewBlocker 3) timer5);
      [|vm_compute; reflexivity|vm_compute; reflexivity].
    apply (reach_op (OpNewTimer 5) (NewFakeClockAt 0));
      [|vm_compute; reflexivity|vm_compute; reflexivity].
    apply reach_new. }
  split; [exact Hr|].
  exact (proj1 (blocker_channels_closed_once timer5_blocker3 Hr)).
Defined.

(** ** The time *)

(** X20. Only [Advance] moves the time: making, resetting, stopping and
    receiving from timers and tickers, and registering a blocker, all
    leave it as it is, also when they fire an expirer on the spot. *)
Theorem only_Advance_moves_time (o : op) (w w' : world) :
  (forall d, o <> OpAdvance d) ->
  run_op o w = Some w' ->
  time (inner w') = time (inner w).
Proof.
  intros Hna. destruct o as [d|d f|d|f d|f|f d|f|d|n|e]; simpl; unfold exec.
  - unfold NewTimer, newTimer, newFakeTimer. intros [= <-]. by rewrite setExpirer_time.
  - unfold AfterFunc, newTimer, newFakeTimer. intros [= <-]. by rewrite setExpirer_time.
  - unfold NewTicker, newFakeTicker. destruct (d <=? 0); [done|].
    intros [= <-]. by rewrite setExpirer_time.
  - unfold fakeTimer_Reset. destruct (stopExpirer f w) as [b w1] eqn:Hs.
    intros [= <-]. rewrite setExpirer_time.
    destruct (stopExpirer_heap f w) as (_ & Ht & _). by rewrite Hs in Ht.
  - unfold fakeTimer_Stop, stop. destruct (stopExpirer f w) as [b w1] eqn:Hs.
    intros [= <-]. destruct (stopExpirer_heap f w) as (_ & Ht & _). by rewrite Hs in Ht.
  - unfold fakeTicker_Reset. intros [= <-]. rewrite setExpirer_time.
    by rewrite (proj2 (set_d_kept f d w)).
  - unfold fakeTicker_Stop. destruct (stopExpirer f w) as [b w1] eqn:Hs.
    intros [= <-]. destruct (stopExpirer_heap f w) as (_ & Ht & _). by rewrite Hs in Ht.
  - by destruct (Hna d).
  - unfold newBlocker. destruct (_ <? n); by intros [= <-].
  - unfold drain. destruct (deref w e); by intros [= <-].
Qed.

Lemma only_Advance_moves_time_witness :
  (forall d, OpTimerReset 1%nat (- 4) <> OpAdvance d) /\
  run_op (OpTimerReset 1%nat (- 4)) ticker5_timer7 =
    Some (setExpirer 1%nat (- 4) (snd (stopExpirer 1%nat ticker5_timer7))) /\
  time (inner (setExpirer 1%nat (- 4) (snd (stopExpirer 1%nat ticker5_timer7)))) =
    time (inner ticker5_timer7).
Proof.
  assert (Hna : forall d, OpTimerReset 1%nat (- 4) <> OpAdvance d) by (intros d; discriminate).
  assert (Hrun : run_op (OpTimerReset 1%nat (- 4)) ticker5_timer7 =
    Some (setExpirer 1%nat (- 4) (snd (stopExpirer 1%nat ticker5_timer7))))
    by (vm_compute; reflexivity).
  split; [exact Hna|]. split; [exact Hrun|].
  exact (only_Advance_moves_time _ _ _ Hna Hrun).
Defined.

(** ** Callbacks *)

Lemma callbacks_step_refl (w : world) : callbacks_step w w.
Proof.
  split; [done|]. split; [done|]. exists []. by rewrite !app_nil_r.
Qed.

Lemma callbacks_kept (w w' : world) (evs : list (ptr * instant)) :
  (forall e, allocated w e ->
             allocated w' e /\ callback_of w' e = callback_of w e) ->
  Forall (fun x => allocated w (fst x)) evs ->
  Forall (fun x => allocated w' (fst x)) evs /\ callbacks w' evs = callbacks w evs.
Proof.
  intros Hk. induction 1 as [|x evs Hx _ [IH1 IH2]]; [done|].
  destruct (Hk _ Hx) as [Ha Hc]. split; [by constructor|].
  change (callbacks w' (x :: evs))
    with (match callback_of w' (fst x) with
          | Some f => f :: callbacks w' evs
          | None => callbacks w' evs
          end).
  change (callbacks w (x :: evs))
    with (match callback_of w (fst x) with
          | Some f => f :: callbacks w evs
          | None => callbacks w evs
          end).
  by rewrite Hc, IH2.
Qed.

Lemma callbacks_step_trans (w1 w2 w3 : world) :
  callbacks_step w1 w2 -> callbacks_step w2 w3 -> callbacks_step w1 w3.
Proof.
  intros (Hk1 & Hs1 & evs1 & Hf1 & Ha1 & Hsp1) (Hk2 & Hs2 & evs2 & Hf2 & Ha2 & Hsp2).
  split; [|split].
  - intros e He. destruct (Hk1 e He) as [He2 Hc2].
    destruct (Hk2 e He2) as [He3 Hc3]. split; [done|congruence].
  - auto.
  - exists (evs1 ++ evs2). destruct (callbacks_kept w2 w3 evs1 Hk2 Ha1) as [Ha1' Hc1'].
    split; [by rewrite Hf2, Hf1, <- app_assoc|]. split.
    + apply Forall_app. by split.
    + unfold callbacks in *. by rewrite omap_app, Hc1', Hsp2, Hsp1, <- app_assoc.
Qed.

Lemma callbacks_step_frame (w w' : world) :
  heap w' = heap w -> fired w' = fired w -> spawned w' = spawned w ->
  callbacks_step w w'.
Proof.
  intros Hh Hf Hs. split; [|split].
  - intros e He. unfold allocated, callback_of. by rewrite Hh.
  - intros Hsil e. unfold callback_of, chan, deref. rewrite Hh. apply Hsil.
  - exists []. by rewrite Hf, Hs, !app_nil_r.
Qed.

Lemma callbacks_step_store (w w' : world) (e : ptr) (x : expirer) :
  heap w' = <[e := x]> (heap w) ->
  fired w' = fired w -> spawned w' = spawned w ->
  (allocated w e -> expirer_callback x = callback_of w e) ->
  (afterfunc_silent w -> expirer_callback x <> None -> expirer_chan x = None) ->
  callbacks_step w w'.
Proof.
  intros Hh Hf Hs Hcb Hch. split; [|split].
  - intros p Hp. destruct (decide (p = e)) as [->|Hne].
    + split; [unfold allocated; rewrite Hh, lookup_insert_eq; by eexists|].
      rewrite <- (Hcb Hp). unfold callback_of. rewrite Hh, lookup_insert_eq.
      by destruct x.
    + unfold allocated, callback_of. by rewrite Hh, lookup_insert_ne.
  - intros Hsil p Hp. destruct (decide (p = e)) as [->|Hne].
    + unfold callback_of in Hp. rewrite Hh, lookup_insert_eq in Hp.
      unfold chan, deref. rewrite Hh, lookup_total_insert_eq.
      replace (match x with Timer t => tm_c t | Ticker t => tk_c t end)
        with (expirer_chan x) by done.
      apply Hch; [done|]. by destruct x.
    + unfold callback_of in Hp. rewrite Hh, lookup_insert_ne in Hp by done.
      unfold chan, deref. rewrite Hh, lookup_total_insert_ne by done.
      by apply Hsil.
  - exists []. by rewrite Hf, Hs, !app_nil_r.
Qed.

Lemma callback_of_deref (w : world) (e : ptr) :
  allocated w e -> callback_of w e = expirer_callback (deref w e).
Proof.
  intros Ha. unfold callback_of. by rewrite (allocated_deref w e Ha).
Qed.

Lemma callbacks_step_expire (e : ptr) (now : instant) (w : world) :
  allocated w e -> callbacks_step w (snd (expire e now w)).
Proof.
  intros Ha. pose proof (allocated_deref w e Ha) as Hl.
  assert (Hone : forall w' : world,
            callback_of w' e = None -> callbacks w' [(e, now)] = []).
  { intros w' Hc. unfold callbacks. simpl. by rewrite Hc. }
  unfold expire.
  replace (deref (log_fired e now w) e) with (deref w e) by done.
  destruct (deref w e) as [o|o] eqn:Ho; [destruct (tm_afterFunc o) as [f|] eqn:Hf|]; simpl.
  - split; [done|]. split; [done|]. exists [(e, now)]. split; [done|].
    split; [by constructor|]. simpl. f_equal.
    unfold callbacks, callback_of. simpl. by rewrite Hl, Hf.
  - set (x := Timer (mkFakeTimer (try_send (tm_c o) now) (tm_exp o) None)).
    destruct (callbacks_step_store w (with_heap (<[e := x]> (heap w)) w) e x)
      as (Hk & Hs & _); try done.
    { intros _. unfold callback_of. by rewrite Hl, Hf. }
    split; [exact Hk|]. split; [exact Hs|]. exists [(e, now)]. split; [done|].
    split; [constructor; [|done]; exact (proj1 (Hk e Ha))|].
    rewrite Hone; [by rewrite app_nil_r|].
    unfold callback_of. simpl. by rewrite lookup_insert_eq.
  - set (x := Ticker (mkFakeTicker (try_send (tk_c o) now) (tk_exp o) (tk_d o))).
    destruct (callbacks_step_store w (with_heap (<[e := x]> (heap w)) w) e x)
      as (Hk & Hs & _); try done.
    { intros _. unfold callback_of. by rewrite Hl. }
    split; [exact Hk|]. split; [exact Hs|]. exists [(e, now)]. split; [done|].
    split; [constructor; [|done]; exact (proj1 (Hk e Ha))|].
    rewrite Hone; [by rewrite app_nil_r|].
    unfold callback_of. simpl. by rewrite lookup_insert_eq.
Qed.

Lemma callbacks_step_setExpiration (e : ptr) (t : instant) (w : world) :
  callbacks_step w (setExpiration e t w).
Proof.
  unfold setExpiration. destruct (deref w e) as [o|o] eqn:Ho.
  - eapply callbacks_step_store; [reflexivity|done|done| |]; simpl.
    + intros Ha. by rewrite (callback_of_deref w e Ha), Ho.
    + intros Hsil Hcb. specialize (Hsil e). unfold chan in Hsil. rewrite Ho in Hsil.
      apply Hsil. unfold callback_of.
      destruct (heap w !! e) as [y|] eqn:Hy.
      * rewrite (deref_allocated w e y Hy) in Ho. by subst y.
      * unfold deref in Ho. rewrite lookup_total_alt, Hy in Ho. simpl in Ho.
        injection Ho as <-. done.
  - eapply callbacks_step_store; [reflexivity|done|done| |]; simpl; [|done].
    intros Ha. by rewrite (callback_of_deref w e Ha), Ho.
Qed.

Lemma callbacks_step_setExpirer (e : ptr) (d : Duration) (w : world) :
  allocated w e -> callbacks_step w (setExpirer e d w).
Proof.
  intros Ha. unfold setExpirer. destruct (d <=? 0).
  - by apply callbacks_step_expire.
  - eapply callbacks_step_trans; [apply (callbacks_step_setExpiration e (time (inner w) + d))|].
    by apply callbacks_step_frame.
Qed.

Lemma callbacks_step_advance_step (e : ptr) (rest : list ptr) (w : world) :
  allocated w e -> callbacks_step w (advance_step e rest w).
Proof.
  intros Ha. rewrite advance_step_expire.
  set (w2 := set_time (expiration w e) (set_waiters rest w)).
  assert (H2 : callbacks_step w w2) by (by apply callbacks_step_frame).
  assert (H3 : callbacks_step w2 (snd (expire e (expiration w e) w2)))
    by (by apply callbacks_step_expire).
  destruct (fst (expire e (expiration w e) w2)) as [d|].
  - eapply callbacks_step_trans; [exact H2|].
    eapply callbacks_step_trans; [exact H3|].
    apply callbacks_step_setExpirer. apply (proj1 H3). exact Ha.
  - eapply callbacks_step_trans; [exact H2|exact H3].
Qed.

Lemma advance_loop_callbacks (end_ : instant) (fuel : nat) (w w' : world) :
  advance_loop fuel end_ w = Some w' ->
  Forall (allocated w) (waiters (inner w)) ->
  callbacks_step w w'.
Proof.
  revert fuel w w'.
  apply (advance_loop_induction end_
           (fun w w' => Forall (allocated w) (waiters (inner w)) ->
                        callbacks_step w w')).
  - intros w _ _. apply callbacks_step_refl.
  - intros w e rest w' Hq _ _ IH Hall. rewrite Hq in Hall.
    apply Forall_cons in Hall as [He Hrest].
    pose proof (callbacks_step_advance_step e rest w He) as Hstep.
    eapply callbacks_step_trans; [exact Hstep|]. apply IH.
    assert (Hall' : forall p, p = e \/ In p rest -> allocated (advance_step e rest w) p).
    { intros p [->|Hp]; apply (proj1 Hstep); [done|].
      exact (proj1 (List.Forall_forall _ _) Hrest p Hp). }
    apply List.Forall_forall. intros p Hp. apply Hall'.
    destruct (advance_step_waiters e rest w) as [Hr|(idx & d0 & _ & Hr & _)];
      rewrite Hr in Hp; [by right|]. exact (proj1 (in_slices_Insert rest idx e p) Hp).
Qed.

Lemma callbacks_step_alloc (w : world) (x : expirer) :
  expirer_chan x = None ->
  callbacks_step w (with_heap (<[fresh (dom (heap w)) := x]> (heap w)) w).
Proof.
  intros Hx. eapply callbacks_step_store; [reflexivity|done|done| |done].
  intros [y Hy]. pose proof (fresh_unallocated w). congruence.
Qed.

Lemma allocated_stored (w : world) (e : ptr) (x : expirer) :
  allocated (with_heap (<[e := x]> (heap w)) w) e.
Proof. unfold allocated. simpl. rewrite lookup_insert_eq. by eexists. Qed.

Lemma is_timer_allocated (w : world) (e : ptr) :
  is_timer w e = true -> allocated w e.
Proof. intros H. apply allocated_kind. by left. Qed.

Lemma is_ticker_allocated (w : world) (e : ptr) :
  is_ticker w e = true -> allocated w e.
Proof. intros H. apply allocated_kind. by right. Qed.

Lemma callbacks_step_new (w : world) (x : expirer) (d : Duration) :
  expirer_chan x = None ->
  callbacks_step w
    (setExpirer (fresh (dom (heap w))) d
       (with_heap (<[fresh (dom (heap w)) := x]> (heap w)) w)).
Proof.
  intros Hx. eapply callbacks_step_trans; [exact (callbacks_step_alloc w x Hx)|].
  apply callbacks_step_setExpirer, allocated_stored.
Qed.

Lemma op_callbacks (o : op) (w w' : world) :
  timers_once w ->
  receiver_ok o w = true ->
  run_op o w = Some w' ->
  callbacks_step w w'.
Proof.
  intros [Hall _]. destruct o as [d|d f|d|f d|f|f d|f|d|n|e]; simpl; intros Hrecv;
    unfold exec.
  - unfold NewTimer, newTimer, newFakeTimer. intros [= <-].
    by apply callbacks_step_new.
  - unfold AfterFunc, newTimer, newFakeTimer. intros [= <-].
    by apply callbacks_step_new.
  - unfold NewTicker, newFakeTicker. destruct (d <=? 0); [done|]. intros [= <-].
    by apply callbacks_step_new.
  - unfold fakeTimer_Reset. destruct (stopExpirer f w) as [b w1] eqn:Hs.
    intros [= <-]. destruct (stopExpirer_heap f w) as (Hh & _ & Hf & Hsp).
    rewrite Hs in Hh, Hf, Hsp. simpl in *.
    assert (H1 : callbacks_step w w1) by (by apply callbacks_step_frame).
    eapply callbacks_step_trans; [exact H1|].
    apply callbacks_step_setExpirer. apply (proj1 H1). by apply is_timer_allocated.
  - unfold fakeTimer_Stop, stop. destruct (stopExpirer f w) as [b w1] eqn:Hs.
    intros [= <-]. destruct (stopExpirer_heap f w) as (Hh & _ & Hf & Hsp).
    rewrite Hs in Hh, Hf, Hsp. by apply callbacks_step_frame.
  - unfold fakeTicker_Reset. intros [= <-].
    assert (H1 : callbacks_step w (set_d f d w)).
    { unfold set_d. destruct (deref w f) as [o|o] eqn:Ho; [apply callbacks_step_refl|].
      eapply callbacks_step_store; [reflexivity|done|done| |done].
      intros Ha. by rewrite (callback_of_deref w f Ha), Ho. }
    eapply callbacks_step_trans; [exact H1|].
    apply callbacks_step_setExpirer. apply (proj1 H1). by apply is_ticker_allocated.
  - unfold fakeTicker_Stop. destruct (stopExpirer f w) as [b w1] eqn:Hs.
    intros [= <-]. destruct (stopExpirer_heap f w) as (Hh & _ & Hf & Hsp).
    rewrite Hs in Hh, Hf, Hsp. by apply callbacks_step_frame.
  - destruct (Advance_returns d w) as (w1 & Hloop & ->). intros [= <-].
    eapply callbacks_step_trans; [exact (advance_loop_callbacks _ _ _ _ Hloop Hall)|].
    by apply callbacks_step_frame.
  - unfold newBlocker. destruct (_ <? n); intros [= <-];
      [by apply callbacks_step_frame|apply callbacks_step_refl].
  - unfold drain. destruct (deref w e) as [o|o] eqn:Ho; intros [= <-].
    + eapply callbacks_step_store; [reflexivity|done|done| |done].
      intros Ha. by rewrite (callback_of_deref w e Ha), Ho.
    + eapply callbacks_step_store; [reflexivity|done|done| |done].
      intros Ha. by rewrite (callback_of_deref w e Ha), Ho.
Qed.

Lemma reachable_callbacks (w : world) :
  reachable w -> callbacks_ok w /\ afterfunc_silent w.
Proof.
  induction 1 as [t|o w w' Hr [[Hall Hsp] Hsil] Hrecv Hrun].
  - split; [by split|]. intros e He. by destruct He.
  - destruct (op_callbacks o w w' (reachable_timers_once w Hr) Hrecv Hrun)
      as (Hk & Hs & evs & Hf & Ha & Hspw).
    destruct (callbacks_kept w w' (fired w) Hk Hall) as [Hall' Hc].
    split; [|by apply Hs]. split.
    + rewrite Hf. apply Forall_app. by split.
    + rewrite Hspw, Hf, Hsp. unfold callbacks in *. by rewrite omap_app, Hc.
Qed.

Lemma afterfunc5_fired_reachable : reachable afterfunc5_fired.
Proof.
  apply (reach_op (OpAdvance 7)
           (after (_ <~ AfterFunc 5 (Some 8%nat) ;; NewTimer 6)));
    [|vm_compute; reflexivity|vm_compute; reflexivity].
  apply (reach_op (OpNewTimer 6) (after (AfterFunc 5 (Some 8%nat))));
    [|vm_compute; reflexivity|vm_compute; reflexivity].
  apply (reach_op (OpAfterFunc 5 (Some 8%nat)) (NewFakeClockAt 0));
    [|vm_compute; reflexivity|vm_compute; reflexivity].
  apply reach_new.
Qed.

(** X21. On every reachable clock the callbacks started with [go] are
    exactly the callbacks of the firings so far, one for each firing of
    a timer made by [AfterFunc] with a function, in the order of the
    firings; a firing of a plain timer or of a ticker starts nothing. *)
Theorem callbacks_follow_firings (w : world) :
  reachable w ->
  spawned w = callbacks w (fired w) /\
  Forall (fun x => allocated w (fst x)) (fired w).
Proof.
  intros Hr. destruct (reachable_callbacks w Hr) as [[Hall Hsp] _]. by split.
Qed.

Lemma callbacks_follow_firings_witness :
  reachable afterfunc5_fired /\
  fired afterfunc5_fired = [(0%nat, 5); (1%nat, 6)] /\
  spawned afterfunc5_fired = [8%nat] /\
  spawned afterfunc5_fired = callbacks afterfunc5_fired (fired afterfunc5_fired).
Proof.
  split; [exact afterfunc5_fired_reachable|].
  split; [vm_compute; reflexivity|]. split; [vm_compute; reflexivity|].
  exact (proj1 (callbacks_follow_firings afterfunc5_fired afterfunc5_fired_reachable)).
Defined.

(** X22. On every reachable clock the channel of a timer that has a
    callback is empty: such a timer never sends the time, whenever and
    however often it fires. *)
Theorem afterFunc_timer_never_sends (w : world) (e : ptr) (o : fakeTimer) :
  reachable w ->
  heap w !! e = Some (Timer o) ->
  tm_afterFunc o <> None ->
  tm_c o = None.
Proof.
  intros Hr Hl Hf. destruct (reachable_callbacks w Hr) as [_ Hsil].
  specialize (Hsil e). unfold callback_of, chan in Hsil.
  rewrite Hl, (deref_allocated w e _ Hl) in Hsil. by apply Hsil.
Qed.

Lemma afterFunc_timer_never_sends_witness :
  reachable afterfunc5_fired /\
  heap afterfunc5_fired !! 0%nat = Some (Timer (mkFakeTimer None 5 (Some 8%nat))) /\
  Some 8%nat <> None /\
  fired afterfunc5_fired = [(0%nat, 5); (1%nat, 6)] /\
  tm_c (mkFakeTimer None 5 (Some 8%nat)) = None.
Proof.
  assert (Hl : heap afterfunc5_fired !! 0%nat =
               Some (Timer (mkFakeTimer None 5 (Some 8%nat))))
    by (vm_compute; reflexivity).
  assert (Hne : Some 8%nat <> @None func) by discriminate.
  split; [exact afterfunc5_fired_reachable|]. split; [exact Hl|].
  split; [exact Hne|]. split; [vm_compute; reflexivity|].
  exact (afterFunc_timer_never_sends afterfunc5_fired 0%nat _
           afterfunc5_fired_reachable Hl Hne).
Defined.

(** * The code inside the range of [time.Time] *)

(** ** [Time.Add] *)

Lemma int64_wrap_id (x : Z) :
  - 2 ^ 63 <= x <= 2 ^ 63 - 1 -> int64_wrap x = x.
Proof.
  intros Hx. unfold int64_wrap.
  rewrite Z.mod_small by lia. lia.
Qed.

Lemma addSec_exact (ext d : Z) :
  - 2 ^ 63 <= ext + d <= 2 ^ 63 - 1 -> addSec ext d = ext + d.
Proof.
  intros Hs. unfold addSec. rewrite int64_wrap_id by done.
  destruct (Z.ltb_spec ext (ext + d)), (Z.ltb_spec 0 d); simpl; lia.
Qed.

(** Inside the range, [Time.Add] is the addition of the integers. *)
Lemma Time_Add_exact (t : instant) (d : Duration) :
  Time_range t -> Time_range (t + d) -> Time_Add t d = t + d.
Proof.
  unfold Time_range, minTime, maxTime, Time_Add. intros Ht Htd.
  assert (Hn : 0 < nsPerSec) by (unfold nsPerSec; lia).
  pose proof (Z.quot_rem' d nsPerSec) as Hqr.
  pose proof (Z.div_mod t nsPerSec ltac:(lia)) as Hdm.
  pose proof (Z.mod_pos_bound t nsPerSec Hn) as Hm.
  assert (Hr : - nsPerSec < Z.rem d nsPerSec < nsPerSec).
  { assert (Hne : nsPerSec <> 0) by lia.
    pose proof (Z.rem_bound_abs d nsPerSec Hne). lia. }
  set (q := Z.quot d nsPerSec) in *. set (r := Z.rem d nsPerSec) in *.
  set (s := t / nsPerSec) in *. set (n := t mod nsPerSec) in *.
  destruct (Z.leb_spec nsPerSec (n + r)); [|destruct (Z.ltb_spec (n + r) 0)].
  all: rewrite addSec_exact; nia.
Qed.

(** ** The two engines agree inside the range *)

Lemma setExpirer_exact (e : ptr) (d : Duration) (w : world) :
  (0 < d -> Time_range (time (inner w)) /\ Time_range (time (inner w) + d)) ->
  Bounded.setExpirer e d w = setExpirer e d w.
Proof.
  intros H. unfold Bounded.setExpirer, setExpirer.
  destruct (Z.leb_spec d 0) as [Hd|Hd]; [done|].
  destruct (H Hd) as [H1 H2]. by rewrite Time_Add_exact.
Qed.

(** The period of an expirer is changed by nothing but the assignment in
    [fakeTicker.Reset]. *)
Lemma period_store (w : world) (e p : ptr) (x : expirer) :
  expirer_period x = period w e ->
  period (with_heap (<[e := x]> (heap w)) w) p = period w p.
Proof.
  intros Hx. unfold period at 1. destruct (decide (e = p)) as [->|Hne].
  - by rewrite deref_with_heap_eq.
  - by rewrite deref_with_heap_ne.
Qed.

Lemma period_expire (e : ptr) (now : instant) (w : world) (p : ptr) :
  period (snd (expire e now w)) p = period w p.
Proof.
  unfold expire.
  replace (deref (log_fired e now w) e) with (deref w e) by reflexivity.
  destruct (deref w e) as [o|o] eqn:Ho; [destruct (tm_afterFunc o)|]; simpl.
  - reflexivity.
  - apply (period_store (log_fired e now w)). unfold period.
    replace (deref (log_fired e now w) e) with (deref w e) by reflexivity.
    by rewrite Ho.
  - apply (period_store (log_fired e now w)). unfold period.
    replace (deref (log_fired e now w) e) with (deref w e) by reflexivity.
    by rewrite Ho.
Qed.

Lemma period_setExpiration (e : ptr) (t : instant) (w : world) (p : ptr) :
  period (setExpiration e t w) p = period w p.
Proof.
  unfold setExpiration. destruct (deref w e) as [o|o] eqn:Ho.
  all: apply period_store; unfold period; by rewrite Ho.
Qed.

Lemma period_setExpirer (e : ptr) (d : Duration) (w : world) (p : ptr) :
  period (setExpirer e d w) p = period w p.
Proof.
  unfold setExpirer. destruct (d <=? 0); [apply period_expire|].
  exact (period_setExpiration e _ w p).
Qed.

Lemma period_advance_step (e : ptr) (rest : list ptr) (w : world) (p : ptr) :
  period (advance_step e rest w) p = period w p.
Proof.
  rewrite advance_step_expire.
  set (w2 := set_time (expiration w e) (set_waiters rest w)).
  replace (period w p) with (period w2 p) by reflexivity.
  destruct (fst (expire e (expiration w e) w2)) as [d|].
  - by rewrite period_setExpirer, period_expire.
  - by rewrite period_expire.
Qed.

(** What [expire] returns is the period. *)
Lemma expire_fst_period (e : ptr) (now : instant) (w : world) (d : Duration) :
  fst (expire e now w) = Some d -> d = period w e.
Proof.
  unfold expire, period.
  replace (deref (log_fired e now w) e) with (deref w e) by reflexivity.
  destruct (deref w e) as [o|o]; [by destruct (tm_afterFunc o)|].
  simpl. congruence.
Qed.

Lemma expire_fst_None (e : ptr) (now : instant) (w : world) :
  fst (expire e now w) = None -> period w e = 0.
Proof.
  unfold expire, period.
  replace (deref (log_fired e now w) e) with (deref w e) by reflexivity.
  by destruct (deref w e) as [o|o]; [destruct (tm_afterFunc o)|].
Qed.

(** The instant of the head after its iteration: one period later for a
    ticker with a positive period, unchanged otherwise. *)
Lemma advance_step_head (e : ptr) (rest : list ptr) (w : world) :
  expiration (advance_step e rest w) e =
    if 0 <? period w e then expiration w e + period w e else expiration w e.
Proof.
  rewrite advance_step_expire.
  set (w2 := set_time (expiration w e) (set_waiters rest w)).
  assert (Hp2 : period w2 e = period w e) by reflexivity.
  destruct (fst (expire e (expiration w e) w2)) as [d|] eqn:Hfst.
  - apply expire_fst_period in Hfst. rewrite Hp2 in Hfst. subst d.
    destruct (Z.ltb_spec 0 (period w e)) as [Hpos|Hle].
    + rewrite setExpirer_pos_expiration, decide_True by done.
      by rewrite expire_inner.
    + rewrite setExpirer_nonpos by done. by rewrite !expire_expiration.
  - apply expire_fst_None in Hfst. rewrite Hp2 in Hfst. rewrite Hfst. simpl.
    by rewrite expire_expiration.
Qed.

(** One iteration inside the range: the two engines do the same, and the
    queue stays inside the range. *)
Lemma advance_step_exact (end_ : instant) (e : ptr) (rest : list ptr) (w : world) :
  waiters (inner w) = e :: rest ->
  expiration w e <= end_ ->
  queue_in_range w -> periods_le (maxTime - end_) w ->
  Bounded.advance_step e rest w = advance_step e rest w /\
  queue_in_range (advance_step e rest w).
Proof.
  intros Hq Hdue Hin Hper. unfold queue_in_range, periods_le in *.
  rewrite Hq in Hin, Hper.
  apply Forall_cons in Hin as [He Hrest]. apply Forall_cons in Hper as [Hpe _].
  assert (Hnext : 0 < period w e -> Time_range (expiration w e + period w e)).
  { intros Hpos. unfold Time_range in *. lia. }
  split.
  - unfold Bounded.advance_step, advance_step.
    set (w2 := set_time (expiration (set_waiters rest w) e) (set_waiters rest w)).
    destruct (expire e (expiration (set_waiters rest w) e) w2) as [d w3] eqn:Hex.
    destruct d as [d|]; [|done].
    apply setExpirer_exact. intros Hd.
    assert (Hd' : d = period w e).
    { apply (expire_fst_period e (expiration (set_waiters rest w) e) w2).
      by rewrite Hex. }
    assert (Ht3 : time (inner w3) = expiration w e).
    { replace w3 with (snd (expire e (expiration (set_waiters rest w) e) w2))
        by (by rewrite Hex).
      by rewrite expire_inner. }
    rewrite Ht3. subst d. split; [done|]. by apply Hnext.
  - apply List.Forall_forall. intros q Hq'.
    assert (Hq'' : q = e \/ In q rest).
    { destruct (advance_step_waiters e rest w) as [Hr|(idx & d0 & _ & Hr & _)];
        rewrite Hr in Hq'; [by right|].
      exact (proj1 (in_slices_Insert rest idx e q) Hq'). }
    destruct (decide (q = e)) as [->|Hne].
    + rewrite advance_step_head.
      destruct (Z.ltb_spec 0 (period w e)); [by apply Hnext|done].
    + rewrite advance_step_expiration by done.
      destruct Hq'' as [?|Hr]; [done|].
      exact (proj1 (List.Forall_forall _ _) Hrest q Hr).
Qed.

Lemma advance_step_periods (B : Z) (e : ptr) (rest : list ptr) (w : world) :
  waiters (inner w) = e :: rest ->
  periods_le B w -> periods_le B (advance_step e rest w).
Proof.
  intros Hq Hper. unfold periods_le in *. rewrite Hq in Hper.
  apply List.Forall_forall. intros q Hq'. rewrite period_advance_step.
  apply (proj1 (List.Forall_forall _ _) Hper).
  destruct (advance_step_waiters e rest w) as [Hr|(idx & d0 & _ & Hr & _)];
    rewrite Hr in Hq'; [by right|].
  destruct (proj1 (in_slices_Insert rest idx e q) Hq') as [->|?]; [by left|by right].
Qed.

Lemma advance_loop_exact (fuel : nat) (end_ : instant) (w : world) :
  queue_in_range w -> periods_le (maxTime - end_) w ->
  Bounded.advance_loop fuel end_ w = advance_loop fuel end_ w.
Proof.
  revert w. induction fuel as [|fuel IH]; intros w Hin Hper; simpl.
  - reflexivity.
  - destruct (waiters (inner w)) as [|e rest] eqn:Hq; [done|].
    destruct (Z.leb_spec (expiration w e) end_) as [Hdue|Hdue]; [|done].
    destruct (advance_step_exact end_ e rest w Hq Hdue Hin Hper) as [-> Hin'].
    apply IH; [done|]. by apply advance_step_periods.
Qed.

Lemma advance_loop_periods (B : Z) (fuel : nat) (end_ : instant) (w w' : world) :
  advance_loop fuel end_ w = Some w' -> periods_le B w -> periods_le B w'.
Proof.
  revert fuel w w'.
  apply (advance_loop_induction end_
           (fun w w' => periods_le B w -> periods_le B w')).
  - by intros w _ H.
  - intros w e rest w' Hq _ _ IH Hper. apply IH. by apply advance_step_periods.
Qed.

Lemma advance_loop_in_range (fuel : nat) (end_ : instant) (w w' : world) :
  advance_loop fuel end_ w = Some w' ->
  queue_in_range w -> periods_le (maxTime - end_) w ->
  queue_in_range w'.
Proof.
  revert fuel w w'.
  apply (advance_loop_induction end_
           (fun w w' => queue_in_range w -> periods_le (maxTime - end_) w ->
                        queue_in_range w')).
  - by intros w _ H _.
  - intros w e rest w' Hq Hdue _ IH Hin Hper.
    destruct (advance_step_exact end_ e rest w Hq Hdue Hin Hper) as [_ Hin'].
    apply IH; [done|]. by apply advance_step_periods.
Qed.

Lemma advance_in_range_target (d : Duration) (w : world) :
  world_in_range w -> advance_in_range d w ->
  Time_Add (time (inner w)) d = time (inner w) + d.
Proof. intros [Ht _] [Htd _]. by apply Time_Add_exact. Qed.

(** With enough fuel, [Advance] of the code is [Advance] of the engine
    with exact additions. *)
Lemma Advance_exact (fuel : nat) (d : Duration) (w : world) :
  world_in_range w -> advance_in_range d w ->
  (advance_fuel (time (inner w) + d)%Z w <= fuel)%nat ->
  Bounded.Advance fuel d w = Advance d w.
Proof.
  intros Hw Hd Hfuel. pose proof (advance_in_range_target d w Hw Hd) as Hadd.
  destruct Hw as [_ Hq]. destruct Hd as [_ Hper].
  unfold Bounded.Advance. rewrite Hadd, advance_loop_exact by done.
  destruct (Advance_returns d w) as (w1 & Hloop & ->).
  by rewrite (advance_loop_more_fuel _ fuel _ _ _ Hloop Hfuel).
Qed.

(** Whatever the fuel, a result of [Advance] of the code is the result of
    [Advance] of the engine with exact additions. *)
Lemma Advance_exact_returns (fuel : nat) (d : Duration) (w w' : world) :
  world_in_range w -> advance_in_range d w ->
  Bounded.Advance fuel d w = Returns tt w' ->
  Advance d w = Returns tt w'.
Proof.
  intros Hw Hd. pose proof (advance_in_range_target d w Hw Hd) as Hadd.
  destruct Hw as [_ Hq]. destruct Hd as [_ Hper].
  unfold Bounded.Advance. rewrite Hadd, advance_loop_exact by done.
  destruct (advance_loop fuel _ w) as [w1|] eqn:Hloop; [|done].
  intros [= <-]. destruct (Advance_returns d w) as (w2 & Hloop2 & ->).
  pose proof (advance_loop_more_fuel _ (Nat.max fuel (advance_fuel (time (inner w) + d)%Z w))
                _ _ _ Hloop ltac:(lia)) as H1.
  pose proof (advance_loop_more_fuel _ (Nat.max fuel (advance_fuel (time (inner w) + d)%Z w))
                _ _ _ Hloop2 ltac:(lia)) as H2.
  congruence.
Qed.

Lemma Advance_in_range (d : Duration) (w w' : world) :
  world_in_range w -> advance_in_range d w ->
  Advance d w = Returns tt w' ->
  world_in_range w' /\
  time (inner w') = time (inner w) + d /\
  forall B, periods_le B w -> periods_le B w'.
Proof.
  intros [Ht Hq] [Htd Hper]. destruct (Advance_returns d w) as (w1 & Hloop & ->).
  intros [= <-]. split; [split|split]; try done.
  - exact (advance_loop_in_range _ _ _ _ Hloop Hq Hper).
  - intros B HB. exact (advance_loop_periods B _ _ _ _ Hloop HB).
Qed.

Lemma newTimer_exact (d : Duration) (f : option func) (w : world) :
  (0 < d -> Time_range (time (inner w)) /\ Time_range (time (inner w) + d)) ->
  Bounded.newTimer d f w = newTimer d f w.
Proof.
  intros H. unfold Bounded.newTimer, newTimer, newFakeTimer.
  by rewrite setExpirer_exact.
Qed.

Lemma NewTicker_exact (d : Duration) (w : world) :
  (0 < d -> Time_range (time (inner w)) /\ Time_range (time (inner w) + d)) ->
  Bounded.NewTicker d w = NewTicker d w.
Proof.
  intros H. unfold Bounded.NewTicker, NewTicker, newFakeTicker.
  destruct (d <=? 0); [done|]. by rewrite setExpirer_exact.
Qed.

Lemma fakeTimer_Reset_exact (f : ptr) (d : Duration) (w : world) :
  (0 < d -> Time_range (time (inner w)) /\ Time_range (time (inner w) + d)) ->
  Bounded.fakeTimer_Reset f d w = fakeTimer_Reset f d w.
Proof.
  intros H. unfold Bounded.fakeTimer_Reset, fakeTimer_Reset.
  destruct (stopExpirer_heap f w) as (_ & Ht & _).
  destruct (stopExpirer f w) as [b w1]. simpl in Ht.
  rewrite setExpirer_exact; [done|]. by rewrite Ht.
Qed.

Lemma fakeTicker_Reset_exact (f : ptr) (d : Duration) (w : world) :
  (0 < d -> Time_range (time (inner w)) /\ Time_range (time (inner w) + d)) ->
  Bounded.fakeTicker_Reset f d w = fakeTicker_Reset f d w.
Proof.
  intros H. unfold Bounded.fakeTicker_Reset, fakeTicker_Reset.
  rewrite setExpirer_exact; [done|]. by rewrite (proj2 (set_d_kept f d w)).
Qed.

(** An operation of the code that stays inside the range is the
    operation of the engine with exact additions. *)
Lemma run_op_exact (fuel : nat) (o : op) (w w' : world) :
  world_in_range w -> op_in_range o w ->
  Bounded.run_op fuel o w = Some w' ->
  run_op o w = Some w'.
Proof.
  intros Hw. pose proof (proj1 Hw) as Ht.
  destruct o as [d|d f|d|f d|f|f d|f|d|n|e]; simpl; try done.
  - intros [_ Hd]. unfold Bounded.NewTimer, NewTimer. unfold exec.
    rewrite newTimer_exact; [done|]. intros Hpos. split; [done|by apply Hd].
  - intros [_ Hd]. unfold Bounded.AfterFunc, AfterFunc. unfold exec.
    rewrite newTimer_exact; [done|]. intros Hpos. split; [done|by apply Hd].
  - intros [_ Hd]. unfold exec.
    rewrite NewTicker_exact; [done|]. intros Hpos. split; [done|by apply Hd].
  - intros [_ Hd]. unfold exec.
    rewrite fakeTimer_Reset_exact; [done|]. intros Hpos. split; [done|by apply Hd].
  - intros [_ Hd]. unfold exec.
    rewrite fakeTicker_Reset_exact; [done|]. intros Hpos. split; [done|by apply Hd].
  - intros [_ Hd]. unfold exec.
    destruct (Bounded.Advance fuel d w) as [[] w1| |] eqn:Hrun; [|done|done].
    intros [= <-]. by rewrite (Advance_exact_returns fuel d w w1 Hw Hd Hrun).
Qed.

(** ** Operations keep the clock inside the range *)

Lemma queue_in_range_frame (w w' : world) :
  (forall p, In p (waiters (inner w')) -> In p (waiters (inner w))) ->
  (forall p, In p (waiters (inner w)) -> expiration w' p = expiration w p) ->
  queue_in_range w -> queue_in_range w'.
Proof.
  intros Hsub Hexp Hq. unfold queue_in_range in *.
  apply List.Forall_forall. intros p Hp. rewrite Hexp by auto.
  exact (proj1 (List.Forall_forall _ _) Hq p (Hsub p Hp)).
Qed.

Lemma queue_in_range_setExpirer (e : ptr) (d : Duration) (w : world) :
  (0 < d -> Time_range (time (inner w) + d)) ->
  queue_in_range w -> queue_in_range (setExpirer e d w).
Proof.
  intros Hd Hq. destruct (Z_le_gt_dec d 0) as [Hle|Hgt].
  - rewrite setExpirer_nonpos by done.
    apply (queue_in_range_frame w); [|intros p _; apply expire_expiration|done].
    intros p. by rewrite expire_inner.
  - assert (Hpos : 0 < d) by lia. unfold queue_in_range in *.
    destruct (setExpirer_pos_waiters e d w Hpos) as (idx & _ & ->).
    apply List.Forall_forall. intros p Hp.
    rewrite setExpirer_pos_expiration by done.
    destruct (decide (p = e)) as [->|Hne]; [by apply Hd|].
    destruct (proj1 (in_slices_Insert _ idx e p) Hp) as [?|Hin]; [done|].
    exact (proj1 (List.Forall_forall _ _) Hq p Hin).
Qed.

Lemma queue_in_range_stopExpirer (e : ptr) (w : world) :
  queue_in_range w -> queue_in_range (snd (stopExpirer e w)).
Proof.
  intros Hq.
  destruct (stopExpirer_spec e w) as [[_ ->]|(l1 & l2 & Hw & _ & ->)]; [done|].
  apply (queue_in_range_frame w); [|done|done].
  intros p. simpl. rewrite Hw, !in_app_iff. simpl. tauto.
Qed.

Lemma queue_in_range_alloc (w : world) (x : expirer) :
  Forall (allocated w) (waiters (inner w)) ->
  queue_in_range w ->
  queue_in_range (with_heap (<[fresh (dom (heap w)) := x]> (heap w)) w).
Proof.
  intros Hall Hq. apply (queue_in_range_frame w); [done| |done].
  intros p Hp. unfold expiration. rewrite deref_with_heap_ne; [done|].
  intros Heq. apply (proj1 (List.Forall_forall _ _) Hall) in Hp as [y Hy].
  pose proof (fresh_unallocated w). congruence.
Qed.

Lemma expiration_set_d (f : ptr) (d : Duration) (w : world) (p : ptr) :
  expiration (set_d f d w) p = expiration w p.
Proof.
  unfold set_d. destruct (deref w f) as [o|o] eqn:Ho; [done|].
  unfold expiration. destruct (decide (f = p)) as [->|Hne].
  - by rewrite deref_with_heap_eq, Ho.
  - by rewrite deref_with_heap_ne.
Qed.

Lemma drain_frame (e : ptr) (v : option instant) (w w' : world) :
  drain e w = Returns v w' ->
  inner w' = inner w /\
  (forall p, expiration w' p = expiration w p) /\
  (forall p, period w' p = period w p).
Proof.
  unfold drain. destruct (deref w e) as [o|o] eqn:Ho; intros [= _ <-].
  all: split; [done|]; split; intros p.
  all: unfold expiration, period; destruct (decide (e = p)) as [->|Hne];
    [by rewrite deref_with_heap_eq, Ho|by rewrite deref_with_heap_ne].
Qed.

Lemma run_op_in_range (o : op) (w w' : world) :
  Forall (allocated w) (waiters (inner w)) ->
  world_in_range w -> op_in_range o w ->
  run_op o w = Some w' ->
  world_in_range w'.
Proof.
  intros Hall [Ht Hq]. unfold world_in_range.
  destruct o as [d|d f|d|f d|f|f d|f|d|n|e]; simpl; unfold exec.
  - intros [_ Hd]. unfold NewTimer, newTimer, newFakeTimer. intros [= <-].
    rewrite setExpirer_time. split; [done|].
    apply queue_in_range_setExpirer; [done|]. by apply queue_in_range_alloc.
  - intros [_ Hd]. unfold AfterFunc, newTimer, newFakeTimer. intros [= <-].
    rewrite setExpirer_time. split; [done|].
    apply queue_in_range_setExpirer; [done|]. by apply queue_in_range_alloc.
  - intros [_ Hd]. unfold NewTicker, newFakeTicker.
    destruct (d <=? 0); [done|]. intros [= <-].
    rewrite setExpirer_time. split; [done|].
    apply queue_in_range_setExpirer; [done|]. by apply queue_in_range_alloc.
  - intros [_ Hd]. unfold fakeTimer_Reset.
    pose proof (queue_in_range_stopExpirer f w Hq) as Hq1.
    destruct (stopExpirer_heap f w) as (_ & Ht1 & _).
    destruct (stopExpirer f w) as [b w1]. simpl in *. intros [= <-].
    rewrite setExpirer_time, Ht1. split; [done|].
    apply queue_in_range_setExpirer; [by rewrite Ht1|done].
  - intros _. unfold fakeTimer_Stop, stop.
    pose proof (queue_in_range_stopExpirer f w Hq) as Hq1.
    destruct (stopExpirer_heap f w) as (_ & Ht1 & _).
    destruct (stopExpirer f w) as [b w1]. simpl in *. intros [= <-].
    by rewrite Ht1.
  - intros [_ Hd]. unfold fakeTicker_Reset. intros [= <-].
    destruct (set_d_kept f d w) as [_ Hi].
    rewrite setExpirer_time, Hi. split; [done|].
    apply queue_in_range_setExpirer; [by rewrite Hi|].
    apply (queue_in_range_frame w); [by rewrite Hi| |done].
    intros p _. apply expiration_set_d.
  - intros _. unfold fakeTicker_Stop.
    pose proof (queue_in_range_stopExpirer f w Hq) as Hq1.
    destruct (stopExpirer_heap f w) as (_ & Ht1 & _).
    destruct (stopExpirer f w) as [b w1]. simpl in *. intros [= <-].
    by rewrite Ht1.
  - intros [_ Hd]. destruct (Advance d w) as [[] w1| |] eqn:Hrun; [|done|done].
    intros [= <-].
    by destruct (Advance_in_range d w w1 (conj Ht Hq) Hd Hrun) as [Hw1 _].
  - intros _. unfold newBlocker.
    destruct (_ <? n); intros [= <-]; by split.
  - intros _. destruct (drain e w) as [v w1| |] eqn:Hrun; [|done|done].
    intros [= <-]. destruct (drain_frame e v w w1 Hrun) as (Hi & Hexp & _).
    rewrite Hi. split; [done|].
    apply (queue_in_range_frame w); [by rewrite Hi|by intros p _|done].
Qed.

(** ** Reachability *)

Lemma reachable_clean_reachable (w : world) : reachable_clean w -> reachable w.
Proof.
  induction 1 as [t|o w w' _ IH Hrecv _ Hrun]; [apply reach_new|].
  by apply (reach_op o w).
Qed.

(** A clock that the code reaches without a saturating [Add] is one that
    the engine with exact additions reaches, and it is inside the range. *)
Lemma reachable_exact (w : world) :
  Bounded.reachable w -> reachable w /\ world_in_range w.
Proof.
  induction 1 as [t Ht|fuel o w w' _ [Hr Hw] Hrecv Hop Hrun].
  - split; [apply reach_new|]. split; [done|constructor].
  - pose proof (run_op_exact fuel o w w' Hw Hop Hrun) as Hrun'.
    split; [by apply (reach_op o w)|].
    apply (run_op_in_range o w); try done.
    exact (proj1 (reachable_timers_once w Hr)).
Qed.

Lemma reachable_clean_exact (w : world) :
  Bounded.reachable_clean w -> reachable_clean w /\ world_in_range w.
Proof.
  induction 1 as [t Ht|fuel o w w' _ [Hr Hw] Hrecv Hclean Hop Hrun].
  - split; [apply clean_new|]. split; [done|constructor].
  - pose proof (run_op_exact fuel o w w' Hw Hop Hrun) as Hrun'.
    split; [by apply (clean_op o w)|].
    apply (run_op_in_range o w); try done.
    exact (proj1 (reachable_timers_once w (reachable_clean_reachable w Hr))).
Qed.

(** ** Concrete clocks *)

Lemma ticker5_in_range : Bounded.reachable_clean ticker5.
Proof.
  apply (Bounded.in_range_clean_op 0 (OpNewTicker 5) (NewFakeClockAt 0));
    [|reflexivity|exact I|in_range|vm_compute; reflexivity].
  apply Bounded.in_range_clean_new. in_range.
Qed.

Lemma ticker5_timer7_in_range : Bounded.reachable_clean ticker5_timer7.
Proof.
  apply (Bounded.in_range_clean_op 0 (OpNewTimer 7) ticker5);
    [|reflexivity|exact I|in_range|vm_compute; reflexivity].
  exact ticker5_in_range.
Qed.

Lemma reachable_clean_in_range (w : world) :
  Bounded.reachable_clean w -> Bounded.reachable w.
Proof.
  induction 1 as [t Ht|fuel o w w' _ IH Hrecv _ Hop Hrun].
  - by apply Bounded.in_range_new.
  - by apply (Bounded.in_range_op fuel o w).
Qed.

Lemma ticker_reset10_timer7_in_range : Bounded.reachable ticker_reset10_timer7.
Proof.
  apply (Bounded.in_range_op 0 (OpTickerReset 0%nat 10) ticker5_timer7);
    [|reflexivity|in_range|vm_compute; reflexivity].
  exact (reachable_clean_in_range _ ticker5_timer7_in_range).
Qed.

(** ** Exact time landing *)

(** C3. Inside the range of [time.Time]: for every non-negative duration
    [d] such that the time before the call plus [d] is an instant that a
    [time.Time] holds, whenever [Advance d] returns, the clock's time is
    the time before the call plus [d], whatever the queue held and however
    many expirers fired. It does return when every queued instant is in
    the range and no ticker can be queued again past it. *)
Theorem Advance_lands_on_target (w : world) (d : Duration) :
  0 <= d ->
  Time_range (time (inner w)) -> Time_range (time (inner w) + d) ->
  (forall fuel w', Bounded.Advance fuel d w = Returns tt w' ->
     time (inner w') = time (inner w) + d) /\
  (queue_in_range w -> periods_le (maxTime - (time (inner w) + d)) w ->
     exists fuel w', Bounded.Advance fuel d w = Returns tt w').
Proof.
  intros _ Ht Htd. split.
  - intros fuel w'. unfold Bounded.Advance. rewrite Time_Add_exact by done.
    destruct (Bounded.advance_loop fuel _ w) as [w1|]; [|done].
    by intros [= <-].
  - intros Hq Hper. destruct (Advance_returns d w) as (w1 & _ & Hadv).
    exists (advance_fuel (time (inner w) + d) w). eexists.
    rewrite Advance_exact; [exact Hadv|done|done|apply Nat.le_refl].
Qed.

Lemma Advance_lands_on_target_witness :
  0 <= 18 /\
  Time_range (time (inner ticker5_timer7)) /\
  Time_range (time (inner ticker5_timer7) + 18) /\
  exists w', Bounded.Advance 4 18 ticker5_timer7 = Returns tt w' /\
    fired w' = [(0%nat, 5); (1%nat, 7); (0%nat, 10); (0%nat, 15)] /\
    time (inner w') = time (inner ticker5_timer7) + 18.
Proof.
  assert (Hd : 0 <= 18) by lia.
  assert (Ht : Time_range (time (inner ticker5_timer7))) by in_range.
  assert (Htd : Time_range (time (inner ticker5_timer7) + 18)) by in_range.
  split; [exact Hd|]. split; [exact Ht|]. split; [exact Htd|].
  destruct (Advance_lands_on_target ticker5_timer7 18 Hd Ht Htd) as [Hland _].
  eexists. split; [vm_compute; reflexivity|]. split; [vm_compute; reflexivity|].
  apply (Hland 4%nat). vm_compute; reflexivity.
Defined.

(** C3 as first stated fails past the range: ten seconds before the
    greatest instant, [Advance] by fifteen seconds returns, and the clock
    has moved by ten seconds, onto the greatest instant, not by fifteen. *)
Lemma Advance_past_greatest_Time_counterexample :
  0 <= 15 * nsPerSec /\
  Duration_range (15 * nsPerSec) /\
  Time_range (time (inner near_greatest_Time)) /\
  exists w', Bounded.Advance 0 (15 * nsPerSec) near_greatest_Time = Returns tt w' /\
    time (inner w') = maxTime /\
    time (inner w') = time (inner near_greatest_Time) + 10 * nsPerSec /\
    time (inner w') <> time (inner near_greatest_Time) + 15 * nsPerSec.
Proof.
  split; [vm_compute; discriminate|]. split; [in_range|]. split; [in_range|].
  eexists. split; [vm_compute; reflexivity|].
  split; [vm_compute; reflexivity|]. split; [vm_compute; reflexivity|].
  vm_compute; discriminate.
Qed.

(** ** Advancing in two steps *)

Lemma periods_le_mono (B B' : Z) (w : world) :
  B <= B' -> periods_le B w -> periods_le B' w.
Proof.
  intros HB Hper. unfold periods_le in *.
  eapply Forall_impl; [exact Hper|]. simpl. intros p Hp. lia.
Qed.

(** X1. Inside the range, advancing by [d1] and then by [d2 >= 0] is
    advancing by [d1 + d2]: the three calls return, and the clock after
    the two steps is the clock after the single one. The sum is a
    duration that the type holds, the two targets are instants in the
    range, and no ticker can be queued again past the range. *)
Theorem Advance_twice (w : world) (d1 d2 : Duration) :
  world_in_range w ->
  0 <= d2 ->
  Duration_range d1 -> Duration_range d2 -> Duration_range (d1 + d2) ->
  Time_range (time (inner w) + d1) ->
  advance_in_range (d1 + d2) w ->
  exists fuel w1 w2,
    Bounded.Advance fuel d1 w = Returns tt w1 /\
    Bounded.Advance fuel d2 w1 = Returns tt w2 /\
    Bounded.Advance fuel (d1 + d2) w = Returns tt w2.
Proof.
  intros Hw Hd2 _ _ _ Ht1 [Ht12 Hper].
  assert (Hin1 : advance_in_range d1 w).
  { split; [done|].
    apply (periods_le_mono (maxTime - (time (inner w) + (d1 + d2)))); [lia|done]. }
  pose proof (Advance_twice_exact w d1 d2 Hd2) as Htwice. unfold bind in Htwice.
  destruct (Advance_returns d1 w) as (w1' & _ & Hrun1).
  set (w1 := set_time (time (inner w) + d1) w1') in *.
  rewrite Hrun1 in Htwice.
  destruct (Advance_returns d2 w1) as (w2' & _ & Hrun2).
  set (w2 := set_time (time (inner w1) + d2) w2') in *.
  destruct (Advance_in_range d1 w w1 Hw Hin1 Hrun1) as (Hw1 & Htime1 & Hper1).
  assert (Hin2 : advance_in_range d2 w1).
  { unfold advance_in_range. rewrite Htime1. split; [by replace (time (inner w) + d1 + d2)
                                 with (time (inner w) + (d1 + d2)) by lia|].
    apply Hper1.
    by replace (time (inner w) + d1 + d2) with (time (inner w) + (d1 + d2)) by lia. }
  set (f := Nat.max (advance_fuel (time (inner w) + d1) w)
              (Nat.max (advance_fuel (time (inner w1) + d2) w1)
                       (advance_fuel (time (inner w) + (d1 + d2)) w))).
  exists f, w1, w2.
  split; [rewrite Advance_exact; [done|done|done|unfold f; lia]|].
  split; [rewrite Advance_exact; [done|done|done|unfold f; lia]|].
  rewrite Advance_exact; [|done|by split|unfold f; lia].
  rewrite <- Htwice. exact Hrun2.
Qed.

Lemma Advance_twice_witness :
  world_in_range ticker5_timer7 /\ 0 <= 11 /\
  Duration_range (7 + 11) /\
  Time_range (time (inner ticker5_timer7) + 7) /\
  advance_in_range (7 + 11) ticker5_timer7 /\
  exists fuel w1 w2,
    Bounded.Advance fuel 7 ticker5_timer7 = Returns tt w1 /\
    Bounded.Advance fuel 11 w1 = Returns tt w2 /\
    Bounded.Advance fuel (7 + 11) ticker5_timer7 = Returns tt w2.
Proof.
  assert (Hw : world_in_range ticker5_timer7)
    by exact (proj2 (reachable_clean_exact _ ticker5_timer7_in_range)).
  assert (H2 : 0 <= 11) by lia.
  assert (Ha : Duration_range 7) by in_range.
  assert (Hb : Duration_range 11) by in_range.
  assert (Hc : Duration_range (7 + 11)) by in_range.
  assert (Ht : Time_range (time (inner ticker5_timer7) + 7)) by in_range.
  assert (Hadv : advance_in_range (7 + 11) ticker5_timer7).
  { split; [in_range|]. repeat constructor; vm_compute; discriminate. }
  split; [exact Hw|]. split; [exact H2|]. split; [exact Hc|].
  split; [exact Ht|]. split; [exact Hadv|].
  exact (Advance_twice ticker5_timer7 7 11 Hw H2 Ha Hb Hc Ht Hadv).
Defined.

(** X2. On a clock whose queued instants are all after the current time,
    [Advance d] with [d <= 0] fires nothing and leaves the queue alone,
    whatever the fuel; it only sets the time to [time + d], which moves
    the clock back when [d < 0]. The old and the new time are instants in
    the range. *)
Theorem Advance_nonpositive_only_sets_time (w : world) (d : Duration) (fuel : nat) :
  queue_future w -> d <= 0 ->
  Time_range (time (inner w)) -> Time_range (time (inner w) + d) ->
  Bounded.Advance fuel d w = Returns tt (set_time (time (inner w) + d) w).
Proof.
  intros Hfut Hd Ht Htd. unfold Bounded.Advance. rewrite Time_Add_exact by done.
  assert (Hloop : Bounded.advance_loop fuel (time (inner w) + d) w = Some w).
  { unfold queue_future in Hfut.
    destruct fuel; simpl; destruct (waiters (inner w)) as [|e rest]; try done.
    all: apply Forall_cons in Hfut as [He _].
    all: by rewrite (proj2 (Z.leb_gt _ _)) by lia. }
  by rewrite Hloop.
Qed.

Lemma Advance_nonpositive_only_sets_time_witness :
  queue_future ticker5_timer7 /\ -3 <= 0 /\
  Time_range (time (inner ticker5_timer7)) /\
  Time_range (time (inner ticker5_timer7) + -3) /\
  Bounded.Advance 0 (-3) ticker5_timer7 =
    Returns tt (set_time (time (inner ticker5_timer7) + -3) ticker5_timer7).
Proof.
  assert (Hfut : queue_future ticker5_timer7)
    by exact (proj2 (reachable_clean_regular _ ticker5_timer7_clean)).
  assert (Hd : -3 <= 0) by lia.
  assert (Ht : Time_range (time (inner ticker5_timer7))) by in_range.
  assert (Htd : Time_range (time (inner ticker5_timer7) + -3)) by in_range.
  split; [exact Hfut|]. split; [exact Hd|]. split; [exact Ht|]. split; [exact Htd|].
  exact (Advance_nonpositive_only_sets_time ticker5_timer7 (-3) 0 Hfut Hd Ht Htd).
Defined.

(** ** Clocks on which no pending ticker was reset *)

(** X3. On every clock that the code reaches without resetting a pending
    ticker and without leaving the range of [time.Time], the queue holds
    no expirer twice, is sorted by instant (each entry is due no later
    than the next), holds allocated objects only, and every queued
    instant is strictly after the current time and in the range. *)
Theorem clean_queue_is_sorted (w : world) :
  Bounded.reachable_clean w ->
  NoDup (waiters (inner w)) /\
  queue_sorted w /\
  Forall (allocated w) (waiters (inner w)) /\
  queue_future w /\
  queue_in_range w.
Proof.
  intros Hc. destruct (reachable_clean_exact w Hc) as [Hclean [_ Hq]].
  destruct (reachable_clean_regular w Hclean) as [(Hnd & Hs & Ha) Hfut].
  split; [done|]. split; [by apply StronglySorted_Sorted|]. by repeat split.
Qed.

Lemma clean_queue_is_sorted_witness :
  Bounded.reachable_clean ticker5_timer7 /\
  queue_sorted ticker5_timer7 /\ queue_future ticker5_timer7.
Proof.
  pose proof (clean_queue_is_sorted ticker5_timer7 ticker5_timer7_in_range)
    as (_ & Hs & _ & Hf & _).
  split; [exact ticker5_timer7_in_range|]. split; [exact Hs|exact Hf].
Defined.

(** ** A new timer *)

Lemma periods_le_frame (B : Z) (w w' : world) :
  (forall p, In p (waiters (inner w')) ->
             In p (waiters (inner w)) \/ period w' p <= B) ->
  (forall p, In p (waiters (inner w)) -> period w' p = period w p) ->
  periods_le B w -> periods_le B w'.
Proof.
  intros Hsub Hsame Hper. unfold periods_le in *.
  apply List.Forall_forall. intros p Hp.
  destruct (Hsub p Hp) as [Hin|Hle]; [|done].
  rewrite Hsame by done. exact (proj1 (List.Forall_forall _ _) Hper p Hin).
Qed.

Lemma periods_le_setExpirer (B : Z) (e : ptr) (d : Duration) (w : world) :
  period w e <= B -> periods_le B w -> periods_le B (setExpirer e d w).
Proof.
  intros He. apply periods_le_frame.
  - intros p Hp. rewrite period_setExpirer.
    destruct (Z_le_gt_dec d 0) as [Hle|Hgt].
    + rewrite setExpirer_nonpos, expire_inner in Hp by done. by left.
    + assert (Hd : 0 < d) by lia.
      destruct (setExpirer_pos_waiters e d w Hd) as (idx & _ & Hq).
      rewrite Hq in Hp.
      destruct (proj1 (in_slices_Insert _ idx e p) Hp) as [->|?]; [by right|by left].
  - intros p _. apply period_setExpirer.
Qed.

(** What a new expirer leaves of the range: the queue is in the range if
    the new instant is, and the periods are those of before and the new
    one. *)
Lemma new_expirer_in_range (x : expirer) (d : Duration) (w : world) :
  Forall (allocated w) (waiters (inner w)) ->
  world_in_range w ->
  (0 < d -> Time_range (time (inner w) + d)) ->
  let w1 := setExpirer (fresh (dom (heap w))) d
              (with_heap (<[fresh (dom (heap w)) := x]> (heap w)) w) in
  world_in_range w1 /\
  forall B, expirer_period x <= B -> periods_le B w -> periods_le B w1.
Proof.
  intros Hall [Ht Hq] Hd w1. split.
  - split; [unfold w1; by rewrite setExpirer_time|].
    apply queue_in_range_setExpirer; [done|]. by apply queue_in_range_alloc.
  - intros B Hx Hper. apply periods_le_setExpirer.
    + unfold period. by rewrite deref_with_heap_eq.
    + apply (periods_le_frame B w); [by left| |done].
      intros p Hp. unfold period. rewrite deref_with_heap_ne; [done|].
      intros Heq. apply (proj1 (List.Forall_forall _ _) Hall) in Hp as [y Hy].
      pose proof (fresh_unallocated w). congruence.
Qed.

Lemma reachable_allocated (w : world) :
  Bounded.reachable w -> Forall (allocated w) (waiters (inner w)).
Proof.
  intros Hr. destruct (reachable_exact w Hr) as [Hreach _].
  exact (proj1 (reachable_timers_once w Hreach)).
Qed.

Lemma advance_in_range_nonneg (d : Duration) (w : world) :
  advance_in_range d w -> 0 <= maxTime - (time (inner w) + d).
Proof. intros [[_ H] _]. lia. Qed.

(** X4. On a clock that the code reaches without resetting a pending
    ticker and without leaving the range of [time.Time], [NewTimer d]
    with [d > 0] and [time + d] in the range puts the new timer behind
    every queued entry due at [time + d] or earlier and in front of every
    later one; its instant is [time + d], and the instants of the others
    and the time are unchanged. *)
Theorem NewTimer_queue_position (w : world) (d : Duration) :
  Bounded.reachable_clean w -> 0 < d ->
  Time_range (time (inner w) + d) ->
  exists ft w' l1 l2,
    Bounded.NewTimer d w = Returns ft w' /\
    waiters (inner w) = l1 ++ l2 /\
    waiters (inner w') = l1 ++ ft :: l2 /\
    Forall (fun p => expiration w p <= time (inner w) + d) l1 /\
    Forall (fun p => time (inner w) + d < expiration w p) l2 /\
    expiration w' ft = time (inner w) + d /\
    (forall p, In p (waiters (inner w)) -> expiration w' p = expiration w p) /\
    time (inner w') = time (inner w).
Proof.
  intros Hc Hd Htd. destruct (reachable_clean_exact w Hc) as [Hclean [Ht _]].
  unfold Bounded.NewTimer. rewrite newTimer_exact by done.
  exact (NewTimer_queue_position_exact w d Hclean Hd).
Qed.

Lemma NewTimer_queue_position_witness :
  Bounded.reachable_clean ticker5_timer7 /\ 0 < 6 /\
  Time_range (time (inner ticker5_timer7) + 6) /\
  exists ft w', Bounded.NewTimer 6 ticker5_timer7 = Returns ft w' /\
    waiters (inner w') = [0%nat; ft; 1%nat] /\
    expiration w' ft = time (inner ticker5_timer7) + 6.
Proof.
  assert (Hd : 0 < 6) by lia.
  assert (Htd : Time_range (time (inner ticker5_timer7) + 6)) by in_range.
  split; [exact ticker5_timer7_in_range|]. split; [exact Hd|]. split; [exact Htd|].
  destruct (NewTimer_queue_position ticker5_timer7 6 ticker5_timer7_in_range Hd Htd)
    as (ft & w' & l1 & l2 & Hrun & _ & _ & _ & _ & Hexp & _).
  exists ft, w'. split; [exact Hrun|]. split; [|exact Hexp].
  vm_compute in Hrun. injection Hrun as <- <-. vm_compute; reflexivity.
Defined.

(** ** The firing of a one-shot timer *)

Lemma NewTimer_in_range (d : Duration) (w : world) (ft : ptr) (w1 : world) :
  Forall (allocated w) (waiters (inner w)) ->
  world_in_range w ->
  (0 < d -> Time_range (time (inner w) + d)) ->
  NewTimer d w = Returns ft w1 ->
  world_in_range w1 /\
  time (inner w1) = time (inner w) /\
  forall B, 0 <= B -> periods_le B w -> periods_le B w1.
Proof.
  intros Hall Hw Hd. unfold NewTimer, newTimer, newFakeTimer. intros [= _ <-].
  destruct (new_expirer_in_range (Timer (mkFakeTimer None 0 None)) d w Hall Hw Hd)
    as [Hw1 Hper].
  split; [done|]. split; [by rewrite setExpirer_time|].
  intros B HB. by apply Hper.
Qed.

(** X5. On a clock that the code reaches without resetting a pending
    ticker and without leaving the range, a timer made by [NewTimer d],
    [d > 0], fires exactly once in an [Advance d'] with [d <= d'] that
    stays in the range: at [time + d], which is what its channel then
    holds; it has left the queue, and the clock stands at [time + d']. *)
Theorem NewTimer_delivers_when_due (w : world) (d d' : Duration) :
  Bounded.reachable_clean w -> 0 < d -> d <= d' ->
  advance_in_range d' w ->
  exists fuel ft w1 w2,
    Bounded.NewTimer d w = Returns ft w1 /\
    Bounded.Advance fuel d' w1 = Returns tt w2 /\
    firings_of ft (fired w2) = firings_of ft (fired w) ++ [(ft, time (inner w) + d)] /\
    chan w2 ft = Some (time (inner w) + d) /\
    ~ In ft (waiters (inner w2)) /\
    time (inner w2) = time (inner w) + d'.
Proof.
  intros Hc Hd Hle Hadv. destruct (reachable_clean_exact w Hc) as [Hclean Hw].
  pose proof (reachable_allocated w (reachable_clean_in_range w Hc)) as Hall.
  assert (Htd : Time_range (time (inner w) + d)).
  { destruct Hw as [Ht _]. destruct Hadv as [Htd' _]. unfold Time_range in *. lia. }
  destruct (NewTimer_delivers_exact w d d' Hclean Hd Hle)
    as (ft & w1 & w2 & Hnew & Hrun & Hrest).
  destruct (NewTimer_in_range d w ft w1 Hall Hw ltac:(done) Hnew) as (Hw1 & Ht1 & Hper1).
  assert (Hadv1 : advance_in_range d' w1).
  { unfold advance_in_range. rewrite Ht1. split; [exact (proj1 Hadv)|].
    apply Hper1; [exact (advance_in_range_nonneg d' w Hadv)|exact (proj2 Hadv)]. }
  exists (advance_fuel (time (inner w1) + d') w1), ft, w1, w2.
  split; [|split; [|exact Hrest]].
  - unfold Bounded.NewTimer. rewrite newTimer_exact; [exact Hnew|].
    intros _. split; [exact (proj1 Hw)|exact Htd].
  - rewrite Advance_exact; [exact Hrun|done|done|apply Nat.le_refl].
Qed.

Lemma NewTimer_delivers_when_due_witness :
  Bounded.reachable_clean ticker5_timer7 /\ 0 < 4 /\ 4 <= 9 /\
  advance_in_range 9 ticker5_timer7 /\
  exists fuel ft w1 w2,
    Bounded.NewTimer 4 ticker5_timer7 = Returns ft w1 /\
    Bounded.Advance fuel 9 w1 = Returns tt w2 /\
    chan w2 ft = Some (time (inner ticker5_timer7) + 4).
Proof.
  assert (Hd : 0 < 4) by lia. assert (Hle : 4 <= 9) by lia.
  assert (Hadv : advance_in_range 9 ticker5_timer7).
  { split; [in_range|]. repeat constructor; vm_compute; discriminate. }
  split; [exact ticker5_timer7_in_range|]. split; [exact Hd|].
  split; [exact Hle|]. split; [exact Hadv|].
  destruct (NewTimer_delivers_when_due ticker5_timer7 4 9 ticker5_timer7_in_range
              Hd Hle Hadv)
    as (fuel & ft & w1 & w2 & Hnew & Hrun & _ & Hchan & _).
  exists fuel, ft, w1, w2. split; [exact Hnew|]. split; [exact Hrun|exact Hchan].
Defined.

(** X6. On every clock that the code reaches without leaving the range,
    whatever was reset, a timer made by [NewTimer d] with [d > 0] and
    [time + d] in the range is not fired by an [Advance d'] with [d' < d]
    that stays in the range: it is still queued, for [time + d], and its
    channel is empty. *)
Theorem NewTimer_not_fired_early (w : world) (d d' : Duration) :
  Bounded.reachable w -> 0 < d -> d' < d ->
  Time_range (time (inner w) + d) ->
  advance_in_range d' w ->
  exists fuel ft w1 w2 evs,
    Bounded.NewTimer d w = Returns ft w1 /\
    Bounded.Advance fuel d' w1 = Returns tt w2 /\
    fired w2 = fired w1 ++ evs /\
    Forall (fun x => fst x <> ft) evs /\
    In ft (waiters (inner w2)) /\
    chan w2 ft = None /\
    expiration w2 ft = time (inner w) + d.
Proof.
  intros Hr Hd Hlt Htd Hadv. destruct (reachable_exact w Hr) as [_ Hw].
  pose proof (reachable_allocated w Hr) as Hall.
  destruct (NewTimer_not_fired_early_exact w d d' Hd Hlt)
    as (ft & w1 & w2 & evs & Hnew & Hrun & Hrest).
  destruct (NewTimer_in_range d w ft w1 Hall Hw ltac:(done) Hnew) as (Hw1 & Ht1 & Hper1).
  assert (Hadv1 : advance_in_range d' w1).
  { unfold advance_in_range. rewrite Ht1. split; [exact (proj1 Hadv)|].
    apply Hper1; [exact (advance_in_range_nonneg d' w Hadv)|exact (proj2 Hadv)]. }
  exists (advance_fuel (time (inner w1) + d') w1), ft, w1, w2, evs.
  split; [|split; [|exact Hrest]].
  - unfold Bounded.NewTimer. rewrite newTimer_exact; [exact Hnew|].
    intros _. split; [exact (proj1 Hw)|exact Htd].
  - rewrite Advance_exact; [exact Hrun|done|done|apply Nat.le_refl].
Qed.

Lemma NewTimer_not_fired_early_witness :
  Bounded.reachable ticker_reset10_timer7 /\ 0 < 9 /\ 8 < 9 /\
  Time_range (time (inner ticker_reset10_timer7) + 9) /\
  advance_in_range 8 ticker_reset10_timer7 /\
  exists fuel ft w1 w2,
    Bounded.NewTimer 9 ticker_reset10_timer7 = Returns ft w1 /\
    Bounded.Advance fuel 8 w1 = Returns tt w2 /\
    chan w2 ft = None.
Proof.
  assert (Hd : 0 < 9) by lia. assert (Hlt : 8 < 9) by lia.
  assert (Htd : Time_range (time (inner ticker_reset10_timer7) + 9)) by in_range.
  assert (Hadv : advance_in_range 8 ticker_reset10_timer7).
  { split; [in_range|]. repeat constructor; vm_compute; discriminate. }
  split; [exact ticker_reset10_timer7_in_range|]. split; [exact Hd|].
  split; [exact Hlt|]. split; [exact Htd|]. split; [exact Hadv|].
  destruct (NewTimer_not_fired_early ticker_reset10_timer7 9 8
              ticker_reset10_timer7_in_range Hd Hlt Htd Hadv)
    as (fuel & ft & w1 & w2 & evs & Hnew & Hrun & _ & _ & _ & Hchan & _).
  exists fuel, ft, w1, w2. split; [exact Hnew|]. split; [exact Hrun|exact Hchan].
Defined.

(** ** Resetting a timer *)

(** X9. On every clock that the code reaches without leaving the range,
    [Reset d] with [d > 0] and [time + d] in the range on a timer reports
    whether the timer was pending and leaves it in the queue exactly
    once, due at [time + d]; the time does not change. *)
Theorem timer_Reset_rearms (w : world) (f : ptr) (d : Duration) :
  Bounded.reachable w -> is_timer w f = true -> 0 < d ->
  Time_range (time (inner w) + d) ->
  exists b w', Bounded.fakeTimer_Reset f d w = Returns b w' /\
    (b = true <-> In f (waiters (inner w))) /\
    occurrences f w' = 1%nat /\
    expiration w' f = time (inner w) + d /\
    time (inner w') = time (inner w).
Proof.
  intros Hr Hf Hd Htd. destruct (reachable_exact w Hr) as [Hreach [Ht _]].
  rewrite fakeTimer_Reset_exact by done.
  exact (timer_Reset_rearms_exact w f d Hreach Hf Hd).
Qed.

Lemma timer_Reset_rearms_witness :
  Bounded.reachable ticker_reset10_timer7 /\
  is_timer ticker_reset10_timer7 1%nat = true /\ 0 < 3 /\
  Time_range (time (inner ticker_reset10_timer7) + 3) /\
  exists b w', Bounded.fakeTimer_Reset 1%nat 3 ticker_reset10_timer7 = Returns b w' /\
    occurrences 1%nat w' = 1%nat /\
    expiration w' 1%nat = time (inner ticker_reset10_timer7) + 3.
Proof.
  assert (Hf : is_timer ticker_reset10_timer7 1%nat = true)
    by (vm_compute; reflexivity).
  assert (Hd : 0 < 3) by lia.
  assert (Htd : Time_range (time (inner ticker_reset10_timer7) + 3)) by in_range.
  split; [exact ticker_reset10_timer7_in_range|]. split; [exact Hf|].
  split; [exact Hd|]. split; [exact Htd|].
  destruct (timer_Reset_rearms ticker_reset10_timer7 1%nat 3
              ticker_reset10_timer7_in_range Hf Hd Htd)
    as (b & w' & Hrun & _ & Hocc & Hexp & _).
  exists b, w'. split; [exact Hrun|]. split; [exact Hocc|exact Hexp].
Defined.

(** ** Resetting a ticker *)

Lemma Bounded_setExpirer_pos (e : ptr) (d : Duration) (w : world) :
  0 < d ->
  (exists idx,
     waiters (inner (Bounded.setExpirer e d w)) =
       slices_Insert (waiters (inner w)) idx e) /\
  heap (Bounded.setExpirer e d w) =
    heap (setExpiration e (Time_Add (time (inner w)) d) w) /\
  fired (Bounded.setExpirer e d w) = fired w /\
  time (inner (Bounded.setExpirer e d w)) = time (inner w).
Proof.
  intros Hd. unfold Bounded.setExpirer. rewrite (proj2 (Z.leb_gt d 0) Hd).
  split; [|split; [|split]].
  - rewrite notify_blockers_waiters. simpl. rewrite setExpiration_inner.
    by eexists.
  - reflexivity.
  - simpl. unfold setExpiration. by destruct (deref w e).
  - simpl. by rewrite setExpiration_inner.
Qed.

(** X13. [fakeTicker.Reset] as it is written: it returns for every
    duration and never takes an entry out of the queue. With [d > 0] the
    ticker gets the period [d], the instant [Time.Add(time, d)] and one
    more queue entry; with [d <= 0] it gets the period [d], keeps its
    instant and its queue entries, and is fired once at the current
    time. [Time.Add(time, d)] is [time + d] when both are instants in the
    range. *)
Theorem fakeTicker_Reset_effect (w : world) (f : ptr) (d : Duration) (o : fakeTicker) :
  deref w f = Ticker o ->
  exists w', Bounded.fakeTicker_Reset f d w = Returns tt w' /\
    time (inner w') = time (inner w) /\
    (0 < d ->
       occurrences f w' = S (occurrences f w) /\
       queue_len w' = queue_len w + 1 /\
       deref w' f =
         Ticker (mkFakeTicker (tk_c o) (Time_Add (time (inner w)) d) d) /\
       fired w' = fired w /\
       (Time_range (time (inner w)) -> Time_range (time (inner w) + d) ->
        expiration w' f = time (inner w) + d)) /\
    (d <= 0 ->
       waiters (inner w') = waiters (inner w) /\
       deref w' f = Ticker (mkFakeTicker (try_send (tk_c o) (time (inner w)))
                                         (tk_exp o) d) /\
       fired w' = fired w ++ [(f, time (inner w))]).
Proof.
  intros Ho. destruct (Z_le_gt_dec d 0) as [Hle|Hgt].
  - rewrite fakeTicker_Reset_exact by lia.
    destruct (fakeTicker_Reset_effect_exact w f d o Ho) as (w' & Hrun & Ht & _ & Hnon).
    exists w'. split; [done|]. split; [done|]. split; [lia|done].
  - assert (Hd : 0 < d) by lia. unfold Bounded.fakeTicker_Reset.
    eexists. split; [reflexivity|].
    destruct (set_d_kept f d w) as [_ Hi].
    assert (Ho1 : deref (set_d f d w) f = Ticker (mkFakeTicker (tk_c o) (tk_exp o) d)).
    { unfold set_d. rewrite Ho. apply deref_with_heap_eq. }
    assert (Hf1 : fired (set_d f d w) = fired w).
    { unfold set_d. by rewrite Ho. }
    destruct (Bounded_setExpirer_pos f d (set_d f d w) Hd)
      as ([idx Hq] & Hh & Hf & Ht).
    assert (Hderef : deref (Bounded.setExpirer f d (set_d f d w)) f =
              Ticker (mkFakeTicker (tk_c o) (Time_Add (time (inner w)) d) d)).
    { unfold deref. rewrite Hh. unfold setExpiration. rewrite Ho1. simpl.
      by rewrite lookup_total_insert_eq, Hi. }
    split; [by rewrite Ht, Hi|]. split; [|lia]. intros _.
    split; [|split; [|split; [|split]]].
    + unfold occurrences. rewrite Hq, count_occ_slices_Insert, Hi.
      destruct (Nat.eq_dec f f); [lia|done].
    + unfold queue_len. rewrite Hq, slices_Insert_length, Hi. lia.
    + exact Hderef.
    + by rewrite Hf, Hf1.
    + intros Hr1 Hr2. unfold expiration. rewrite Hderef. simpl.
      by apply Time_Add_exact.
Qed.

Lemma fakeTicker_Reset_effect_witness :
  deref ticker5 0%nat = Ticker (mkFakeTicker None 5 5) /\
  exists w', Bounded.fakeTicker_Reset 0%nat 3 ticker5 = Returns tt w' /\
    time (inner w') = time (inner ticker5) /\
    waiters (inner w') = [0%nat; 0%nat].
Proof.
  assert (Ho : deref ticker5 0%nat = Ticker (mkFakeTicker None 5 5))
    by (vm_compute; reflexivity).
  split; [exact Ho|].
  destruct (fakeTicker_Reset_effect ticker5 0%nat 3 _ Ho) as (w' & Hrun & Ht & _).
  exists w'. split; [exact Hrun|]. split; [exact Ht|].
  vm_compute in Hrun. injection Hrun as <-. vm_compute; reflexivity.
Defined.

(** ** The order of firings *)

(** X15. On a clock that the code reaches without resetting a pending
    ticker and without leaving the range, an [Advance d] that stays in
    the range fires in non-decreasing order of instant, only at instants
    after the old time and up to the new one, fires every entry that was
    due at its queued instant, and leaves every queued instant after the
    new time. *)
Theorem Advance_fires_due_in_order (w : world) (d : Duration) :
  Bounded.reachable_clean w ->
  advance_in_range d w ->
  exists fuel w' evs, Bounded.Advance fuel d w = Returns tt w' /\
    fired w' = fired w ++ evs /\
    StronglySorted Z.le (map snd evs) /\
    Forall (fun x => time (inner w) < snd x <= time (inner w) + d) evs /\
    (forall p, In p (waiters (inner w)) ->
               expiration w p <= time (inner w) + d ->
               In (p, expiration w p) evs) /\
    queue_future w'.
Proof.
  intros Hc Hadv. destruct (reachable_clean_exact w Hc) as [Hclean Hw].
  destruct (Advance_fires_due_in_order_exact w d Hclean) as (w' & evs & Hrun & Hrest).
  exists (advance_fuel (time (inner w) + d) w), w', evs.
  split; [|exact Hrest].
  rewrite Advance_exact; [exact Hrun|done|done|apply Nat.le_refl].
Qed.

Lemma Advance_fires_due_in_order_witness :
  Bounded.reachable_clean ticker5_timer7 /\
  advance_in_range 12 ticker5_timer7 /\
  exists fuel w' evs, Bounded.Advance fuel 12 ticker5_timer7 = Returns tt w' /\
    fired w' = fired ticker5_timer7 ++ evs /\
    StronglySorted Z.le (map snd evs).
Proof.
  assert (Hadv : advance_in_range 12 ticker5_timer7).
  { split; [in_range|]. repeat constructor; vm_compute; discriminate. }
  split; [exact ticker5_timer7_in_range|]. split; [exact Hadv|].
  destruct (Advance_fires_due_in_order ticker5_timer7 12 ticker5_timer7_in_range Hadv)
    as (fuel & w' & evs & Hrun & Hlog & Hs & _).
  exists fuel, w', evs. split; [exact Hrun|]. split; [exact Hlog|exact Hs].
Defined.

(** ** Reading the clock *)

(** X16. [Since] measures [Advance]: for a duration [d] that the type
    holds and an [Advance d] that stays in the range, reading [Now],
    advancing by [d] and asking [Since] of the reading gives [d] back.
    [Until] of the same reading gives [- d], except for the least
    duration, whose negation [Sub] saturates to the greatest one. *)
Theorem Since_measures_Advance (w : world) (d : Duration) :
  world_in_range w -> advance_in_range d w ->
  Duration_range d ->
  exists fuel w',
    (t <~ Now ;; _ <~ Bounded.Advance fuel d ;; s <~ Since t ;; u <~ Until t ;;
     ret (s, u)) w =
    Returns (d, if d =? minDuration then maxDuration else - d) w'.
Proof.
  intros Hw Hadv Hd. destruct (Advance_returns d w) as (w1 & _ & Hrun).
  exists (advance_fuel (time (inner w) + d) w), (set_time (time (inner w) + d) w1).
  unfold bind, Now. rewrite Advance_exact; [|done|done|apply Nat.le_refl].
  rewrite Hrun. unfold Since, Until, ret. simpl.
  f_equal. unfold Duration_range, time_Sub, minDuration, maxDuration in *.
  replace (time (inner w) + d - time (inner w)) with d by lia.
  replace (time (inner w) - (time (inner w) + d)) with (- d) by lia.
  rewrite (proj2 (Z.ltb_ge _ _)) by lia.
  rewrite (proj2 (Z.ltb_ge _ _)) by lia.
  rewrite (proj2 (Z.ltb_ge (- d) _)) by lia.
  destruct (Z.eqb_spec d (- 2 ^ 63)) as [->|Hne]; [reflexivity|].
  by rewrite (proj2 (Z.ltb_ge _ _)) by lia.
Qed.

Lemma Since_measures_Advance_witness :
  world_in_range ticker5_timer7 /\ advance_in_range 12 ticker5_timer7 /\
  Duration_range 12 /\
  exists fuel w',
    (t <~ Now ;; _ <~ Bounded.Advance fuel 12 ;; s <~ Since t ;; u <~ Until t ;;
     ret (s, u)) ticker5_timer7 = Returns (12, - 12) w'.
Proof.
  assert (Hw : world_in_range ticker5_timer7)
    by exact (proj2 (reachable_clean_exact _ ticker5_timer7_in_range)).
  assert (Hadv : advance_in_range 12 ticker5_timer7).
  { split; [in_range|]. repeat constructor; vm_compute; discriminate. }
  assert (Hd : Duration_range 12) by in_range.
  split; [exact Hw|]. split; [exact Hadv|]. split; [exact Hd|].
  exact (Since_measures_Advance ticker5_timer7 12 Hw Hadv Hd).
Defined.

(** ** Sleep *)

(** X18. [Sleep d] with [d <= 0] returns at once: its timer fires at the
    current time inside the call, the receive takes the value, and
    queue, blockers and time are as before. With [d > 0] the caller is
    left waiting on the empty channel of a new timer that is queued for
    [Time.Add(time, d)], which is [time + d] when both are instants in
    the range. *)
Theorem Sleep_returns_at_once_iff_nonpositive (w : world) (d : Duration) :
  (d <= 0 ->
     exists w', Bounded.Sleep d w = Slept w' /\
       inner w' = inner w /\
       fired w' = fired w ++ [(fresh (dom (heap w)), time (inner w))]) /\
  (0 < d ->
     exists t w', Bounded.Sleep d w = Parked t w' /\
       In t (waiters (inner w')) /\
       chan w' t = None /\
       expiration w' t = Time_Add (time (inner w)) d /\
       time (inner w') = time (inner w) /\
       (Time_range (time (inner w)) -> Time_range (time (inner w) + d) ->
        expiration w' t = time (inner w) + d)).
Proof.
  unfold Bounded.Sleep, Bounded.After, Bounded.NewTimer, Bounded.newTimer,
    newFakeTimer.
  set (ft := fresh (dom (heap w))).
  set (w0 := with_heap (<[ft := Timer (mkFakeTimer None 0 None)]> (heap w)) w).
  assert (Ho : deref w0 ft = Timer (mkFakeTimer None 0 None))
    by apply deref_with_heap_eq.
  split.
  - intros Hd. rewrite setExpirer_exact by lia.
    rewrite setExpirer_nonpos by done.
    set (w1 := snd (expire ft (time (inner w0)) w0)).
    pose proof (expire_Timer ft (time (inner w0)) w0 _ Ho) as [_ Hx].
    cbn [tm_afterFunc tm_c tm_exp try_send] in Hx. destruct Hx as [_ Hh].
    fold w1 in Hh.
    assert (Ho1 : deref w1 ft = Timer (mkFakeTimer (Some (time (inner w0))) 0 None)).
    { unfold deref. rewrite Hh. apply lookup_total_insert_eq. }
    assert (Hc : chan w1 ft = Some (time (inner w0))) by (unfold chan; by rewrite Ho1).
    rewrite Hc. unfold drain. rewrite Ho1. eexists. split; [reflexivity|].
    simpl. unfold w1. by rewrite expire_inner, expire_fired.
  - intros Hd.
    destruct (Bounded_setExpirer_pos ft d w0 Hd) as ([idx Hq] & Hh & _ & Ht).
    set (w1 := Bounded.setExpirer ft d w0) in *.
    assert (Ho1 : deref w1 ft =
              Timer (mkFakeTimer None (Time_Add (time (inner w)) d) None)).
    { unfold deref. rewrite Hh. unfold setExpiration. rewrite Ho. simpl.
      by rewrite lookup_total_insert_eq. }
    assert (Hc : chan w1 ft = None) by (unfold chan; by rewrite Ho1).
    assert (Hexp : expiration w1 ft = Time_Add (time (inner w)) d)
      by (unfold expiration; by rewrite Ho1).
    rewrite Hc. exists ft, w1. split; [done|].
    split; [rewrite Hq; apply in_slices_Insert; by left|].
    split; [done|]. split; [done|]. split; [done|].
    intros Hr1 Hr2. rewrite Hexp. by apply Time_Add_exact.
Qed.

(** ** Rounds *)

Lemma drain_in_range (e : ptr) (v : option instant) (w w' : world) :
  drain e w = Returns v w' ->
  world_in_range w ->
  world_in_range w' /\ forall B, periods_le B w -> periods_le B w'.
Proof.
  intros Hrun [Ht Hq]. destruct (drain_frame e v w w' Hrun) as (Hi & Hexp & Hper).
  split; [split|].
  - by rewrite Hi.
  - apply (queue_in_range_frame w); [by rewrite Hi|by intros p _|done].
  - intros B. apply periods_le_frame; [rewrite Hi; by left|by intros p _].
Qed.

Lemma receive_drain (e : ptr) (v : instant) (w w' : world) :
  drain e w = Returns (Some v) w' -> receive e w = Returns v w'.
Proof. intros H. unfold receive. by rewrite H. Qed.

Lemma fakeTimer_Reset_in_range (f : ptr) (d : Duration) (b : bool) (w w' : world) :
  world_in_range w ->
  (0 < d -> Time_range (time (inner w) + d)) ->
  fakeTimer_Reset f d w = Returns b w' ->
  world_in_range w' /\
  forall B, period w f <= B -> periods_le B w -> periods_le B w'.
Proof.
  intros [Ht Hq] Hd. unfold fakeTimer_Reset.
  pose proof (queue_in_range_stopExpirer f w Hq) as Hq1.
  destruct (stopExpirer_heap f w) as (Hh1 & Ht1 & _).
  assert (Hsub : forall p, In p (waiters (inner (snd (stopExpirer f w)))) ->
                           In p (waiters (inner w))).
  { destruct (stopExpirer_spec f w) as [[_ ->]|(l1 & l2 & Hw & _ & ->)]; [done|].
    intros p. simpl. rewrite Hw, !in_app_iff. simpl. tauto. }
  destruct (stopExpirer f w) as [b1 w1]. simpl in *. intros [= _ <-].
  split; [split|].
  - by rewrite setExpirer_time, Ht1.
  - apply queue_in_range_setExpirer; [by rewrite Ht1|done].
  - intros B Hf Hper.
    assert (Hp1 : forall p, period w1 p = period w p).
    { intros p. unfold period, deref. by rewrite Hh1. }
    apply periods_le_setExpirer; [by rewrite Hp1|].
    apply (periods_le_frame B w); [|by intros p _|done].
    intros p Hp. left. by apply Hsub.
Qed.

Lemma ticks_in_range (k : nat) (p : Duration) (T : ptr) (w : world) :
  0 < p -> regular w -> ticking T p w -> world_in_range w ->
  periods_le (maxTime - (time (inner w) + Z.of_nat k * p)) w ->
  exists fuel0 wk,
    (forall fuel, (fuel0 <= fuel)%nat ->
       Bounded.ticks fuel k p T w =
         Returns (map (fun i => time (inner w) + Z.of_nat i * p) (seq 1 k)) wk) /\
    time (inner wk) = time (inner w) + Z.of_nat k * p /\
    firings_of T (fired wk) =
      firings_of T (fired w) ++
      map (fun i => (T, time (inner w) + Z.of_nat i * p)) (seq 1 k).
Proof.
  intros Hp. revert w. induction k as [|k IH]; intros w Hreg Htick Hw Hper.
  - exists 0%nat, w. simpl. rewrite app_nil_r. split; [done|]. split; [lia|done].
  - assert (HpT : period w T = p).
    { destruct Htick as [_ Ho]. unfold period. by rewrite Ho. }
    assert (HinT : In T (waiters (inner w))) by exact (proj1 Htick).
    pose proof (proj1 (List.Forall_forall _ _) Hper T HinT) as HT.
    cbv beta in HT. rewrite HpT in HT. rewrite Nat2Z.inj_succ in HT, Hper.
    assert (Hadv : advance_in_range p w).
    { split; [destruct Hw as [[? ?] _]; unfold Time_range; nia|].
      apply (periods_le_mono (maxTime - (time (inner w) + Z.succ (Z.of_nat k) * p)));
        [nia|done]. }
    destruct (tick_round p T w Hp Hreg Htick)
      as (w' & Hround & Hreg' & Htick' & Htime' & Hfir').
    destruct (Advance_returns p w) as (w1' & _ & Hrun1).
    set (w1 := set_time (time (inner w) + p) w1') in *.
    unfold bind in Hround. rewrite Hrun1 in Hround.
    destruct (Advance_in_range p w w1 Hw Hadv Hrun1) as (Hw1 & _ & Hper1).
    destruct (drain_in_range T _ w1 w' Hround Hw1) as [Hw' Hper'].
    destruct (IH w' Hreg' Htick' Hw') as (fuel0 & wk & Hrunk & Htimek & Hfirk).
    { apply Hper', Hper1. rewrite Htime'.
      by replace (time (inner w) + p + Z.of_nat k * p)
        with (time (inner w) + Z.succ (Z.of_nat k) * p) by lia. }
    exists (Nat.max (advance_fuel (time (inner w) + p) w) fuel0), wk.
    split; [|split].
    + intros fuel Hfuel. simpl. unfold bind.
      rewrite Advance_exact; [|done|done|lia]. rewrite Hrun1.
      rewrite (receive_drain T _ w1 w' Hround).
      rewrite Hrunk by lia. unfold ret. f_equal. f_equal; [lia|].
      rewrite <- (seq_shift k 1), map_map. apply map_ext. intros i.
      rewrite Htime'. lia.
    + rewrite Htimek, Htime'. lia.
    + rewrite Hfirk, Hfir', <- app_assoc. f_equal. simpl. f_equal.
      * f_equal. lia.
      * rewrite <- (seq_shift k 1), map_map. apply map_ext. intros i.
        f_equal. rewrite Htime'. lia.
Qed.

Lemma NewTicker_in_range (p : Duration) (w : world) (T : ptr) (w0 : world) (B : Z) :
  Forall (allocated w) (waiters (inner w)) ->
  world_in_range w ->
  0 < p -> Time_range (time (inner w) + p) ->
  p <= B -> periods_le B w ->
  NewTicker p w = Returns T w0 ->
  world_in_range w0 /\ periods_le B w0.
Proof.
  intros Hall Hw Hp Htp HB Hper. unfold NewTicker, newFakeTicker.
  rewrite (proj2 (Z.leb_gt p 0) Hp). intros [= _ <-].
  destruct (new_expirer_in_range (Ticker (mkFakeTicker None 0 p)) p w Hall Hw
              ltac:(done)) as [Hw0 Hper0].
  split; [done|]. by apply Hper0.
Qed.

(** X11. On a clock that the code reaches without resetting a pending
    ticker and without leaving the range, a ticker made by
    [NewTicker p] goes through [k] rounds of [Advance p] and a receive:
    every receive returns, with the instants [time + p], ...,
    [time + k * p] in turn, the ticker has fired exactly once at each of
    them, and the clock stands at [time + k * p]. The instant for which
    the ticker is queued at the end, [time + (k + 1) * p], is in the
    range, and no other ticker can be queued again past it. *)
Theorem NewTicker_ticks_every_period (w : world) (p : Duration) (k : nat) :
  Bounded.reachable_clean w -> 0 < p ->
  Time_range (time (inner w) + Z.of_nat (S k) * p) ->
  periods_le (maxTime - (time (inner w) + Z.of_nat k * p)) w ->
  exists fuel T w0 wk,
    Bounded.NewTicker p w = Returns T w0 /\
    Bounded.ticks fuel k p T w0 =
      Returns (map (fun i => time (inner w) + Z.of_nat i * p) (seq 1 k)) wk /\
    firings_of T (fired wk) =
      firings_of T (fired w) ++
      map (fun i => (T, time (inner w) + Z.of_nat i * p)) (seq 1 k) /\
    time (inner wk) = time (inner w) + Z.of_nat k * p.
Proof.
  intros Hc Hp Hlast Hper. destruct (reachable_clean_exact w Hc) as [Hclean Hw].
  pose proof (reachable_allocated w (reachable_clean_in_range w Hc)) as Hall.
  pose proof (reachable_clean_regular w Hclean) as Hreg.
  rewrite Nat2Z.inj_succ in Hlast.
  assert (Htp : Time_range (time (inner w) + p)).
  { destruct Hw as [[? ?] _]. unfold Time_range in *. nia. }
  destruct (NewTicker_ticking p w Hp Hreg)
    as (T & w0 & Hnew & _ & Hreg0 & Ht0 & Hf0 & Htime0).
  assert (HB : p <= maxTime - (time (inner w) + Z.of_nat k * p))
    by (unfold Time_range in Hlast; lia).
  destruct (NewTicker_in_range p w T w0 _ Hall Hw Hp Htp HB Hper Hnew)
    as [Hw0 Hper0].
  rewrite <- Htime0 in Hper0.
  destruct (ticks_in_range k p T w0 Hp Hreg0 Ht0 Hw0 Hper0)
    as (fuel0 & wk & Hrun & Htime & Hfir).
  exists fuel0, T, w0, wk. split; [|split; [|split]].
  - rewrite NewTicker_exact; [exact Hnew|]. intros _. split; [exact (proj1 Hw)|exact Htp].
  - rewrite <- Htime0. by apply Hrun.
  - rewrite Hfir, Hf0, Htime0. done.
  - by rewrite Htime, Htime0.
Qed.

Lemma NewTicker_ticks_every_period_witness :
  Bounded.reachable_clean ticker5_timer7 /\ 0 < 3 /\
  Time_range (time (inner ticker5_timer7) + Z.of_nat 5 * 3) /\
  periods_le (maxTime - (time (inner ticker5_timer7) + Z.of_nat 4 * 3)) ticker5_timer7 /\
  exists fuel T w0 wk,
    Bounded.NewTicker 3 ticker5_timer7 = Returns T w0 /\
    Bounded.ticks fuel 4 3 T w0 = Returns [3; 6; 9; 12] wk /\
    time (inner wk) = time (inner ticker5_timer7) + Z.of_nat 4 * 3.
Proof.
  assert (Hp : 0 < 3) by lia.
  assert (Hlast : Time_range (time (inner ticker5_timer7) + Z.of_nat 5 * 3)) by in_range.
  assert (Hper : periods_le (maxTime - (time (inner ticker5_timer7) + Z.of_nat 4 * 3))
                   ticker5_timer7)
    by (repeat constructor; vm_compute; discriminate).
  split; [exact ticker5_timer7_in_range|]. split; [exact Hp|].
  split; [exact Hlast|]. split; [exact Hper|].
  destruct (NewTicker_ticks_every_period ticker5_timer7 3 4 ticker5_timer7_in_range
              Hp Hlast Hper)
    as (fuel & T & w0 & wk & Hnew & Hrun & _ & Htime).
  exists fuel, T, w0, wk. split; [exact Hnew|]. split; [exact Hrun|exact Htime].
Defined.

Lemma advances_in_range (k : nat) (p : Duration) (T : ptr) (c : option instant)
    (w : world) :
  0 < p -> regular w ->
  In T (waiters (inner w)) ->
  deref w T = Ticker (mkFakeTicker c (time (inner w) + p) p) ->
  world_in_range w ->
  periods_le (maxTime - (time (inner w) + Z.of_nat k * p)) w ->
  exists fuel0 wk,
    (forall fuel, (fuel0 <= fuel)%nat ->
       Bounded.advances fuel k p w = Returns tt wk) /\
    chan wk T = match k with O => c | S _ => try_send c (time (inner w) + p) end /\
    time (inner wk) = time (inner w) + Z.of_nat k * p /\
    firings_of T (fired wk) =
      firings_of T (fired w) ++
      map (fun i => (T, time (inner w) + Z.of_nat i * p)) (seq 1 k).
Proof.
  intros Hp. revert w c. induction k as [|k IH]; intros w c Hreg HinT Ho Hw Hper.
  - exists 0%nat, w. simpl. rewrite app_nil_r. split; [done|].
    split; [unfold chan; by rewrite Ho|]. split; [lia|done].
  - assert (HpT : period w T = p) by (unfold period; by rewrite Ho).
    pose proof (proj1 (List.Forall_forall _ _) Hper T HinT) as HT.
    cbv beta in HT. rewrite HpT in HT. rewrite Nat2Z.inj_succ in HT, Hper.
    assert (Hadv : advance_in_range p w).
    { split; [destruct Hw as [[? ?] _]; unfold Time_range; nia|].
      apply (periods_le_mono (maxTime - (time (inner w) + Z.succ (Z.of_nat k) * p)));
        [nia|done]. }
    destruct (advance_round p T c w Hp Hreg HinT Ho)
      as (w1 & Hrun1 & Hreg1 & Hin1 & Ho1 & Htime1 & Hfir1).
    destruct (Advance_in_range p w w1 Hw Hadv Hrun1) as (Hw1 & _ & Hper1).
    destruct (IH w1 _ Hreg1 Hin1 Ho1 Hw1) as (fuel0 & wk & Hrunk & Hchan & Htimek & Hfirk).
    { apply Hper1. rewrite Htime1.
      by replace (time (inner w) + p + Z.of_nat k * p)
        with (time (inner w) + Z.succ (Z.of_nat k) * p) by lia. }
    exists (Nat.max (advance_fuel (time (inner w) + p) w) fuel0), wk.
    split; [|split; [|split]].
    + intros fuel Hfuel. simpl. unfold bind.
      rewrite Advance_exact; [|done|done|lia]. rewrite Hrun1. apply Hrunk. lia.
    + rewrite Hchan. destruct k; [done|]. apply try_send_full.
    + rewrite Htimek, Htime1. lia.
    + rewrite Hfirk, Hfir1, <- app_assoc. f_equal. simpl. f_equal.
      * f_equal. lia.
      * rewrite <- (seq_shift k 1), map_map. apply map_ext. intros i.
        f_equal. rewrite Htime1. lia.
Qed.

(** X12. On a clock that the code reaches without resetting a pending
    ticker and without leaving the range, a ticker made by
    [NewTicker p] whose channel is never received from still fires once
    per [Advance p], at [time + p], ..., [time + (k + 1) * p], but its
    channel keeps the first tick, [time + p]: every later tick is
    dropped by the non-blocking send. The instant for which the ticker is
    queued at the end is in the range, and no other ticker can be queued
    again past it. *)
Theorem undrained_ticker_keeps_first_tick (w : world) (p : Duration) (k : nat) :
  Bounded.reachable_clean w -> 0 < p ->
  Time_range (time (inner w) + Z.of_nat (S (S k)) * p) ->
  periods_le (maxTime - (time (inner w) + Z.of_nat (S k) * p)) w ->
  exists fuel T w0 wk,
    Bounded.NewTicker p w = Returns T w0 /\
    Bounded.advances fuel (S k) p w0 = Returns tt wk /\
    chan wk T = Some (time (inner w) + p) /\
    firings_of T (fired wk) =
      firings_of T (fired w) ++
      map (fun i => (T, time (inner w) + Z.of_nat i * p)) (seq 1 (S k)).
Proof.
  intros Hc Hp Hlast Hper. destruct (reachable_clean_exact w Hc) as [Hclean Hw].
  pose proof (reachable_allocated w (reachable_clean_in_range w Hc)) as Hall.
  pose proof (reachable_clean_regular w Hclean) as Hreg.
  rewrite !Nat2Z.inj_succ in Hlast. rewrite Nat2Z.inj_succ in Hper.
  assert (Htp : Time_range (time (inner w) + p)).
  { destruct Hw as [[? ?] _]. unfold Time_range in *. nia. }
  destruct (NewTicker_ticking p w Hp Hreg)
    as (T & w0 & Hnew & _ & Hreg0 & [Hin0 Ho0] & Hf0 & Htime0).
  assert (HB : p <= maxTime - (time (inner w) + Z.succ (Z.of_nat k) * p))
    by (unfold Time_range in Hlast; lia).
  destruct (NewTicker_in_range p w T w0 _ Hall Hw Hp Htp HB Hper Hnew)
    as [Hw0 Hper0].
  rewrite <- Htime0, <- Nat2Z.inj_succ in Hper0.
  destruct (advances_in_range (S k) p T None w0 Hp Hreg0 Hin0 Ho0 Hw0 Hper0)
    as (fuel0 & wk & Hrun & Hchan & _ & Hfir).
  exists fuel0, T, w0, wk. split; [|split; [|split]].
  - rewrite NewTicker_exact; [exact Hnew|]. intros _. split; [exact (proj1 Hw)|exact Htp].
  - by apply Hrun.
  - rewrite Hchan, Htime0. done.
  - rewrite Hfir, Hf0, Htime0. done.
Qed.

Lemma undrained_ticker_keeps_first_tick_witness :
  Bounded.reachable_clean ticker5_timer7 /\ 0 < 3 /\
  Time_range (time (inner ticker5_timer7) + Z.of_nat 5 * 3) /\
  periods_le (maxTime - (time (inner ticker5_timer7) + Z.of_nat 4 * 3)) ticker5_timer7 /\
  exists fuel T w0 wk,
    Bounded.NewTicker 3 ticker5_timer7 = Returns T w0 /\
    Bounded.advances fuel 4 3 w0 = Returns tt wk /\
    chan wk T = Some (time (inner ticker5_timer7) + 3).
Proof.
  assert (Hp : 0 < 3) by lia.
  assert (Hlast : Time_range (time (inner ticker5_timer7) + Z.of_nat 5 * 3)) by in_range.
  assert (Hper : periods_le (maxTime - (time (inner ticker5_timer7) + Z.of_nat 4 * 3))
                   ticker5_timer7)
    by (repeat constructor; vm_compute; discriminate).
  split; [exact ticker5_timer7_in_range|]. split; [exact Hp|].
  split; [exact Hlast|]. split; [exact Hper|].
  destruct (undrained_ticker_keeps_first_tick ticker5_timer7 3 3
              ticker5_timer7_in_range Hp Hlast Hper)
    as (fuel & T & w0 & wk & Hnew & Hrun & Hchan & _).
  exists fuel, T, w0, wk. split; [exact Hnew|]. split; [exact Hrun|exact Hchan].
Defined.

Lemma advance_loop_period (fuel : nat) (end_ : instant) (w w' : world) (T : ptr) :
  advance_loop fuel end_ w = Some w' -> period w' T = period w T.
Proof.
  revert fuel w w'.
  apply (advance_loop_induction end_ (fun w w' => period w' T = period w T)).
  - done.
  - intros w e rest w' _ _ _ IH. by rewrite IH, period_advance_step.
Qed.

Lemma Advance_period (d : Duration) (w w1 : world) (T : ptr) :
  Advance d w = Returns tt w1 -> period w1 T = period w T.
Proof.
  destruct (Advance_returns d w) as (w1' & Hloop & ->). intros [= <-].
  exact (advance_loop_period _ _ _ _ T Hloop).
Qed.

Lemma rearm_rounds_in_range (k : nat) (d : Duration) (T : ptr) (w : world) :
  0 < d -> regular w ->
  In T (waiters (inner w)) ->
  deref w T = Timer (mkFakeTimer None (time (inner w) + d) None) ->
  world_in_range w ->
  Time_range (time (inner w) + Z.of_nat (S k) * d) ->
  periods_le (maxTime - (time (inner w) + Z.of_nat k * d)) w ->
  exists fuel0 wk,
    (forall fuel, (fuel0 <= fuel)%nat ->
       Bounded.rearm_rounds fuel k d T w =
         Returns (map (fun i => (time (inner w) + Z.of_nat i * d, false)) (seq 1 k))
                 wk) /\
    time (inner wk) = time (inner w) + Z.of_nat k * d /\
    firings_of T (fired wk) =
      firings_of T (fired w) ++
      map (fun i => (T, time (inner w) + Z.of_nat i * d)) (seq 1 k).
Proof.
  intros Hd. revert w. induction k as [|k IH]; intros w Hreg HinT Ho Hw Hlast Hper.
  - exists 0%nat, w. simpl. rewrite app_nil_r. split; [done|]. split; [lia|done].
  - rewrite !Nat2Z.inj_succ in Hlast. rewrite Nat2Z.inj_succ in Hper.
    assert (HpT : period w T = 0) by (unfold period; by rewrite Ho).
    assert (Hadv : advance_in_range d w).
    { split; [destruct Hw as [[? ?] _]; unfold Time_range in *; nia|].
      apply (periods_le_mono (maxTime - (time (inner w) + Z.succ (Z.of_nat k) * d)));
        [nia|done]. }
    destruct (rearm_round d T w Hd Hreg HinT Ho)
      as (w1 & w2 & w' & Hrun1 & Hdrain & Hreset & Htime2 & Hreg' & Hin' & Ho'
          & Htime' & Hfir').
    destruct (Advance_in_range d w w1 Hw Hadv Hrun1) as (Hw1 & _ & Hper1).
    destruct (drain_in_range T _ w1 w2 Hdrain Hw1) as [Hw2 Hper2].
    assert (Htd2 : Time_range (time (inner w2) + d)).
    { rewrite Htime2. destruct Hw as [[? ?] _]. unfold Time_range in *. nia. }
    destruct (fakeTimer_Reset_in_range T d false w2 w' Hw2 ltac:(done) Hreset)
      as [Hw' Hper'].
    assert (HpT2 : period w2 T = 0).
    { destruct (drain_frame T _ w1 w2 Hdrain) as (_ & _ & Hp2).
      by rewrite Hp2, (Advance_period d w w1 T Hrun1). }
    destruct (IH w' Hreg' Hin' Ho' Hw') as (fuel0 & wk & Hrunk & Htimek & Hfirk).
    { rewrite Htime'. rewrite Nat2Z.inj_succ.
      replace (time (inner w) + d + Z.succ (Z.of_nat k) * d)
        with (time (inner w) + Z.succ (Z.succ (Z.of_nat k)) * d) by lia. exact Hlast. }
    { apply Hper'.
      - rewrite HpT2. rewrite Htime'. unfold Time_range in Hlast. nia.
      - apply Hper2, Hper1. rewrite Htime'.
        by replace (time (inner w) + d + Z.of_nat k * d)
          with (time (inner w) + Z.succ (Z.of_nat k) * d) by lia. }
    exists (Nat.max (advance_fuel (time (inner w) + d) w) fuel0), wk.
    split; [|split].
    + intros fuel Hfuel. simpl. unfold bind.
      rewrite Advance_exact; [|done|done|lia]. rewrite Hrun1.
      rewrite (receive_drain T _ w1 w2 Hdrain).
      rewrite fakeTimer_Reset_exact; [|intros _; split; [exact (proj1 Hw2)|exact Htd2]].
      rewrite Hreset. rewrite Hrunk by lia. unfold ret. f_equal. f_equal.
      * f_equal. lia.
      * rewrite <- (seq_shift k 1), map_map. apply map_ext. intros i.
        rewrite Htime'. f_equal. lia.
    + rewrite Htimek, Htime'. lia.
    + rewrite Hfirk, Hfir', <- app_assoc. f_equal. simpl. f_equal.
      * f_equal. lia.
      * rewrite <- (seq_shift k 1), map_map. apply map_ext. intros i.
        f_equal. rewrite Htime'. lia.
Qed.

(** X10. On a clock that the code reaches without resetting a pending
    ticker and without leaving the range, a timer made by [NewTimer d],
    [d > 0], goes through [k] rounds of [Advance d], a receive and
    [Reset d]: every receive returns, with the instant [time + i * d] in
    round [i], at which the timer has fired exactly once; every [Reset]
    finds the timer no longer pending and reports false; the clock ends
    at [time + k * d]. The instant for which the timer is queued at the
    end, [time + (k + 1) * d], is in the range, and no ticker can be
    queued again past it. *)
Theorem timer_rearmed_each_round (w : world) (d : Duration) (k : nat) :
  Bounded.reachable_clean w -> 0 < d ->
  Time_range (time (inner w) + Z.of_nat (S k) * d) ->
  periods_le (maxTime - (time (inner w) + Z.of_nat k * d)) w ->
  exists fuel T w0 wk,
    Bounded.NewTimer d w = Returns T w0 /\
    Bounded.rearm_rounds fuel k d T w0 =
      Returns (map (fun i => (time (inner w) + Z.of_nat i * d, false)) (seq 1 k)) wk /\
    firings_of T (fired wk) =
      firings_of T (fired w) ++
      map (fun i => (T, time (inner w) + Z.of_nat i * d)) (seq 1 k) /\
    time (inner wk) = time (inner w) + Z.of_nat k * d.
Proof.
  intros Hc Hd Hlast Hper. destruct (reachable_clean_exact w Hc) as [Hclean Hw].
  pose proof (reachable_allocated w (reachable_clean_in_range w Hc)) as Hall.
  assert (Htd : Time_range (time (inner w) + d)).
  { rewrite Nat2Z.inj_succ in Hlast. destruct Hw as [[? ?] _].
    unfold Time_range in *. nia. }
  destruct (NewTimer_pending w d Hd) as (T & w0 & Hnew & _ & Hin & Ho & Ht & Hf).
  assert (Hc0 : reachable_clean w0).
  { apply (clean_op (OpNewTimer d) w); [done|done|exact I|].
    simpl. unfold exec. by rewrite Hnew. }
  pose proof (reachable_clean_regular w0 Hc0) as Hreg0.
  destruct (NewTimer_in_range d w T w0 Hall Hw ltac:(done) Hnew) as (Hw0 & _ & Hper0).
  rewrite <- Ht in Ho, Hlast, Hper.
  destruct (rearm_rounds_in_range k d T w0 Hd Hreg0 Hin Ho Hw0 Hlast)
    as (fuel0 & wk & Hrun & Htime & Hfir).
  { apply Hper0; [|done]. rewrite Nat2Z.inj_succ in Hlast.
    unfold Time_range in Hlast. nia. }
  exists fuel0, T, w0, wk. split; [|split; [|split]].
  - unfold Bounded.NewTimer. rewrite newTimer_exact; [exact Hnew|].
    intros _. split; [exact (proj1 Hw)|exact Htd].
  - rewrite <- Ht. by apply Hrun.
  - rewrite Hfir, Hf, Ht. done.
  - by rewrite Htime, Ht.
Qed.

Lemma timer_rearmed_each_round_witness :
  Bounded.reachable_clean ticker5_timer7 /\ 0 < 3 /\
  Time_range (time (inner ticker5_timer7) + Z.of_nat 5 * 3) /\
  periods_le (maxTime - (time (inner ticker5_timer7) + Z.of_nat 4 * 3)) ticker5_timer7 /\
  exists fuel T w0 wk,
    Bounded.NewTimer 3 ticker5_timer7 = Returns T w0 /\
    Bounded.rearm_rounds fuel 4 3 T w0 =
      Returns [(3, false); (6, false); (9, false); (12, false)] wk.
Proof.
  assert (Hd : 0 < 3) by lia.
  assert (Hlast : Time_range (time (inner ticker5_timer7) + Z.of_nat 5 * 3)) by in_range.
  assert (Hper : periods_le (maxTime - (time (inner ticker5_timer7) + Z.of_nat 4 * 3))
                   ticker5_timer7)
    by (repeat constructor; vm_compute; discriminate).
  split; [exact ticker5_timer7_in_range|]. split; [exact Hd|].
  split; [exact Hlast|]. split; [exact Hper|].
  destruct (timer_rearmed_each_round ticker5_timer7 3 4 ticker5_timer7_in_range
              Hd Hlast Hper)
    as (fuel & T & w0 & wk & Hnew & Hrun & _).
  exists fuel, T, w0, wk. split; [exact Hnew|exact Hrun].
Defined.
